(** * Pre3d: a shallow embedding of the renderer's math, mesh and path code

    The development follows the layout of the JavaScript sources:
    - [index.js] (the engine, [pre3d.js]): vector and affine-matrix math,
      [Transform], [QuadFace], [Shape], [Curve], [Path], [Camera] and the
      [Renderer] (transform stack, projection, [bufferShape], path tracing);
    - [pre3d_path_utils.js] (which holds both [Pre3d.PathUtils] and
      [Pre3d.ShapeUtils]): [makeLine], [makeCircle], [makeSpiral],
      [fitQuadraticToPoints], [rebuildMeta], [triangulate], [makeBox],
      [makeSphericalShape], [makeSphere], [averageSmooth], [linearSubdivide],
      [linearSubdivideTri], [explodeFaces] and the [Extruder].

    Modelling conventions.
    - JavaScript numbers used as coordinates are real numbers ([R]); the
      rounding of IEEE doubles is not modelled.  [Math.sin], [Math.cos] and
      [Math.sqrt] are [sin], [cos] and [sqrt].  A division by zero gives
      [Infinity] or [NaN] in JavaScript and has no counterpart in [R].
    - [Renderer.bufferShape] is the exception: whether it draws a face
      depends on the sign of computed numbers, which rounding can change,
      so it and the functions it calls are embedded over binary64
      floating-point numbers ([Module Double]).
    - Array indices, lengths and loop counters are [nat].
    - [null] in a field that otherwise holds an index or an object is [None].
    - An array read out of range yields [undefined]; reading a property of
      [undefined] or [null] throws a [TypeError].  A function that can throw
      returns an [option], [None] standing for the exception.
    - Objects that are mutated in place through one reference only are
      modelled by state passing.  The transform stack, whose claim is about
      aliasing, gets an explicit object store ([Module TransformStack]). *)

From Stdlib Require Import Reals Lra Lia Ascii.
From Stdlib Require PrimFloat.
From stdpp Require Import base option list gmap strings pretty.

Open Scope R_scope.

(** ** index.js: 3D point / vector math *)

(** A 3D point or vector, the object literal [{x: _, y: _, z: _}]. *)
Record Point3d : Type := P3 { x : R; y : R; z : R }.

Definition crossProduct (a b : Point3d) : Point3d :=
  {| x := y a * z b - z a * y b;
     y := z a * x b - x a * z b;
     z := x a * y b - y a * x b |}.

Definition dotProduct3d (a b : Point3d) : R :=
  x a * x b + y a * y b + z a * z b.

(** [a - b] *)
Definition subPoints3d (a b : Point3d) : Point3d :=
  {| x := x a - x b; y := y a - y b; z := z a - z b |}.

(** [a + b] *)
Definition addPoints3d (a b : Point3d) : Point3d :=
  {| x := x a + x b; y := y a + y b; z := z a + z b |}.

(** [a * s] *)
Definition mulPoint3d (a : Point3d) (s : R) : Point3d :=
  {| x := x a * s; y := y a * s; z := z a * s |}.

(** [|a|] *)
Definition vecMag3d (a : Point3d) : R :=
  sqrt (x a * x a + y a * y a + z a * z a).

(** [a / |a|] *)
Definition unitVector3d (a : Point3d) : Point3d :=
  mulPoint3d a (1 / vecMag3d a).

Definition linearInterpolate (a b d : R) : R := (b - a) * d + a.

Definition linearInterpolatePoints3d (a b : Point3d) (d : R) : Point3d :=
  {| x := (x b - x a) * d + x a;
     y := (y b - y a) * d + y a;
     z := (z b - z a) * d + z a |}.

(** ** index.js: affine matrices

    A 3x4 matrix whose implied last row is [0 0 0 1]:
<<
      e0  e1  e2  e3
      e4  e5  e6  e7
      e8  e9  e10 e11
>> *)
Record AffineMatrix : Type := mkAffine {
  e0 : R; e1 : R; e2 : R; e3 : R;
  e4 : R; e5 : R; e6 : R; e7 : R;
  e8 : R; e9 : R; e10 : R; e11 : R
}.

(** Matrix product [a x b], unrolled as in the source. *)
Definition multiplyAffine (a b : AffineMatrix) : AffineMatrix :=
  let a0 := e0 a in let a1 := e1 a in let a2 := e2 a in let a3 := e3 a in
  let a4 := e4 a in let a5 := e5 a in let a6 := e6 a in let a7 := e7 a in
  let a8 := e8 a in let a9 := e9 a in let a10 := e10 a in let a11 := e11 a in
  let b0 := e0 b in let b1 := e1 b in let b2 := e2 b in let b3 := e3 b in
  let b4 := e4 b in let b5 := e5 b in let b6 := e6 b in let b7 := e7 b in
  let b8 := e8 b in let b9 := e9 b in let b10 := e10 b in let b11 := e11 b in
  mkAffine
    (a0 * b0 + a1 * b4 + a2 * b8)
    (a0 * b1 + a1 * b5 + a2 * b9)
    (a0 * b2 + a1 * b6 + a2 * b10)
    (a0 * b3 + a1 * b7 + a2 * b11 + a3)
    (a4 * b0 + a5 * b4 + a6 * b8)
    (a4 * b1 + a5 * b5 + a6 * b9)
    (a4 * b2 + a5 * b6 + a6 * b10)
    (a4 * b3 + a5 * b7 + a6 * b11 + a7)
    (a8 * b0 + a9 * b4 + a10 * b8)
    (a8 * b1 + a9 * b5 + a10 * b9)
    (a8 * b2 + a9 * b6 + a10 * b10)
    (a8 * b3 + a9 * b7 + a10 * b11 + a11).

Definition makeIdentityAffine : AffineMatrix :=
  mkAffine
    1 0 0 0
    0 1 0 0
    0 0 1 0.

Definition makeRotateAffineX (theta : R) : AffineMatrix :=
  let s := sin theta in
  let c := cos theta in
  mkAffine
    1 0 0 0
    0 c (- s) 0
    0 s c 0.

Definition makeRotateAffineY (theta : R) : AffineMatrix :=
  let s := sin theta in
  let c := cos theta in
  mkAffine
    c 0 s 0
    0 1 0 0
    (- s) 0 c 0.

Definition makeRotateAffineZ (theta : R) : AffineMatrix :=
  let s := sin theta in
  let c := cos theta in
  mkAffine
    c (- s) 0 0
    s c 0 0
    0 0 1 0.

Definition makeTranslateAffine (dx dy dz : R) : AffineMatrix :=
  mkAffine
    1 0 0 dx
    0 1 0 dy
    0 0 1 dz.

Definition makeScaleAffine (sx sy sz : R) : AffineMatrix :=
  mkAffine
    sx 0 0 0
    0 sy 0 0
    0 0 sz 0.

(** A copy of the matrix: a new object with the same twelve coefficients. *)
Definition dupAffine (a : AffineMatrix) : AffineMatrix :=
  mkAffine
    (e0 a) (e1 a) (e2 a) (e3 a)
    (e4 a) (e5 a) (e6 a) (e7 a)
    (e8 a) (e9 a) (e10 a) (e11 a).

(** Transpose of the inverse through the classical adjoint, without the
    division by the determinant. *)
Definition transAdjoint (a : AffineMatrix) : AffineMatrix :=
  let a0 := e0 a in let a1 := e1 a in let a2 := e2 a in
  let a4 := e4 a in let a5 := e5 a in let a6 := e6 a in
  let a8 := e8 a in let a9 := e9 a in let a10 := e10 a in
  mkAffine
    (a10 * a5 - a6 * a9)
    (a6 * a8 - a4 * a10)
    (a4 * a9 - a8 * a5)
    0
    (a2 * a9 - a10 * a1)
    (a10 * a0 - a2 * a8)
    (a8 * a1 - a0 * a9)
    0
    (a6 * a1 - a2 * a5)
    (a4 * a2 - a6 * a0)
    (a0 * a5 - a4 * a1)
    0.

(** Transform the point [p] by the matrix [t]. *)
Definition transformPoint (t : AffineMatrix) (p : Point3d) : Point3d :=
  {| x := e0 t * x p + e1 t * y p + e2 t * z p + e3 t;
     y := e4 t * x p + e5 t * y p + e6 t * z p + e7 t;
     z := e8 t * x p + e9 t * y p + e10 t * z p + e11 t |}.

Definition transformPoints (t : AffineMatrix) (ps : list Point3d)
  : list Point3d :=
  map (transformPoint t) ps.

(** [averagePoints]: the running sum starts at the origin, and the sum is
    multiplied by [1 / ps.length]. *)
Definition averagePoints (ps : list Point3d) : Point3d :=
  let avg := foldl addPoints3d (P3 0 0 0) ps in
  let f := 1 / INR (length ps) in
  {| x := x avg * f; y := y avg * f; z := z avg * f |}.

(** ** index.js: Transform

    A wrapper around one matrix.  Every method but [setDCM] replaces the
    field [m] by a new matrix; the methods are given here as functions from
    the old wrapper to the new one. *)
Module Transform.

Record t : Type := mk { m : AffineMatrix }.

Definition reset (_ : t) : t := mk makeIdentityAffine.

(** [new Transform()] *)
Definition new : t := reset (mk makeIdentityAffine).

Definition rotateX (theta : R) (tm : t) : t :=
  mk (multiplyAffine (makeRotateAffineX theta) (m tm)).
Definition rotateXPre (theta : R) (tm : t) : t :=
  mk (multiplyAffine (m tm) (makeRotateAffineX theta)).

Definition rotateY (theta : R) (tm : t) : t :=
  mk (multiplyAffine (makeRotateAffineY theta) (m tm)).
Definition rotateYPre (theta : R) (tm : t) : t :=
  mk (multiplyAffine (m tm) (makeRotateAffineY theta)).

Definition rotateZ (theta : R) (tm : t) : t :=
  mk (multiplyAffine (makeRotateAffineZ theta) (m tm)).
Definition rotateZPre (theta : R) (tm : t) : t :=
  mk (multiplyAffine (m tm) (makeRotateAffineZ theta)).

Definition translate (dx dy dz : R) (tm : t) : t :=
  mk (multiplyAffine (makeTranslateAffine dx dy dz) (m tm)).
Definition translatePre (dx dy dz : R) (tm : t) : t :=
  mk (multiplyAffine (m tm) (makeTranslateAffine dx dy dz)).

Definition scale (sx sy sz : R) (tm : t) : t :=
  mk (multiplyAffine (makeScaleAffine sx sy sz) (m tm)).
Definition scalePre (sx sy sz : R) (tm : t) : t :=
  mk (multiplyAffine (m tm) (makeScaleAffine sx sy sz)).

Definition transformPoint (tm : t) (p : Point3d) : Point3d :=
  transformPoint (m tm) p.

Definition multTransform (other : t) (tm : t) : t :=
  mk (multiplyAffine (m tm) (m other)).

(** [setDCM] writes nine coefficients of the matrix object in place. *)
Definition setDCMAffine (u v w : Point3d) (a : AffineMatrix)
  : AffineMatrix :=
  mkAffine
    (x u) (x v) (x w) (e3 a)
    (y u) (y v) (y w) (e7 a)
    (z u) (z v) (z w) (e11 a).

Definition setDCM (u v w : Point3d) (tm : t) : t :=
  mk (setDCMAffine u v w (m tm)).

Definition dup (tm : t) : t := mk (dupAffine (m tm)).

End Transform.

(** ** Loops and exceptions

    [for (var i = 0; i < n; ++i) body] over a state [S], where the body may
    throw: the loop runs over the index list [seq 0 n] and stops with [None]
    at the first exception. *)
Fixpoint for_loop {S : Type} (body : S → nat → option S) (idx : list nat)
  (s : S) : option S :=
  match idx with
  | [] => Some s
  | i :: idx' =>
      match body s i with
      | Some s' => for_loop body idx' s'
      | None => None
      end
  end.

(** ** index.js: RGBA, QuadFace, Shape, Curve, Path, Camera, TextureInfo *)

Module RGBA.
Record t : Type := mk { r : R; g : R; b : R; a : R }.
End RGBA.

(** A face holds three vertex indices and a fourth that is [null] for a
    triangle, and the cached centroid and normals, [null] until they are
    computed. *)
Record QuadFace : Type := mkQuadFace {
  i0 : nat; i1 : nat; i2 : nat; i3 : option nat;
  centroid : option Point3d;
  normal1 : option Point3d;
  normal2 : option Point3d
}.

(** [new QuadFace(i0, i1, i2, i3)] *)
Definition newQuadFace (j0 j1 j2 : nat) (j3 : option nat) : QuadFace :=
  mkQuadFace j0 j1 j2 j3 None None None.

Definition isTriangle (qf : QuadFace) : bool :=
  match i3 qf with None => true | Some _ => false end.

Definition setQuad (j0 j1 j2 : nat) (j3 : option nat) (qf : QuadFace)
  : QuadFace :=
  mkQuadFace j0 j1 j2 j3 (centroid qf) (normal1 qf) (normal2 qf).

Definition setTriangle (j0 j1 j2 : nat) (qf : QuadFace) : QuadFace :=
  mkQuadFace j0 j1 j2 None (centroid qf) (normal1 qf) (normal2 qf).

(** The assignment [qf.i3 = v]. *)
Definition set_i3 (v : option nat) (qf : QuadFace) : QuadFace :=
  mkQuadFace (i0 qf) (i1 qf) (i2 qf) v (centroid qf) (normal1 qf) (normal2 qf).

Record Shape : Type := mkShape {
  vertices : list Point3d;
  quads : list QuadFace
}.

(** [new Shape()] *)
Definition newShape : Shape := mkShape [] [].

(** A bezier curve: an end point and one control point (quadratic, [c1] is
    [null]) or two (cubic), all indices into the points of a path. *)
Record Curve : Type := mkCurve { ep : nat; c0 : nat; c1 : option nat }.

Definition isQuadratic (c : Curve) : bool :=
  match c1 c with None => true | Some _ => false end.

Record Path : Type := mkPath {
  points : list Point3d;
  curves : list Curve;
  starting_point : option nat
}.

(** [new Path()] *)
Definition newPath : Path := mkPath [] [] None.

(** A camera: a transform and a focal length. *)
Module Camera.
Record t : Type := mk {
  transform : Transform.t;
  focal_length : R
}.

(** [new Camera()] *)
Definition new : t := mk Transform.new 1.
End Camera.

(** The texture coordinates of a [TextureInfo]; the image, a handle that
    only the canvas reads, is left out. *)
Record TextureInfo : Type := mkTextureInfo {
  u0 : R; v0 : R; u1 : R; v1 : R; u2 : R; v2 : R; u3 : R; v3 : R
}.

(** ** pre3d_path_utils.js: PathUtils *)

Definition kKappa : R := 0.66666666666.

Definition makeCircle : Path :=
  {| points := [ P3 0 kKappa 0;
                 P3 1 kKappa 0;
                 P3 1 0 0;
                 P3 1 (- kKappa) 0;
                 P3 0 (- kKappa) 0;
                 P3 0 0 0 ];
     curves := [ mkCurve 2 0 (Some 1%nat);
                 mkCurve 5 3 (Some 4%nat) ];
     starting_point := None |}.

(** *** Tracing a path

    A path "starts implicitly at (0, 0, 0), and then continues along each
    curve, each piece of curve continuing where the last left off"; with a
    [starting_point] it starts at that point instead.  [drawPath] follows
    this rule on the projected points: a [moveTo] the start, then one
    [quadraticCurveTo] or [bezierCurveTo] per curve, each drawn from the
    current point.  A [Segment] is one such piece with its points resolved;
    reading a coordinate of a missing point throws. *)
Record Segment : Type := mkSegment {
  seg_start : Point3d;
  seg_c0 : Point3d;
  seg_c1 : option Point3d;
  seg_ep : Point3d
}.

Definition pathStart (path : Path) : option Point3d :=
  match starting_point path with
  | None => Some (P3 0 0 0)
  | Some i => points path !! i
  end.

Definition curveSegment (pts : list Point3d) (cur : Point3d) (c : Curve)
  : option Segment :=
  match c1 c with
  | None =>
      p0 ← pts !! c0 c;
      pe ← pts !! ep c;
      Some (mkSegment cur p0 None pe)
  | Some k1 =>
      p0 ← pts !! c0 c;
      p1 ← pts !! k1;
      pe ← pts !! ep c;
      Some (mkSegment cur p0 (Some p1) pe)
  end.

Fixpoint traceCurves (pts : list Point3d) (cur : Point3d) (cs : list Curve)
  : option (list Segment) :=
  match cs with
  | [] => Some []
  | c :: cs' =>
      s ← curveSegment pts cur c;
      rest ← traceCurves pts (seg_ep s) cs';
      Some (s :: rest)
  end.

Definition tracePath (path : Path) : option (list Segment) :=
  start ← pathStart path;
  traceCurves (points path) start (curves path).

(** The point of a bezier piece at parameter [u]: the quadratic or cubic
    Bernstein form over the start, the control point(s) and the end. *)
Definition bezier1 (u p0 q0 pe : R) : R :=
  (1 - u) * (1 - u) * p0 + 2 * (1 - u) * u * q0 + u * u * pe.

Definition bezier2 (u p0 q0 q1 pe : R) : R :=
  (1 - u) * (1 - u) * (1 - u) * p0 + 3 * (1 - u) * (1 - u) * u * q0
  + 3 * (1 - u) * u * u * q1 + u * u * u * pe.

Definition segmentPoint (s : Segment) (u : R) : Point3d :=
  match seg_c1 s with
  | None =>
      {| x := bezier1 u (x (seg_start s)) (x (seg_c0 s)) (x (seg_ep s));
         y := bezier1 u (y (seg_start s)) (y (seg_c0 s)) (y (seg_ep s));
         z := bezier1 u (z (seg_start s)) (z (seg_c0 s)) (z (seg_ep s)) |}
  | Some q1 =>
      {| x := bezier2 u (x (seg_start s)) (x (seg_c0 s)) (x q1) (x (seg_ep s));
         y := bezier2 u (y (seg_start s)) (y (seg_c0 s)) (y q1) (y (seg_ep s));
         z := bezier2 u (z (seg_start s)) (z (seg_c0 s)) (z q1) (z (seg_ep s)) |}
  end.

(** ** pre3d_path_utils.js: ShapeUtils *)

(** [averagePoints] specialised to two points. *)
Definition averagePoints2 (a b : Point3d) : Point3d :=
  {| x := (x a + x b) * 0.5;
     y := (y a + y b) * 0.5;
     z := (z a + z b) * 0.5 |}.

(** The body of the loop of [rebuildMeta] for one face.  [vertices[i]] out
    of range is [undefined], and [subPoints3d] then throws. *)
Definition rebuildMetaFace (vs : list Point3d) (qf : QuadFace)
  : option QuadFace :=
  vert0 ← vs !! i0 qf;
  vert1 ← vs !! i1 qf;
  vert2 ← vs !! i2 qf;
  let vec01 := subPoints3d vert1 vert0 in
  let vec02 := subPoints3d vert2 vert0 in
  let n1 := crossProduct vec01 vec02 in
  match i3 qf with
  | None =>
      let n2 := n1 in
      let cen := averagePoints [vert0; vert1; vert2] in
      Some (mkQuadFace (i0 qf) (i1 qf) (i2 qf) (i3 qf)
              (Some cen) (Some n1) (Some n2))
  | Some j3 =>
      vert3 ← vs !! j3;
      let vec03 := subPoints3d vert3 vert0 in
      let n2 := crossProduct vec02 vec03 in
      let cen := averagePoints [vert0; vert1; vert2; vert3] in
      Some (mkQuadFace (i0 qf) (i1 qf) (i2 qf) (i3 qf)
              (Some cen) (Some n1) (Some n2))
  end.

Definition rebuildMeta (shape : Shape) : option Shape :=
  qs ← mapM (rebuildMetaFace (vertices shape)) (quads shape);
  Some (mkShape (vertices shape) qs).

(** One iteration of the loop of [triangulate] on the face list. *)
Definition triangulateStep (qs : list QuadFace) (i : nat)
  : option (list QuadFace) :=
  qf ← qs !! i;
  match i3 qf with
  | None => Some qs
  | Some j3 =>
      let newtri := newQuadFace (i0 qf) (i2 qf) j3 None in
      Some (<[i := set_i3 None qf]> qs ++ [newtri])
  end.

Definition triangulate (shape : Shape) : option Shape :=
  let num_quads := length (quads shape) in
  qs ← for_loop triangulateStep (seq 0 num_quads) (quads shape);
  rebuildMeta (mkShape (vertices shape) qs).

Definition makePlane (p1 p2 p3 p4 : Point3d) : option Shape :=
  rebuildMeta (mkShape [p1; p2; p3; p4] [newQuadFace 0 1 2 (Some 3%nat)]).

Definition makeBox (w h d : R) : option Shape :=
  rebuildMeta
    (mkShape
       [ P3 w h (- d);
         P3 w h d;
         P3 w (- h) d;
         P3 w (- h) (- d);
         P3 (- w) h (- d);
         P3 (- w) h d;
         P3 (- w) (- h) d;
         P3 (- w) (- h) (- d) ]
       [ newQuadFace 0 1 2 (Some 3%nat);
         newQuadFace 1 5 6 (Some 2%nat);
         newQuadFace 5 4 7 (Some 6%nat);
         newQuadFace 4 0 3 (Some 7%nat);
         newQuadFace 0 4 5 (Some 1%nat);
         newQuadFace 2 6 7 (Some 3%nat) ]).

Definition makeCube (whd : R) : option Shape := makeBox whd whd whd.

(** *** averageSmooth *)

(** [connections[k].push(i)]; [connections[k]] is [undefined] out of range
    and the call throws. *)
Definition connect (i : nat) (conn : list (list nat)) (k : nat)
  : option (list (list nat)) :=
  cs ← conn !! k;
  Some (<[k := cs ++ [i]]> conn).

(** The body of the loop building the map vertex index -> face indices. *)
Definition connectFace (qs : list QuadFace) (conn : list (list nat))
  (i : nat) : option (list (list nat)) :=
  qf ← qs !! i;
  conn ← connect i conn (i0 qf);
  conn ← connect i conn (i1 qf);
  conn ← connect i conn (i2 qf);
  match i3 qf with
  | None => Some conn
  | Some j3 => connect i conn j3
  end.

(** The centroid that [averageSmooth] computes for a face: always the sum
    of four points divided by four.  For a triangle [quad.i3] is [null],
    [vertices[null]] is [undefined] and reading [p4.x] throws. *)
Definition smoothCentroid (vs : list Point3d) (quad : QuadFace)
  : option Point3d :=
  p1 ← vs !! i0 quad;
  p2 ← vs !! i1 quad;
  p3 ← vs !! i2 quad;
  p4 ← (j3 ← i3 quad; vs !! j3);
  Some {| x := (x p1 + x p2 + x p3 + x p4) / 4;
          y := (y p1 + y p2 + y p3 + y p4) / 4;
          z := (z p1 + z p2 + z p3 + z p4) / 4 |}.

(** One round of the loop over [cs]; [k] is [cs[j]]. *)
Definition smoothSumStep (vs : list Point3d) (qs : list QuadFace)
  (avg : Point3d) (k : nat) : option Point3d :=
  quad ← qs !! k;
  c ← smoothCentroid vs quad;
  Some (addPoints3d avg c).

(** The new position of vertex [i]. *)
Definition smoothVertex (vs : list Point3d) (qs : list QuadFace)
  (conn : list (list nat)) (amount : R) (i : nat) : option Point3d :=
  cs ← conn !! i;
  avg ← for_loop (smoothSumStep vs qs) cs (P3 0 0 0);
  let f := 1 / INR (length cs) in
  let avg := {| x := x avg * f; y := y avg * f; z := z avg * f |} in
  v ← vs !! i;
  Some (linearInterpolatePoints3d v avg amount).

(** [averageSmooth(shape, m)]; the argument is [None] when the function is
    called without it, and then [m] is 1. *)
Definition averageSmooth (shape : Shape) (m_arg : option R) : option Shape :=
  let amount := default 1 m_arg in
  let vs := vertices shape in
  let psl := length vs in
  conn ← for_loop (connectFace (quads shape))
            (seq 0 (length (quads shape))) (replicate psl []);
  new_ps ← mapM (smoothVertex vs (quads shape) conn amount) (seq 0 psl);
  rebuildMeta (mkShape new_ps (quads shape)).

(** *** linearSubdivide

    The arrays of indices to average hold numbers, and [null] where the face
    is a triangle.  [Array.prototype.sort] without a comparison function
    orders the elements by their string conversions, code unit by code unit;
    [Array.prototype.join] writes [null] as the empty string. *)
Definition js_to_string (v : option nat) : string :=
  match v with
  | None => "null"
  | Some n => pretty n
  end.

Definition js_join_item (v : option nat) : string :=
  match v with
  | None => ""
  | Some n => pretty n
  end.

Fixpoint js_sort_insert (v : option nat) (l : list (option nat))
  : list (option nat) :=
  match l with
  | [] => [v]
  | w :: l' =>
      if String.leb (js_to_string v) (js_to_string w)
      then v :: w :: l'
      else w :: js_sort_insert v l'
  end.

Definition js_sort (l : list (option nat)) : list (option nat) :=
  foldr js_sort_insert [] l.

Definition js_join (sep : string) (l : list (option nat)) : string :=
  String.concat sep (js_join_item <$> l).

(** The body of the inner loop for one array [ps] of indices: the index of
    the vertex that averages them, created unless the key was seen. *)
Definition sharePoint (vs : list Point3d) (share_points : gmap string nat)
  (ps : list (option nat))
  : option (list Point3d * gmap string nat * nat) :=
  let key := js_join "-" ps in
  match share_points !! key with
  | Some centroid_index => Some (vs, share_points, centroid_index)
  | None =>
      let centroid_index := length vs in
      pts ← mapM (λ xo : option nat, xi ← xo; vs !! xi) ps;
      Some (vs ++ [averagePoints pts],
            <[key := centroid_index]> share_points,
            centroid_index)
  end.

(** One face of [linearSubdivide]. *)
Definition subdivideStep (st : Shape * gmap string nat) (i : nat)
  : option (Shape * gmap string nat) :=
  let '(shape, share_points) := st in
  quad ← quads shape !! i;
  let j0 := Some (i0 quad) in
  let j1 := Some (i1 quad) in
  let j2 := Some (i2 quad) in
  let j3 := i3 quad in
  let vs := vertices shape in
  '(vs, share_points, ni0) ← sharePoint vs share_points (js_sort [j0; j1]);
  '(vs, share_points, ni1) ← sharePoint vs share_points (js_sort [j1; j2]);
  '(vs, share_points, ni2) ← sharePoint vs share_points (js_sort [j2; j3]);
  '(vs, share_points, ni3) ← sharePoint vs share_points (js_sort [j3; j0]);
  '(vs, share_points, ni4) ←
    sharePoint vs share_points (js_sort [j0; j1; j2; j3]);
  let q0 := newQuadFace (i0 quad) ni0 ni4 (Some ni3) in
  let q1 := newQuadFace ni0 (i1 quad) ni1 (Some ni4) in
  let q2 := newQuadFace ni4 ni1 (i2 quad) (Some ni2) in
  let q3 := newQuadFace ni3 ni4 ni2 (i3 quad) in
  Some (mkShape vs (<[i := q0]> (quads shape) ++ [q1; q2; q3]),
        share_points).

Definition linearSubdivide (shape : Shape) : option Shape :=
  let num_quads := length (quads shape) in
  '(shape, _) ← for_loop subdivideStep (seq 0 num_quads) (shape, ∅);
  rebuildMeta shape.

(** *** Extruder *)
Module Extruder.

Record t : Type := mk {
  distance_ : R;
  count_ : nat;
  selector_ : Shape → nat → bool;
  scale : Point3d;
  rotate : Point3d
}.

(** [new Extruder()]: distance 1, one step, everything selected. *)
Definition new : t :=
  mk 1 1 (λ _ _, true) (P3 1 1 1) (P3 0 0 0).

Definition selectAll (ex : t) : t :=
  mk (distance_ ex) (count_ ex) (λ _ _, true) (scale ex) (rotate ex).

Definition selectCustom (select_func : Shape → nat → bool) (ex : t) : t :=
  mk (distance_ ex) (count_ ex) select_func (scale ex) (rotate ex).

Definition distance (ex : t) : R := distance_ ex.
Definition set_distance (d : R) (ex : t) : t :=
  mk d (count_ ex) (selector_ ex) (scale ex) (rotate ex).

Definition count (ex : t) : nat := count_ ex.
Definition set_count (c : nat) (ex : t) : t :=
  mk (distance_ ex) c (selector_ ex) (scale ex) (rotate ex).

(** One step [z] of the inner loop for the face at [face_index].  The state
    is the vertex array and the face array; [qf] aliases
    [quads[face_index]], so it is read from and written back to that slot.
    [inner_normal3] is assigned exactly when the face is not a triangle:
    [None] stands for [is_triangle === true]. *)
Definition extrudeStep (ex : t) (face_index : nat)
  (original_cent surface_normal : Point3d)
  (inner_normal0 inner_normal1 inner_normal2 : Point3d)
  (inner_normal3 : option Point3d)
  (st : list Point3d * list QuadFace) (zi : nat)
  : option (list Point3d * list QuadFace) :=
  let '(vs, qs) := st in
  let mm := INR (zi + 1) / INR (count ex) in
  let tm := Transform.new in
  let tm := Transform.rotateX (x (rotate ex) * mm) tm in
  let tm := Transform.rotateY (y (rotate ex) * mm) tm in
  let tm := Transform.rotateZ (z (rotate ex) * mm) tm in
  let new_cent :=
    addPoints3d original_cent
      (mulPoint3d (Transform.transformPoint tm surface_normal)
         (mm * distance ex)) in
  let tm :=
    Transform.scalePre
      (linearInterpolate 1 (x (scale ex)) mm)
      (linearInterpolate 1 (y (scale ex)) mm)
      (linearInterpolate 1 (z (scale ex)) mm) tm in
  let index_before := length vs in
  qf ← qs !! face_index;
  let vs :=
    vs ++ [ addPoints3d new_cent (Transform.transformPoint tm inner_normal0);
            addPoints3d new_cent (Transform.transformPoint tm inner_normal1);
            addPoints3d new_cent (Transform.transformPoint tm inner_normal2) ]
  in
  match inner_normal3 with
  | None =>
      let qs :=
        qs ++ [ newQuadFace (i1 qf) (index_before + 1) index_before
                  (Some (i0 qf));
                newQuadFace (i2 qf) (index_before + 2) (index_before + 1)
                  (Some (i1 qf));
                newQuadFace (i0 qf) index_before (index_before + 2)
                  (Some (i2 qf)) ] in
      let qf' :=
        mkQuadFace index_before (index_before + 1) (index_before + 2)
          (i3 qf) (centroid qf) (normal1 qf) (normal2 qf) in
      Some (vs, <[face_index := qf']> qs)
  | Some in3 =>
      j3 ← i3 qf;
      let vs :=
        vs ++ [ addPoints3d new_cent (Transform.transformPoint tm in3) ] in
      let qs :=
        qs ++ [ newQuadFace (i1 qf) (index_before + 1) index_before
                  (Some (i0 qf));
                newQuadFace (i2 qf) (index_before + 2) (index_before + 1)
                  (Some (i1 qf));
                newQuadFace j3 (index_before + 3) (index_before + 2)
                  (Some (i2 qf));
                newQuadFace (i0 qf) index_before (index_before + 3)
                  (Some j3) ] in
      let qf' :=
        mkQuadFace index_before (index_before + 1) (index_before + 2)
          (Some (index_before + 3)%nat)
          (centroid qf) (normal1 qf) (normal2 qf) in
      Some (vs, <[face_index := qf']> qs)
  end.

(** The body of the loop over the selected faces.  A [null] centroid or
    normal, or a vertex out of range, throws in the vector arithmetic. *)
Definition extrudeFace (ex : t) (st : list Point3d * list QuadFace)
  (face_index : nat) : option (list Point3d * list QuadFace) :=
  let '(vs, qs) := st in
  qf ← qs !! face_index;
  original_cent ← centroid qf;
  n1 ← normal1 qf;
  n2 ← normal2 qf;
  let surface_normal := unitVector3d (addPoints3d n1 n2) in
  vert0 ← vs !! i0 qf;
  vert1 ← vs !! i1 qf;
  vert2 ← vs !! i2 qf;
  let inner_normal0 := subPoints3d vert0 original_cent in
  let inner_normal1 := subPoints3d vert1 original_cent in
  let inner_normal2 := subPoints3d vert2 original_cent in
  inner_normal3 ←
    match i3 qf with
    | None => Some None
    | Some j3 => vert3 ← vs !! j3; Some (Some (subPoints3d vert3 original_cent))
    end;
  for_loop
    (extrudeStep ex face_index original_cent surface_normal
       inner_normal0 inner_normal1 inner_normal2 inner_normal3)
    (seq 0 (count ex)) st.

Definition extrude (ex : t) (shape : Shape) : option Shape :=
  let faces :=
    List.filter (selector_ ex shape) (seq 0 (length (quads shape))) in
  '(vs, qs) ← for_loop (extrudeFace ex) faces (vertices shape, quads shape);
  rebuildMeta (mkShape vs qs).

End Extruder.

(** ** index.js: Renderer *)

(** A point of the 2D drawing surface. *)
Module Canvas.
Record Point2d : Type := mk { x : R; y : R }.
End Canvas.

(** The render state that a buffered entry captures, and that a
    [quad_callback] may change between faces. *)
Record RenderState : Type := mkRenderState {
  draw_overdraw : bool;
  texture : option TextureInfo;
  fill_rgba : option RGBA.t;
  stroke_rgba : option RGBA.t;
  normal1_rgba : option RGBA.t;
  normal2_rgba : option RGBA.t
}.

(** A face in camera space: the indices are replaced by the transformed
    points.  [world_vertices[i]] out of range is [undefined] ([None]); the
    fourth corner is [null] ([None]) for a triangle. *)
Record WorldQuadFace : Type := mkWorldQuadFace {
  w0 : option Point3d;
  w1 : option Point3d;
  w2 : option Point3d;
  w3 : option (option Point3d);
  w_centroid : Point3d;
  w_normal1 : Point3d;
  w_normal2 : Point3d
}.

(** An entry of [buffered_quads_]. *)
Record BufferedQuad : Type := mkBufferedQuad {
  qf : WorldQuadFace;
  intensity : R;
  captured : RenderState
}.

Module Renderer.

(** The renderer without its canvas context.  The object transform is held
    by value here; [transform_stack_] and the sharing between the current
    and the saved transforms are the subject of [TransformStack] below;
    [bufferShape] is in [Double.Renderer]. *)
Record t : Type := mk {
  perform_z_sorting : bool;
  draw_backfaces : bool;
  state : RenderState;
  camera : Camera.t;
  transform : Transform.t;
  quad_callback :
    option (QuadFace → nat → Shape → RenderState → RenderState * bool);
  width_ : R;
  height_ : R;
  scale_ : R;
  xoff_ : R;
  buffered_quads_ : list BufferedQuad
}.

(** [new Renderer(canvas_element)] for a canvas of the given size. *)
Definition new (width height : R) : t :=
  mk true false
     (mkRenderState true None (Some (RGBA.mk 1 0 0 1)) None None None)
     Camera.new Transform.new None
     width height (height / 2) (width / 2)
     [].

Definition set_state (s : RenderState) (rd : t) : t :=
  mk (perform_z_sorting rd) (draw_backfaces rd) s (camera rd) (transform rd)
     (quad_callback rd) (width_ rd) (height_ rd) (scale_ rd) (xoff_ rd)
     (buffered_quads_ rd).

Definition set_camera (c : Camera.t) (rd : t) : t :=
  mk (perform_z_sorting rd) (draw_backfaces rd) (state rd) c (transform rd)
     (quad_callback rd) (width_ rd) (height_ rd) (scale_ rd) (xoff_ rd)
     (buffered_quads_ rd).

Definition set_transform (tm : Transform.t) (rd : t) : t :=
  mk (perform_z_sorting rd) (draw_backfaces rd) (state rd) (camera rd) tm
     (quad_callback rd) (width_ rd) (height_ rd) (scale_ rd) (xoff_ rd)
     (buffered_quads_ rd).

Definition set_draw_backfaces (v : bool) (rd : t) : t :=
  mk (perform_z_sorting rd) v (state rd) (camera rd) (transform rd)
     (quad_callback rd) (width_ rd) (height_ rd) (scale_ rd) (xoff_ rd)
     (buffered_quads_ rd).

Definition set_buffered_quads (l : list BufferedQuad) (rd : t) : t :=
  mk (perform_z_sorting rd) (draw_backfaces rd) (state rd) (camera rd)
     (transform rd) (quad_callback rd) (width_ rd) (height_ rd) (scale_ rd)
     (xoff_ rd) l.

(** [buffered_quads_.push(obj)] *)
Definition push_buffered (obj : BufferedQuad) (rd : t) : t :=
  set_buffered_quads (buffered_quads_ rd ++ [obj]) rd.

Definition emptyBuffer (rd : t) : t := set_buffered_quads [] rd.

(** Pinhole projection of a camera-space point to the canvas. *)
Definition projectPointToCanvas (rd : t) (p : Point3d) : Canvas.Point2d :=
  let v := Camera.focal_length (camera rd) / - z p in
  let scale := scale_ rd in
  {| Canvas.x := x p * v * scale + xoff_ rd;
     Canvas.y := y p * v * - scale + scale |}.

Definition projectPointsToCanvas (rd : t) (ps : list Point3d)
  : list Canvas.Point2d :=
  map (projectPointToCanvas rd) ps.

End Renderer.

(** ** index.js: the transform stack, with an object store

    [pushTransform] saves [this.transform.dup()]; the Transform methods then
    mutate the object that [this.transform] refers to; [popTransform] makes
    [this.transform] refer to the saved object.  Whether the saved matrix
    survives depends on which objects are shared, so Transform objects and
    matrix objects live at addresses here.  A Transform object is its one
    field [m], the address of a matrix object. *)
Module TransformStack.

Record Store : Type := mkStore {
  transforms : gmap nat nat;
  matrices : gmap nat AffineMatrix
}.

(** The part of a Renderer concerned: [transform] ([None] once it became
    [undefined]) and [transform_stack_], the top being the last element. *)
Record t : Type := mk {
  store : Store;
  transform : option nat;
  transform_stack_ : list nat
}.

(** [new AffineMatrix(...)]: a new object at an unused address. *)
Definition alloc_matrix (a : AffineMatrix) (s : Store) : nat * Store :=
  let l := fresh (dom (matrices s)) in
  (l, mkStore (transforms s) (<[l := a]> (matrices s))).

(** A new Transform object whose field [m] is [mref]. *)
Definition alloc_transform (mref : nat) (s : Store) : nat * Store :=
  let l := fresh (dom (transforms s)) in
  (l, mkStore (<[l := mref]> (transforms s)) (matrices s)).

(** The assignment [tr.m = mref]. *)
Definition set_m (tr mref : nat) (s : Store) : Store :=
  mkStore (<[tr := mref]> (transforms s)) (matrices s).

(** The matrix [tr.m], read through both references. *)
Definition read_m (tr : nat) (s : Store) : option AffineMatrix :=
  mref ← transforms s !! tr;
  matrices s !! mref.

(** [this.m = f(this.m)], where [f] builds a new matrix object. *)
Definition assign_m (f : AffineMatrix → AffineMatrix) (tr : nat) (s : Store)
  : option Store :=
  a ← read_m tr s;
  let '(l, s) := alloc_matrix (f a) s in
  Some (set_m tr l s).

(** The methods of [Transform] that change the receiver. *)
Inductive Op : Type :=
  | Reset
  | RotateX (theta : R)
  | RotateXPre (theta : R)
  | RotateY (theta : R)
  | RotateYPre (theta : R)
  | RotateZ (theta : R)
  | RotateZPre (theta : R)
  | Translate (dx dy dz : R)
  | TranslatePre (dx dy dz : R)
  | Scale (sx sy sz : R)
  | ScalePre (sx sy sz : R)
  | MultTransform (other : nat)
  | SetDCM (u v w : Point3d).

(** The matrix-level effect of the methods that assign [this.m]. *)
Definition lift (f : Transform.t → Transform.t) (a : AffineMatrix)
  : AffineMatrix :=
  Transform.m (f (Transform.mk a)).

(** The method [o] called on the Transform object at [tr]. *)
Definition exec (o : Op) (tr : nat) (s : Store) : option Store :=
  match o with
  | Reset =>
      _ ← transforms s !! tr;
      let '(l, s) := alloc_matrix makeIdentityAffine s in
      Some (set_m tr l s)
  | RotateX theta => assign_m (lift (Transform.rotateX theta)) tr s
  | RotateXPre theta => assign_m (lift (Transform.rotateXPre theta)) tr s
  | RotateY theta => assign_m (lift (Transform.rotateY theta)) tr s
  | RotateYPre theta => assign_m (lift (Transform.rotateYPre theta)) tr s
  | RotateZ theta => assign_m (lift (Transform.rotateZ theta)) tr s
  | RotateZPre theta => assign_m (lift (Transform.rotateZPre theta)) tr s
  | Translate dx dy dz => assign_m (lift (Transform.translate dx dy dz)) tr s
  | TranslatePre dx dy dz =>
      assign_m (lift (Transform.translatePre dx dy dz)) tr s
  | Scale sx sy sz => assign_m (lift (Transform.scale sx sy sz)) tr s
  | ScalePre sx sy sz => assign_m (lift (Transform.scalePre sx sy sz)) tr s
  | MultTransform other =>
      b ← read_m other s;
      assign_m (lift (Transform.multTransform (Transform.mk b))) tr s
  | SetDCM u v w =>
      mref ← transforms s !! tr;
      a ← matrices s !! mref;
      Some (mkStore (transforms s)
              (<[mref := Transform.setDCMAffine u v w a]> (matrices s)))
  end.

(** [Transform.prototype.dup]: [new Transform()] (whose constructor resets
    it to a new identity matrix), then [tm.m = dupAffine(this.m)]. *)
Definition dup (tr : nat) (s : Store) : option (nat * Store) :=
  let '(l0, s) := alloc_matrix makeIdentityAffine s in
  let '(tm, s) := alloc_transform l0 s in
  a ← read_m tr s;
  let '(l1, s) := alloc_matrix (dupAffine a) s in
  Some (tm, set_m tm l1 s).

Definition pushTransform (rd : t) : option t :=
  tr ← transform rd;
  '(tm, s) ← dup tr (store rd);
  Some (mk s (transform rd) (transform_stack_ rd ++ [tm])).

(** With an empty stack the transform becomes [undefined]. *)
Definition popTransform (rd : t) : t :=
  mk (store rd) (last (transform_stack_ rd)) (removelast (transform_stack_ rd)).

(** [this.transform.o(...)] *)
Definition call (rd : t) (o : Op) : option t :=
  tr ← transform rd;
  s ← exec o tr (store rd);
  Some (mk s (transform rd) (transform_stack_ rd)).

(** A sequence of such calls. *)
Fixpoint run (ops : list Op) (rd : t) : option t :=
  match ops with
  | [] => Some rd
  | o :: ops' =>
      match call rd o with
      | Some rd' => run ops' rd'
      | None => None
      end
  end.

(** The matrix of the renderer's current transform. *)
Definition current_matrix (rd : t) : option AffineMatrix :=
  tr ← transform rd;
  read_m tr (store rd).

(** [o] refers to a Transform object with a matrix. *)
Definition live (s : Store) (o : nat) : Prop :=
  ∃ mref, transforms s !! o = Some mref ∧ is_Some (matrices s !! mref).

(** The Transform passed to [multTransform] is an object of the store. *)
Definition op_ok (s : Store) (o : Op) : Prop :=
  match o with
  | MultTransform other => live s other
  | _ => True
  end.

(** What the operations between push and pop keep true: the saved Transform
    [tm] still owns the matrix object [l1] holding [a]; the current
    Transform [tr] is another object, and its matrix is another object. *)
Definition saved_intact (tm l1 : nat) (a : AffineMatrix) (tr : nat)
  (s : Store) : Prop :=
  transforms s !! tm = Some l1 ∧
  matrices s !! l1 = Some a ∧
  tm ≠ tr ∧
  ∃ mref, transforms s !! tr = Some mref ∧ mref ≠ l1 ∧
          is_Some (matrices s !! mref).

End TransformStack.

(** ** index.js: 2D vector math, on points of the canvas *)

Definition dotProduct2d (a b : Canvas.Point2d) : R :=
  Canvas.x a * Canvas.x b + Canvas.y a * Canvas.y b.

(** [a - b] *)
Definition subPoints2d (a b : Canvas.Point2d) : Canvas.Point2d :=
  {| Canvas.x := Canvas.x a - Canvas.x b;
     Canvas.y := Canvas.y a - Canvas.y b |}.

(** [a + b] *)
Definition addPoints2d (a b : Canvas.Point2d) : Canvas.Point2d :=
  {| Canvas.x := Canvas.x a + Canvas.x b;
     Canvas.y := Canvas.y a + Canvas.y b |}.

(** [a * s] *)
Definition mulPoint2d (a : Canvas.Point2d) (s : R) : Canvas.Point2d :=
  {| Canvas.x := Canvas.x a * s; Canvas.y := Canvas.y a * s |}.

(** [|a|] *)
Definition vecMag2d (a : Canvas.Point2d) : R :=
  sqrt (Canvas.x a * Canvas.x a + Canvas.y a * Canvas.y a).

(** [a / |a|] *)
Definition unitVector2d (a : Canvas.Point2d) : Canvas.Point2d :=
  mulPoint2d a (1 / vecMag2d a).

(** [pushPoints2dIP(a, b)] writes [b + vec] into [b] and [a - vec] into
    [a]; the pair returned is the new [a] and the new [b]. *)
Definition pushPoints2dIP (a b : Canvas.Point2d)
  : Canvas.Point2d * Canvas.Point2d :=
  let vec := unitVector2d (subPoints2d b a) in
  let b' := addPoints2d b vec in
  let a' := subPoints2d a vec in
  (a', b').

(** ** index.js: drawing on the canvas

    The calls made on the 2D context, in order.  The image passed to
    [drawImage] is a handle and is left out. *)
Inductive CanvasCmd : Type :=
  | Save
  | Restore
  | BeginPath
  | MoveTo (px py : R)
  | LineTo (px py : R)
  | ClosePath
  | Clip
  | TransformBy (m11 m12 m21 m22 dx dy : R)
  | DrawImage (px py : R)
  | QuadraticCurveTo (cpx cpy px py : R)
  | BezierCurveTo (cp0x cp0y cp1x cp1y px py : R)
  | Fill
  | Stroke.

(** Textured triangle: clip to the destination triangle, then set the
    transform computed from the source and destination corners and draw the
    whole image. *)
Definition drawCanvasTexturedTriangle
  (x0 y0 x1 y1 x2 y2 sx0 sy0 sx1 sy1 sx2 sy2 : R) : list CanvasCmd :=
  let denom :=
    sx0 * (sy2 - sy1) -
    sx1 * sy2 +
    sx2 * sy1 +
    (sx1 - sx2) * sy0 in
  let m11 := - (
    sy0 * (x2 - x1) -
    sy1 * x2 +
    sy2 * x1 +
    (sy1 - sy2) * x0) / denom in
  let m12 := (
    sy1 * y2 +
    sy0 * (y1 - y2) -
    sy2 * y1 +
    (sy2 - sy1) * y0) / denom in
  let m21 := (
    sx0 * (x2 - x1) -
    sx1 * x2 +
    sx2 * x1 +
    (sx1 - sx2) * x0) / denom in
  let m22 := - (
    sx1 * y2 +
    sx0 * (y1 - y2) -
    sx2 * y1 +
    (sx2 - sx1) * y0) / denom in
  let dx := (
    sx0 * (sy2 * x1 - sy1 * x2) +
    sy0 * (sx1 * x2 - sx2 * x1) +
    (sx2 * sy1 - sx1 * sy2) * x0) / denom in
  let dy := (
    sx0 * (sy2 * y1 - sy1 * y2) +
    sy0 * (sx1 * y2 - sx2 * y1) +
    (sx2 * sy1 - sx1 * sy2) * y0) / denom in
  [ Save;
    BeginPath;
    MoveTo x0 y0;
    LineTo x1 y1;
    LineTo x2 y2;
    ClosePath;
    Clip;
    TransformBy m11 m12 m21 m22 dx dy;
    DrawImage 0 0;
    Restore ].

(** The call made for one curve of a path: [screen_points[i]] out of range
    is [undefined], and reading its [x] throws. *)
Definition drawCurve (screen_points : list Canvas.Point2d) (curve : Curve)
  : option CanvasCmd :=
  match c1 curve with
  | None =>
      p0 ← screen_points !! c0 curve;
      pe ← screen_points !! ep curve;
      Some (QuadraticCurveTo (Canvas.x p0) (Canvas.y p0)
              (Canvas.x pe) (Canvas.y pe))
  | Some k1 =>
      p0 ← screen_points !! c0 curve;
      p1 ← screen_points !! k1;
      pe ← screen_points !! ep curve;
      Some (BezierCurveTo (Canvas.x p0) (Canvas.y p0)
              (Canvas.x p1) (Canvas.y p1) (Canvas.x pe) (Canvas.y pe))
  end.

(** [drawPath(path, opts)]; [fill] is [opts.fill === true]. *)
Definition drawPath (rd : Renderer.t) (path : Path) (fill : bool)
  : option (list CanvasCmd) :=
  let tv :=
    multiplyAffine (Transform.m (Camera.transform (Renderer.camera rd)))
      (Transform.m (Renderer.transform rd)) in
  let screen_points :=
    Renderer.projectPointsToCanvas rd (transformPoints tv (points path)) in
  start_point ←
    match starting_point path with
    | None =>
        Some (Renderer.projectPointToCanvas rd
                (transformPoint tv (P3 0 0 0)))
    | Some i => screen_points !! i
    end;
  cmds ← mapM (drawCurve screen_points) (curves path);
  Some ([BeginPath; MoveTo (Canvas.x start_point) (Canvas.y start_point)]
        ++ cmds ++ [if fill then Fill else Stroke]).

(** ** pre3d_path_utils.js: more of PathUtils *)

(** A line, as one cubic curve from [p0] to [p1]. *)
Definition makeLine (p0 p1 : Point3d) : Path :=
  {| points := [ P3 (x p0) (y p0) (z p0);
                 P3 (x p1) (y p1) (z p1) ];
     curves := [ mkCurve 1 1 (Some 1%nat) ];
     starting_point := Some 0%nat |}.

(** One ring of [makeSpiral]; the state is [points], [curves], [z], [p]. *)
Definition spiralStep (st : list Point3d * list Curve * R * nat) (i : nat)
  : list Point3d * list Curve * R * nat :=
  let '(pts, cvs, zz, p) := st in
  let pts := pts ++ [P3 0 kKappa zz] in
  let zz := zz - 0.05 in
  let pts := pts ++ [P3 1 kKappa zz] in
  let pts := pts ++ [P3 1 0 zz] in
  let pts := pts ++ [P3 1 (- kKappa) zz] in
  let zz := zz - 0.05 in
  let pts := pts ++ [P3 0 (- kKappa) zz] in
  let pts := pts ++ [P3 0 0 zz] in
  let cvs := cvs ++ [mkCurve (p + 2) (p + 0) (Some (p + 1)%nat)] in
  let cvs := cvs ++ [mkCurve (p + 5) (p + 3) (Some (p + 4)%nat)] in
  (pts, cvs, zz, (p + 6)%nat).

Definition makeSpiral (count : nat) : Path :=
  let '(pts, cvs, _, _) :=
    foldl spiralStep ([], [], 0, 0%nat) (seq 0 count) in
  {| points := pts; curves := cvs; starting_point := None |}.

(** The control point of a quadratic curve from [p0] to [p2] through [p1]. *)
Definition fitQuadraticToPoints (p0 p1 p2 : Point3d) : Point3d :=
  {| x := x p1 + x p1 - 0.5 * (x p0 + x p2);
     y := y p1 + y p1 - 0.5 * (y p0 + y p2);
     z := z p1 + z p1 - 0.5 * (z p0 + z p2) |}.

(** ** pre3d_path_utils.js: more of ShapeUtils *)

Definition k2PI : R := PI * 2.

(** The vertices of the middle grid of [makeSphericalShape]: the loop over
    [i] carries [theta], the loop over [j] pushes one vertex. *)
Definition sphereRow (f : R → R → Point3d) (tess_x : nat) (phi_step theta : R)
  (vs : list Point3d) : list Point3d :=
  foldl (λ vs (j : nat), vs ++ [f theta (phi_step * INR j)]) vs (seq 0 tess_x).

Definition sphereGridVertices (f : R → R → Point3d) (tess_x tess_y : nat)
  (theta_step phi_step : R) : list Point3d :=
  (foldl (λ (st : list Point3d * R) (i : nat),
            (sphereRow f tess_x phi_step st.2 st.1, st.2 + theta_step))
     ([], theta_step) (seq 0 tess_y)).1.

(** The quads of the middle grid. *)
Definition sphereGridQuads (tess_x tess_y : nat) : list QuadFace :=
  foldl (λ qs (i : nat),
           let stride := (i * tess_x)%nat in
           foldl (λ qs (j : nat),
                    let n := ((j + 1) mod tess_x)%nat in
                    qs ++ [newQuadFace (stride + j) (stride + tess_x + j)
                             (stride + tess_x + n) (Some (stride + n)%nat)])
             qs (seq 0 tess_x))
    [] (seq 0 (tess_y - 1)).

(** The triangles around the two poles. *)
Definition spherePoleTriangles (tess_x top_p_i bot_p_i last_row : nat)
  (qs : list QuadFace) : list QuadFace :=
  foldl (λ qs (i : nat),
           let qs :=
             qs ++ [newQuadFace top_p_i i ((i + 1) mod tess_x) None] in
           qs ++ [newQuadFace bot_p_i
                    (last_row + ((i + 2) mod tess_x))
                    (last_row + ((i + 1) mod tess_x)) None])
    qs (seq 0 tess_x).

(** [makeSphericalShape(f, tess_x, tess_y)].  When the grid has fewer than
    [tess_x] vertices (that is, [tess_y] is 0 and [tess_x] is not),
    [last_row] is negative, the bottom triangles get negative indices, and
    [rebuildMeta] throws on the first of them: [vertices[-1]] is
    [undefined]. *)
Definition makeSphericalShape (f : R → R → Point3d) (tess_x tess_y : nat)
  : option Shape :=
  let theta_step := PI / INR (tess_y + 1) in
  let phi_step := k2PI / INR tess_x in
  let vs := sphereGridVertices f tess_x tess_y theta_step phi_step in
  let qs := sphereGridQuads tess_x tess_y in
  if decide (length vs < tess_x)%nat then None else
  let last_row := (length vs - tess_x)%nat in
  let top_p_i := length vs in
  let bot_p_i := (top_p_i + 1)%nat in
  let vs := vs ++ [f 0 0] in
  let vs := vs ++ [f PI 0] in
  let qs := spherePoleTriangles tess_x top_p_i bot_p_i last_row qs in
  rebuildMeta (mkShape vs qs).

Definition makeSphere (r : R) (tess_x tess_y : nat) : option Shape :=
  makeSphericalShape
    (λ theta phi,
       {| x := r * sin theta * sin phi;
          y := r * cos theta;
          z := r * sin theta * cos phi |})
    tess_x tess_y.

(** [makeOctahedron]: [quads[i*2]] and [quads[i*2+1]] are filled for
    [i = 0 .. 3], so the eight slots are filled in order. *)
Definition makeOctahedron : option Shape :=
  let qs :=
    foldl (λ qs (i : nat),
             let i2 := Nat.land (i + 1) 3 in
             qs ++ [newQuadFace 4 i i2 None; newQuadFace i 5 i2 None])
      [] (seq 0 4) in
  rebuildMeta
    (mkShape
       [ P3 (-1) 0 0;
         P3 0 0 1;
         P3 1 0 0;
         P3 0 0 (-1);
         P3 0 1 0;
         P3 0 (-1) 0 ]
       qs).

(** One face of [linearSubdivideTri]; the fourth index of the face is not
    read. *)
Definition subdivideTriStep (st : Shape * gmap string nat) (i : nat)
  : option (Shape * gmap string nat) :=
  let '(shape, share_points) := st in
  tri ← quads shape !! i;
  let j0 := Some (i0 tri) in
  let j1 := Some (i1 tri) in
  let j2 := Some (i2 tri) in
  let vs := vertices shape in
  '(vs, share_points, ni0) ← sharePoint vs share_points (js_sort [j0; j1]);
  '(vs, share_points, ni1) ← sharePoint vs share_points (js_sort [j1; j2]);
  '(vs, share_points, ni2) ← sharePoint vs share_points (js_sort [j2; j0]);
  let q0 := newQuadFace (i0 tri) ni0 ni2 None in
  let q1 := newQuadFace ni0 (i1 tri) ni1 None in
  let q2 := newQuadFace ni2 ni1 (i2 tri) None in
  let q3 := newQuadFace ni0 ni1 ni2 None in
  Some (mkShape vs (<[i := q0]> (quads shape) ++ [q1; q2; q3]),
        share_points).

Definition linearSubdivideTri (shape : Shape) : option Shape :=
  let num_tris := length (quads shape) in
  '(shape, _) ← for_loop subdivideTriStep (seq 0 num_tris) (shape, ∅);
  rebuildMeta shape.

(** One face of [explodeFaces]: its corners are copied to the end of
    [new_verts] and its indices moved onto the copies; the metadata of the
    face is kept.  [verts[i]] out of range is [undefined], whose [x] cannot
    be read. *)
Definition explodeStep (verts : list Point3d)
  (st : list Point3d * list QuadFace) (i : nat)
  : option (list Point3d * list QuadFace) :=
  let '(new_verts, qs) := st in
  q ← qs !! i;
  let pos := length new_verts in
  pa ← verts !! i0 q;
  pb ← verts !! i1 q;
  pc ← verts !! i2 q;
  let new_verts :=
    new_verts ++ [ P3 (x pa) (y pa) (z pa);
                   P3 (x pb) (y pb) (z pb);
                   P3 (x pc) (y pc) (z pc) ] in
  match i3 q with
  | None =>
      Some (new_verts,
            <[i := mkQuadFace pos (pos + 1) (pos + 2) None
                     (centroid q) (normal1 q) (normal2 q)]> qs)
  | Some j3 =>
      pd ← verts !! j3;
      Some (new_verts ++ [P3 (x pd) (y pd) (z pd)],
            <[i := mkQuadFace pos (pos + 1) (pos + 2) (Some (pos + 3)%nat)
                     (centroid q) (normal1 q) (normal2 q)]> qs)
  end.

(** [explodeFaces] replaces the vertex array; it does not rebuild the
    metadata. *)
Definition explodeFaces (shape : Shape) : option Shape :=
  let num_quads := length (quads shape) in
  '(new_verts, qs) ←
    for_loop (explodeStep (vertices shape)) (seq 0 num_quads)
      ([], quads shape);
  Some (mkShape new_verts qs).

(** ** index.js over IEEE doubles: what [bufferShape] computes

    [bufferShape] decides by the comparison of computed numbers whether a
    face is drawn, and the outcome of such a comparison can depend on the
    rounding of the last bit.  The functions that [bufferShape] calls are
    therefore given a second time, over the binary64 numbers [float] with
    rounding to nearest, ties to even, which is the arithmetic of a
    JavaScript number: the same expressions as in the source, in the same
    order.  [Math.sqrt] is the correctly rounded square root.  A comparison
    with [NaN] is false, here as in JavaScript. *)
Module Double.
Import PrimFloat.
Local Open Scope float_scope.

Record Point3d : Type := P3 { x : float; y : float; z : float }.

Definition crossProduct (a b : Point3d) : Point3d :=
  {| x := y a * z b - z a * y b;
     y := z a * x b - x a * z b;
     z := x a * y b - y a * x b |}.

Definition dotProduct3d (a b : Point3d) : float :=
  x a * x b + y a * y b + z a * z b.

(** [a - b] *)
Definition subPoints3d (a b : Point3d) : Point3d :=
  {| x := x a - x b; y := y a - y b; z := z a - z b |}.

(** [a * s] *)
Definition mulPoint3d (a : Point3d) (s : float) : Point3d :=
  {| x := x a * s; y := y a * s; z := z a * s |}.

(** [|a|] *)
Definition vecMag3d (a : Point3d) : float :=
  sqrt (x a * x a + y a * y a + z a * z a).

(** [a / |a|] *)
Definition unitVector3d (a : Point3d) : Point3d :=
  mulPoint3d a (1 / vecMag3d a).

Record AffineMatrix : Type := mkAffine {
  e0 : float; e1 : float; e2 : float; e3 : float;
  e4 : float; e5 : float; e6 : float; e7 : float;
  e8 : float; e9 : float; e10 : float; e11 : float
}.

Definition multiplyAffine (a b : AffineMatrix) : AffineMatrix :=
  mkAffine
    (e0 a * e0 b + e1 a * e4 b + e2 a * e8 b)
    (e0 a * e1 b + e1 a * e5 b + e2 a * e9 b)
    (e0 a * e2 b + e1 a * e6 b + e2 a * e10 b)
    (e0 a * e3 b + e1 a * e7 b + e2 a * e11 b + e3 a)
    (e4 a * e0 b + e5 a * e4 b + e6 a * e8 b)
    (e4 a * e1 b + e5 a * e5 b + e6 a * e9 b)
    (e4 a * e2 b + e5 a * e6 b + e6 a * e10 b)
    (e4 a * e3 b + e5 a * e7 b + e6 a * e11 b + e7 a)
    (e8 a * e0 b + e9 a * e4 b + e10 a * e8 b)
    (e8 a * e1 b + e9 a * e5 b + e10 a * e9 b)
    (e8 a * e2 b + e9 a * e6 b + e10 a * e10 b)
    (e8 a * e3 b + e9 a * e7 b + e10 a * e11 b + e11 a).

Definition makeIdentityAffine : AffineMatrix :=
  mkAffine
    1 0 0 0
    0 1 0 0
    0 0 1 0.

Definition makeTranslateAffine (dx dy dz : float) : AffineMatrix :=
  mkAffine
    1 0 0 dx
    0 1 0 dy
    0 0 1 dz.

Definition transAdjoint (a : AffineMatrix) : AffineMatrix :=
  mkAffine
    (e10 a * e5 a - e6 a * e9 a)
    (e6 a * e8 a - e4 a * e10 a)
    (e4 a * e9 a - e8 a * e5 a)
    0
    (e2 a * e9 a - e10 a * e1 a)
    (e10 a * e0 a - e2 a * e8 a)
    (e8 a * e1 a - e0 a * e9 a)
    0
    (e6 a * e1 a - e2 a * e5 a)
    (e4 a * e2 a - e6 a * e0 a)
    (e0 a * e5 a - e4 a * e1 a)
    0.

Definition transformPoint (t : AffineMatrix) (p : Point3d) : Point3d :=
  {| x := e0 t * x p + e1 t * y p + e2 t * z p + e3 t;
     y := e4 t * x p + e5 t * y p + e6 t * z p + e7 t;
     z := e8 t * x p + e9 t * y p + e10 t * z p + e11 t |}.

Definition transformPoints (t : AffineMatrix) (ps : list Point3d)
  : list Point3d :=
  map (transformPoint t) ps.

(** The length of an array as a number; exact below [2^53]. *)
Fixpoint of_length (n : nat) : float :=
  match n with
  | O => 0
  | S n' => of_length n' + 1
  end.

(** [averagePoints]: the running sum starts at the origin, and the sum is
    multiplied by [1 / ps.length]. *)
Definition averagePoints (ps : list Point3d) : Point3d :=
  let avg :=
    foldl (λ avg p, {| x := x avg + x p; y := y avg + y p; z := z avg + z p |})
      (P3 0 0 0) ps in
  let f := 1 / of_length (length ps) in
  {| x := x avg * f; y := y avg * f; z := z avg * f |}.

Module Transform.
Record t : Type := mk { m : AffineMatrix }.

Definition reset (_ : t) : t := mk makeIdentityAffine.

(** [new Transform()] *)
Definition new : t := reset (mk makeIdentityAffine).

Definition translate (dx dy dz : float) (tm : t) : t :=
  mk (multiplyAffine (makeTranslateAffine dx dy dz) (m tm)).
End Transform.

Module Camera.
Record t : Type := mk { transform : Transform.t; focal_length : float }.

(** [new Camera()] *)
Definition new : t := mk Transform.new 1.
End Camera.

Module RGBA.
Record t : Type := mk { r : float; g : float; b : float; a : float }.
End RGBA.

Record TextureInfo : Type := mkTextureInfo {
  u0 : float; v0 : float; u1 : float; v1 : float;
  u2 : float; v2 : float; u3 : float; v3 : float
}.

Record QuadFace : Type := mkQuadFace {
  i0 : nat; i1 : nat; i2 : nat; i3 : option nat;
  centroid : option Point3d;
  normal1 : option Point3d;
  normal2 : option Point3d
}.

(** [new QuadFace(i0, i1, i2, i3)] *)
Definition newQuadFace (j0 j1 j2 : nat) (j3 : option nat) : QuadFace :=
  mkQuadFace j0 j1 j2 j3 None None None.

Record Shape : Type := mkShape {
  vertices : list Point3d;
  quads : list QuadFace
}.

(** The body of the loop of [rebuildMeta] for one face. *)
Definition rebuildMetaFace (vs : list Point3d) (qf : QuadFace)
  : option QuadFace :=
  vert0 ← vs !! i0 qf;
  vert1 ← vs !! i1 qf;
  vert2 ← vs !! i2 qf;
  let vec01 := subPoints3d vert1 vert0 in
  let vec02 := subPoints3d vert2 vert0 in
  let n1 := crossProduct vec01 vec02 in
  match i3 qf with
  | None =>
      let n2 := n1 in
      let cen := averagePoints [vert0; vert1; vert2] in
      Some (mkQuadFace (i0 qf) (i1 qf) (i2 qf) (i3 qf)
              (Some cen) (Some n1) (Some n2))
  | Some j3 =>
      vert3 ← vs !! j3;
      let vec03 := subPoints3d vert3 vert0 in
      let n2 := crossProduct vec02 vec03 in
      let cen := averagePoints [vert0; vert1; vert2; vert3] in
      Some (mkQuadFace (i0 qf) (i1 qf) (i2 qf) (i3 qf)
              (Some cen) (Some n1) (Some n2))
  end.

Definition rebuildMeta (shape : Shape) : option Shape :=
  qs ← mapM (rebuildMetaFace (vertices shape)) (quads shape);
  Some (mkShape (vertices shape) qs).

(** The render state that a buffered entry captures, and that a
    [quad_callback] may change between faces. *)
Record RenderState : Type := mkRenderState {
  draw_overdraw : bool;
  texture : option TextureInfo;
  fill_rgba : option RGBA.t;
  stroke_rgba : option RGBA.t;
  normal1_rgba : option RGBA.t;
  normal2_rgba : option RGBA.t
}.

(** A face in camera space: the indices are replaced by the transformed
    points.  [world_vertices[i]] out of range is [undefined] ([None]); the
    fourth corner is [null] ([None]) for a triangle. *)
Record WorldQuadFace : Type := mkWorldQuadFace {
  w0 : option Point3d;
  w1 : option Point3d;
  w2 : option Point3d;
  w3 : option (option Point3d);
  w_centroid : Point3d;
  w_normal1 : Point3d;
  w_normal2 : Point3d
}.

(** An entry of [buffered_quads_]. *)
Record BufferedQuad : Type := mkBufferedQuad {
  qf : WorldQuadFace;
  intensity : float;
  captured : RenderState
}.

(** A unit vector down the z-axis. *)
Definition g_z_axis_vector : Point3d := P3 0 0 1.

Module Renderer.

(** The renderer without its canvas context and its transform stack. *)
Record t : Type := mk {
  perform_z_sorting : bool;
  draw_backfaces : bool;
  state : RenderState;
  camera : Camera.t;
  transform : Transform.t;
  quad_callback :
    option (QuadFace → nat → Shape → RenderState → RenderState * bool);
  width_ : float;
  height_ : float;
  scale_ : float;
  xoff_ : float;
  buffered_quads_ : list BufferedQuad
}.

(** [new Renderer(canvas_element)] for a canvas of the given size. *)
Definition new (width height : float) : t :=
  mk true false
     (mkRenderState true None (Some (RGBA.mk 1 0 0 1)) None None None)
     Camera.new Transform.new None
     width height (height / 2) (width / 2)
     [].

Definition set_state (s : RenderState) (rd : t) : t :=
  mk (perform_z_sorting rd) (draw_backfaces rd) s (camera rd) (transform rd)
     (quad_callback rd) (width_ rd) (height_ rd) (scale_ rd) (xoff_ rd)
     (buffered_quads_ rd).

Definition set_buffered_quads (l : list BufferedQuad) (rd : t) : t :=
  mk (perform_z_sorting rd) (draw_backfaces rd) (state rd) (camera rd)
     (transform rd) (quad_callback rd) (width_ rd) (height_ rd) (scale_ rd)
     (xoff_ rd) l.

(** [buffered_quads_.push(obj)] *)
Definition push_buffered (obj : BufferedQuad) (rd : t) : t :=
  set_buffered_quads (buffered_quads_ rd ++ [obj]) rd.

(** The body of the loop of [bufferShape] for the face [j].
    [draw_backfaces], the matrices and the transformed vertices are computed
    before the loop.  [centroid.z >= -1] is [-1 <= centroid.z], and
    [d > 0] is [0 < d]. *)
Definition bufferShapeStep (draw_backfaces : bool)
  (quad_callback :
     option (QuadFace → nat → Shape → RenderState → RenderState * bool))
  (tv tn : AffineMatrix) (world_vertices : list Point3d) (shape : Shape)
  (rd : t) (j : nat) : option t :=
  qf ← quads shape !! j;
  let '(rd, skip) :=
    match quad_callback with
    | None => (rd, false)
    | Some cb => let '(s, skip) := cb qf j shape (state rd) in
                 (set_state s rd, skip)
    end in
  if skip then Some rd else
  cen ← centroid qf;
  let centroid := transformPoint tv cen in
  if -1 <=? z centroid then Some rd else
  nrm1 ← normal1 qf;
  let n1 := unitVector3d (transformPoint tn nrm1) in
  nrm2 ← normal2 qf;
  let n2 := transformPoint tn nrm2 in
  if negb draw_backfaces
     && (0 <? dotProduct3d centroid n1)
     && (0 <? dotProduct3d centroid n2)
  then Some rd else
  let intensity := dotProduct3d g_z_axis_vector n1 in
  let intensity := if intensity <? 0 then 0 else intensity in
  let world_qf :=
    mkWorldQuadFace
      (world_vertices !! i0 qf)
      (world_vertices !! i1 qf)
      (world_vertices !! i2 qf)
      (match i3 qf with
       | None => None
       | Some j3 => Some (world_vertices !! j3)
       end)
      centroid n1 n2 in
  let obj := mkBufferedQuad world_qf intensity (state rd) in
  Some (push_buffered obj rd).

Definition bufferShape (rd : t) (shape : Shape) : option t :=
  let draw_backfaces := draw_backfaces rd in
  let quad_callback := quad_callback rd in
  let tv :=
    multiplyAffine (Transform.m (Camera.transform (camera rd)))
      (Transform.m (transform rd)) in
  let tn := transAdjoint tv in
  let world_vertices := transformPoints tv (vertices shape) in
  for_loop
    (bufferShapeStep draw_backfaces quad_callback tv tn world_vertices shape)
    (seq 0 (length (quads shape))) rd.

End Renderer.

(** *** Vocabulary for [bufferShape] *)

(** The cached centroid and normals of the face are set. *)
Definition face_has_meta (qf : QuadFace) : Prop :=
  is_Some (centroid qf) ∧ is_Some (normal1 qf) ∧ is_Some (normal2 qf).

(** The condition under which [bufferShape] draws a face, on the numbers as
    the code computes them: the test [z >= -1] on the centroid moved to
    camera space by [tv] fails (for a [z] that is a number: [z < -1]), and,
    unless back faces are drawn, the dot products of that centroid with the
    first normal, moved by the adjoint transpose of [tv] and then
    normalised by [unitVector3d], and with the second normal, moved by the
    adjoint transpose of [tv], are not both greater than 0. *)
Definition face_drawn (draw_backfaces : bool) (tv : AffineMatrix)
  (cen nrm1 nrm2 : Point3d) : Prop :=
  (-1 <=? z (transformPoint tv cen)) = false ∧
  (draw_backfaces = true ∨
   ¬ ((0 <? dotProduct3d (transformPoint tv cen)
              (unitVector3d (transformPoint (transAdjoint tv) nrm1))) = true ∧
      (0 <? dotProduct3d (transformPoint tv cen)
              (transformPoint (transAdjoint tv) nrm2)) = true)).

(** The condition in the words of the claim: [z < -1], and the dot
    products with the two normals moved by the adjoint transpose of [tv],
    neither of them normalised, are not both greater than 0. *)
Definition claimed_face_drawn (draw_backfaces : bool) (tv : AffineMatrix)
  (cen nrm1 nrm2 : Point3d) : Prop :=
  (z (transformPoint tv cen) <? -1) = true ∧
  (draw_backfaces = true ∨
   ¬ ((0 <? dotProduct3d (transformPoint tv cen)
              (transformPoint (transAdjoint tv) nrm1)) = true ∧
      (0 <? dotProduct3d (transformPoint tv cen)
              (transformPoint (transAdjoint tv) nrm2)) = true)).

(** [buffered db tv qs es]: going through the faces [qs] in order, [es]
    holds one entry for each face that is to be drawn, and none for the
    others; the entry of a face carries its camera-space centroid. *)
Inductive buffered (db : bool) (tv : AffineMatrix)
  : list QuadFace → list BufferedQuad → Prop :=
  | buffered_nil : buffered db tv [] []
  | buffered_skip face qs es cen nrm1 nrm2 :
      centroid face = Some cen → normal1 face = Some nrm1 →
      normal2 face = Some nrm2 →
      ¬ face_drawn db tv cen nrm1 nrm2 →
      buffered db tv qs es →
      buffered db tv (face :: qs) es
  | buffered_emit face qs e es cen nrm1 nrm2 :
      centroid face = Some cen → normal1 face = Some nrm1 →
      normal2 face = Some nrm2 →
      face_drawn db tv cen nrm1 nrm2 →
      w_centroid (qf e) = transformPoint tv cen →
      buffered db tv qs es →
      buffered db tv (face :: qs) (e :: es).

End Double.

(** ** Vocabulary of the properties *)

(** The four indices of a face. *)
Definition face_indices (qf : QuadFace) : nat * nat * nat * option nat :=
  (i0 qf, i1 qf, i2 qf, i3 qf).

(** Every index of the face is within an array of [n] vertices. *)
Definition face_in_bounds (n : nat) (qf : QuadFace) : Prop :=
  (i0 qf < n)%nat ∧ (i1 qf < n)%nat ∧ (i2 qf < n)%nat ∧
  ∀ j3, i3 qf = Some j3 → (j3 < n)%nat.

(** The invariant of a Shape: every index of every face is in bounds. *)
Definition shape_in_bounds (shape : Shape) : Prop :=
  Forall (face_in_bounds (length (vertices shape))) (quads shape).

(** The cached centroid and normals of the face are set. *)
Definition face_has_meta (qf : QuadFace) : Prop :=
  is_Some (centroid qf) ∧ is_Some (normal1 qf) ∧ is_Some (normal2 qf).

(** Unweighted averages of three and of four points. *)
Definition average3 (p q s : Point3d) : Point3d :=
  {| x := (x p + x q + x s) / 3;
     y := (y p + y q + y s) / 3;
     z := (z p + z q + z s) / 3 |}.

Definition average4 (p q s u : Point3d) : Point3d :=
  {| x := (x p + x q + x s + x u) / 4;
     y := (y p + y q + y s + y u) / 4;
     z := (z p + z q + z s + z u) / 4 |}.

(** The midpoint of two points. *)
Definition midpoint (p q : Point3d) : Point3d :=
  {| x := (x p + x q) / 2; y := (y p + y q) / 2; z := (z p + z q) / 2 |}.

(** What [rebuildMeta] is to leave in a face [qf'] computed from the face
    [qf] over the vertices [vs]: the indices are kept; the first normal is
    the cross product over the vertices 0, 1, 2; a triangle has its second
    normal equal to the first and the average of its three vertices as
    centroid; a quad has the cross product over the vertices 0, 2, 3 as
    second normal and the average of its four vertices as centroid. *)
Definition face_meta_ok (vs : list Point3d) (qf qf' : QuadFace) : Prop :=
  face_indices qf' = face_indices qf ∧
  ∃ vert0 vert1 vert2,
    vs !! i0 qf = Some vert0 ∧ vs !! i1 qf = Some vert1 ∧
    vs !! i2 qf = Some vert2 ∧
    normal1 qf' =
      Some (crossProduct (subPoints3d vert1 vert0) (subPoints3d vert2 vert0)) ∧
    match i3 qf with
    | None =>
        normal2 qf' = normal1 qf' ∧
        centroid qf' = Some (average3 vert0 vert1 vert2)
    | Some j3 =>
        ∃ vert3,
          vs !! j3 = Some vert3 ∧
          normal2 qf' =
            Some (crossProduct (subPoints3d vert2 vert0)
                    (subPoints3d vert3 vert0)) ∧
          centroid qf' = Some (average4 vert0 vert1 vert2 vert3)
    end.

(** The two triangles that [triangulate] is to make of a face, as index
    tuples: the face cut down to its first three corners, and, for a quad
    only, the triangle over the corners 0, 2, 3. *)
Definition first_triangle (qf : QuadFace) : nat * nat * nat * option nat :=
  (i0 qf, i1 qf, i2 qf, None).

Definition second_triangle (qf : QuadFace)
  : list (nat * nat * nat * option nat) :=
  match i3 qf with
  | None => []
  | Some j3 => [(i0 qf, i2 qf, j3, None)]
  end.

(** The new triangle pushed for a face, if any. *)
Definition pushed_triangle (qf : QuadFace) : list QuadFace :=
  match i3 qf with
  | None => []
  | Some j3 => [newQuadFace (i0 qf) (i2 qf) j3 None]
  end.

(** The four side faces that one extrusion step over a quad is to add: with
    [a b c d] the corners of the face before the step and
    [base .. base + 3] the corners created by the step, each side joins two
    old corners to the two new corners above them. *)
Definition side_faces (a b c d base : nat)
  : list (nat * nat * nat * option nat) :=
  [ (b, (base + 1)%nat, base, Some a);
    (c, (base + 2)%nat, (base + 1)%nat, Some b);
    (d, (base + 3)%nat, (base + 2)%nat, Some c);
    (a, base, (base + 3)%nat, Some d) ].

(** [face_in_bounds] on the tuple of indices. *)
Definition indices_in_bounds (n : nat) (t : nat * nat * nat * option nat)
  : Prop :=
  let '(j0, j1, j2, o3) := t in
  (j0 < n)%nat ∧ (j1 < n)%nat ∧ (j2 < n)%nat ∧
  ∀ j3, o3 = Some j3 → (j3 < n)%nat.

(** The four edges of a quad face, as pairs of vertex indices. *)
Definition face_edges (qf : QuadFace) : list (nat * nat) :=
  match i3 qf with
  | None => []
  | Some j3 => [(i0 qf, i1 qf); (i1 qf, i2 qf); (i2 qf, j3); (j3, i0 qf)]
  end.

(** The point [p] is the midpoint of the edge [e] over the vertices [vs]. *)
Definition is_edge_midpoint (vs : list Point3d) (p : Point3d)
  (e : nat * nat) : Prop :=
  ∃ pa pb, vs !! e.1 = Some pa ∧ vs !! e.2 = Some pb ∧ p = midpoint pa pb.

(** The point [p] is the average of the four corners of the face [qf]. *)
Definition is_face_centroid (vs : list Point3d) (p : Point3d)
  (qf : QuadFace) : Prop :=
  ∃ j3 pa pb pc pd,
    i3 qf = Some j3 ∧
    vs !! i0 qf = Some pa ∧ vs !! i1 qf = Some pb ∧
    vs !! i2 qf = Some pc ∧ vs !! j3 = Some pd ∧
    p = average4 pa pb pc pd.

(** In the connection map [conn], the vertex [v] lists the face [j]. *)
Definition connected (conn : list (list nat)) (v j : nat) : Prop :=
  ∃ cs, conn !! v = Some cs ∧ j ∈ cs.

(** The corners of a face. *)
Definition corners (qf : QuadFace) : list nat :=
  [i0 qf; i1 qf; i2 qf] ++ match i3 qf with Some j3 => [j3] | None => [] end.

(** The string has no dash, the separator of the keys of [share_points]. *)
Fixpoint no_dash (s : string) : Prop :=
  match s with
  | EmptyString => True
  | String c s' => c ≠ "-"%char ∧ no_dash s'
  end.

(** The key under which the subdivisions file the average of the vertices
    [l]. *)
Definition share_key (l : list nat) : string :=
  js_join "-" (js_sort (Some <$> l)).

(** The vertex of index [i] of the array [vs0]. *)
Definition vertex_at (vs0 : list Point3d) (i : nat) : Point3d :=
  default (P3 0 0 0) (vs0 !! i).

(** The table [share_points] is sound for the vertex array [vs], which
    extends the original array [vs0]: every entry points inside [vs], and
    the entry under the key of some original indices [l] points to the
    average of the original vertices at [l]. *)
Definition table_ok (vs0 vs : list Point3d) (share_points : gmap string nat)
  : Prop :=
  ∀ key v,
    share_points !! key = Some v →
    (v < length vs)%nat ∧
    ∀ l, l ≠ [] → Forall (λ i, (i < length vs0)%nat) l →
         key = share_key l →
         vs !! v = Some (averagePoints (vertex_at vs0 <$> l)).

(** The face [quad], of index [i] among [n] faces, is cut in four in the
    face array [qs], the new corners being the entries of [share_points]
    for its four edges and for its four corners. *)
Definition subdivided (n : nat) (qs : list QuadFace)
  (share_points : gmap string nat) (i : nat) (quad : QuadFace) : Prop :=
  ∃ j3 m0 m1 m2 m3 m4,
    i3 quad = Some j3 ∧
    share_points !! share_key [i0 quad; i1 quad] = Some m0 ∧
    share_points !! share_key [i1 quad; i2 quad] = Some m1 ∧
    share_points !! share_key [i2 quad; j3] = Some m2 ∧
    share_points !! share_key [j3; i0 quad] = Some m3 ∧
    share_points !! share_key [i0 quad; i1 quad; i2 quad; j3] = Some m4 ∧
    qs !! i = Some (newQuadFace (i0 quad) m0 m4 (Some m3)) ∧
    qs !! (n + 3 * i)%nat = Some (newQuadFace m0 (i1 quad) m1 (Some m4)) ∧
    qs !! (n + 3 * i + 1)%nat = Some (newQuadFace m4 m1 (i2 quad) (Some m2)) ∧
    qs !! (n + 3 * i + 2)%nat = Some (newQuadFace m3 m4 m2 (Some j3)).

(** The same for [linearSubdivideTri]: the face [tri] is cut in four
    triangles over the entries of [share_points] for its three edges. *)
Definition subdivided_tri (n : nat) (qs : list QuadFace)
  (share_points : gmap string nat) (i : nat) (tri : QuadFace) : Prop :=
  ∃ m0 m1 m2,
    share_points !! share_key [i0 tri; i1 tri] = Some m0 ∧
    share_points !! share_key [i1 tri; i2 tri] = Some m1 ∧
    share_points !! share_key [i2 tri; i0 tri] = Some m2 ∧
    qs !! i = Some (newQuadFace (i0 tri) m0 m2 None) ∧
    qs !! (n + 3 * i)%nat = Some (newQuadFace m0 (i1 tri) m1 None) ∧
    qs !! (n + 3 * i + 1)%nat = Some (newQuadFace m2 m1 (i2 tri) None) ∧
    qs !! (n + 3 * i + 2)%nat = Some (newQuadFace m0 m1 m2 None).

(** The number of corners of the faces that the selector of the extruder
    selects, a face counted once. *)
Definition selected_corners (ex : Extruder.t) (shape : Shape) : nat :=
  sum_list
    ((λ j, from_option (λ qf, length (corners qf)) 0%nat (quads shape !! j))
       <$> List.filter (Extruder.selector_ ex shape)
             (seq 0 (length (quads shape)))).

(** The faces of [qs], numbered from [k], that reference the vertex [v], in
    face order; a face that has [v] at several corners is listed once per
    such corner. *)
Fixpoint incident_from (k : nat) (qs : list QuadFace) (v : nat) : list nat :=
  match qs with
  | [] => []
  | qf :: qs' =>
      ((λ _, k) <$> filter (λ c, c = v) (corners qf))
      ++ incident_from (S k) qs' v
  end.

Definition incident_faces (qs : list QuadFace) (v : nat) : list nat :=
  incident_from 0 qs v.

(** [c] is the centroid of the quad at index [k] of [qs]. *)
Definition centroid_of_face (vs : list Point3d) (qs : list QuadFace)
  (k : nat) (c : Point3d) : Prop :=
  ∃ qf, qs !! k = Some qf ∧ is_face_centroid vs c qf.

(** The determinant of the 3x3 block of a matrix. *)
Definition det3 (a : AffineMatrix) : R :=
  e0 a * (e5 a * e10 a - e6 a * e9 a)
  - e1 a * (e4 a * e10 a - e6 a * e8 a)
  + e2 a * (e4 a * e9 a - e5 a * e8 a).

(** Where the canvas puts the point [(px, py)] of the image after
    [transform(m11, m12, m21, m22, dx, dy)]. *)
Definition canvas_apply (m11 m12 m21 m22 dx dy : R) (px py : R) : R * R :=
  (m11 * px + m21 * py + dx, m12 * px + m22 * py + dy).

(** Every index of the curve is within an array of [n] points. *)
Definition curve_in_bounds (n : nat) (c : Curve) : Prop :=
  (ep c < n)%nat ∧ (c0 c < n)%nat ∧ ∀ k1, c1 c = Some k1 → (k1 < n)%nat.

(** The canvas call that draws the piece [s], with its points mapped to the
    canvas by [proj]. *)
Definition segment_cmd (proj : Point3d → Canvas.Point2d) (s : Segment)
  : CanvasCmd :=
  match seg_c1 s with
  | None =>
      QuadraticCurveTo
        (Canvas.x (proj (seg_c0 s))) (Canvas.y (proj (seg_c0 s)))
        (Canvas.x (proj (seg_ep s))) (Canvas.y (proj (seg_ep s)))
  | Some q1 =>
      BezierCurveTo
        (Canvas.x (proj (seg_c0 s))) (Canvas.y (proj (seg_c0 s)))
        (Canvas.x (proj q1)) (Canvas.y (proj q1))
        (Canvas.x (proj (seg_ep s))) (Canvas.y (proj (seg_ep s)))
  end.

(** * Properties *)

(** ** Vector and matrix algebra *)

Lemma Point3d_eq (p q : Point3d) :
  x p = x q → y p = y q → z p = z q → p = q.
Proof. destruct p, q; simpl; intros; subst; reflexivity. Qed.

Lemma dupAffine_id (a : AffineMatrix) : dupAffine a = a.
Proof. destruct a; reflexivity. Qed.

(** Transforming by a product is transforming by the right factor first. *)
Lemma transformPoint_multiplyAffine (a b : AffineMatrix) (p : Point3d) :
  transformPoint (multiplyAffine a b) p = transformPoint a (transformPoint b p).
Proof.
  destruct a, b, p; unfold transformPoint, multiplyAffine; simpl.
  apply Point3d_eq; simpl; ring.
Qed.

Lemma transformPoint_identity (p : Point3d) :
  transformPoint makeIdentityAffine p = p.
Proof.
  destruct p; unfold transformPoint, makeIdentityAffine; simpl.
  apply Point3d_eq; simpl; ring.
Qed.

Lemma multiplyAffine_identity_l (a : AffineMatrix) :
  multiplyAffine makeIdentityAffine a = a.
Proof.
  destruct a; unfold multiplyAffine, makeIdentityAffine; simpl.
  f_equal; ring.
Qed.

Lemma multiplyAffine_identity_r (a : AffineMatrix) :
  multiplyAffine a makeIdentityAffine = a.
Proof.
  destruct a; unfold multiplyAffine, makeIdentityAffine; simpl.
  f_equal; ring.
Qed.

(** ** Transform: order of composition *)

(** C1 as stated fails: after [rotateX] on a transform that translates
    along y, the origin is translated first and rotated second; applying
    the rotation first and the old matrix second gives another point. *)
Lemma rotateX_acts_after_counterexample :
  let tm := Transform.translate 0 1 0 Transform.new in
  Transform.transformPoint (Transform.rotateX (PI / 2) tm) (P3 0 0 0)
  ≠ transformPoint (Transform.m tm)
      (transformPoint (makeRotateAffineX (PI / 2)) (P3 0 0 0)).
Proof.
  cbv zeta.
  unfold Transform.transformPoint, Transform.rotateX, Transform.translate,
    Transform.new, Transform.reset; simpl.
  rewrite !transformPoint_multiplyAffine, transformPoint_identity.
  unfold transformPoint, makeRotateAffineX, makeTranslateAffine; simpl.
  rewrite sin_PI2, cos_PI2.
  intros H. apply (f_equal y) in H. simpl in H. lra.
Qed.

(** C1, amended: the methods without suffix compose the new operation on
    the left of the current matrix, so the new operation acts on the
    already transformed point; the [Pre] methods compose it on the right, so
    it acts on the point first and the current matrix second. *)
Theorem transform_composition_order (tm : Transform.t) (p : Point3d) :
  (∀ theta,
     Transform.transformPoint (Transform.rotateX theta tm) p
     = transformPoint (makeRotateAffineX theta)
         (Transform.transformPoint tm p)) ∧
  (∀ theta,
     Transform.transformPoint (Transform.rotateY theta tm) p
     = transformPoint (makeRotateAffineY theta)
         (Transform.transformPoint tm p)) ∧
  (∀ theta,
     Transform.transformPoint (Transform.rotateZ theta tm) p
     = transformPoint (makeRotateAffineZ theta)
         (Transform.transformPoint tm p)) ∧
  (∀ dx dy dz,
     Transform.transformPoint (Transform.translate dx dy dz tm) p
     = transformPoint (makeTranslateAffine dx dy dz)
         (Transform.transformPoint tm p)) ∧
  (∀ sx sy sz,
     Transform.transformPoint (Transform.scale sx sy sz tm) p
     = transformPoint (makeScaleAffine sx sy sz)
         (Transform.transformPoint tm p)) ∧
  (∀ theta,
     Transform.transformPoint (Transform.rotateXPre theta tm) p
     = Transform.transformPoint tm
         (transformPoint (makeRotateAffineX theta) p)) ∧
  (∀ theta,
     Transform.transformPoint (Transform.rotateYPre theta tm) p
     = Transform.transformPoint tm
         (transformPoint (makeRotateAffineY theta) p)) ∧
  (∀ theta,
     Transform.transformPoint (Transform.rotateZPre theta tm) p
     = Transform.transformPoint tm
         (transformPoint (makeRotateAffineZ theta) p)) ∧
  (∀ dx dy dz,
     Transform.transformPoint (Transform.translatePre dx dy dz tm) p
     = Transform.transformPoint tm
         (transformPoint (makeTranslateAffine dx dy dz) p)) ∧
  (∀ sx sy sz,
     Transform.transformPoint (Transform.scalePre sx sy sz tm) p
     = Transform.transformPoint tm
         (transformPoint (makeScaleAffine sx sy sz) p)).
Proof.
  repeat split; intros; unfold Transform.transformPoint; simpl;
    apply transformPoint_multiplyAffine.
Qed.

(** ** Renderer: projection *)

(** C4: with a camera of focal length [f > 0] at the origin and identity
    camera and object transforms, the point [(0, 0, -d)], [d > 0], projects
    to the centre [(width / 2, height / 2)] of the surface. *)
Theorem project_axis_point_to_center (f d width height : R) :
  0 < f → 0 < d →
  let rd :=
    Renderer.set_camera (Camera.mk Transform.new f)
      (Renderer.new width height) in
  let tv :=
    multiplyAffine (Transform.m (Camera.transform (Renderer.camera rd)))
      (Transform.m (Renderer.transform rd)) in
  Renderer.projectPointToCanvas rd (transformPoint tv (P3 0 0 (- d)))
  = Canvas.mk (width / 2) (height / 2).
Proof.
  intros Hf Hd rd tv.
  assert (Htv : tv = makeIdentityAffine).
  { unfold tv, rd; simpl. apply multiplyAffine_identity_l. }
  rewrite Htv, transformPoint_identity.
  unfold Renderer.projectPointToCanvas, rd; simpl.
  f_equal; field; lra.
Qed.

Lemma project_axis_point_to_center_witness :
  Renderer.projectPointToCanvas
    (Renderer.set_camera (Camera.mk Transform.new 11) (Renderer.new 640 480))
    (transformPoint
       (multiplyAffine (Transform.m Transform.new) (Transform.m Transform.new))
       (P3 0 0 (- 12)))
  = Canvas.mk (640 / 2) (480 / 2).
Proof.
  apply (project_axis_point_to_center 11 12 640 480); lra.
Defined.

(** ** PathUtils: the circle *)

(** C9 as stated fails: the trace of the circle ends at the point of index
    5, the origin, which is not the point of index 0 (a control point). *)
Lemma makeCircle_ends_at_index_0_counterexample :
  seg_ep <$> (tracePath makeCircle ≫= last) ≠ points makeCircle !! 0%nat.
Proof.
  simpl. intros H. injection H as H. unfold kKappa in H. lra.
Qed.

(** C9, amended: the circle has exactly two curves, both cubic.  Traced
    from the implicit origin, the first curve at parameter 0 is the origin,
    the second curve at parameter 0 is the end point of the first (point
    index 2), and the second curve ends where the first began: the loop
    closes at the origin, which is the point of index 5. *)
Theorem makeCircle_closed_loop :
  length (curves makeCircle) = 2%nat ∧
  Forall (λ c, isQuadratic c = false) (curves makeCircle) ∧
  starting_point makeCircle = None ∧
  ∃ s0 s1,
    tracePath makeCircle = Some [s0; s1] ∧
    segmentPoint s0 0 = P3 0 0 0 ∧
    segmentPoint s1 0 = segmentPoint s0 1 ∧
    points makeCircle !! 2%nat = Some (segmentPoint s0 1) ∧
    segmentPoint s1 1 = segmentPoint s0 0 ∧
    points makeCircle !! 5%nat = Some (segmentPoint s1 1).
Proof.
  split; [reflexivity|].
  split; [repeat constructor|].
  split; [reflexivity|].
  eexists _, _. split; [reflexivity|].
  unfold segmentPoint, bezier2; simpl.
  repeat split; try (apply Point3d_eq; simpl; ring);
    f_equal; apply Point3d_eq; simpl; ring.
Qed.

(** ** ShapeUtils: rebuildMeta *)

Lemma averagePoints_3 (p q s : Point3d) :
  averagePoints [p; q; s] = average3 p q s.
Proof.
  unfold averagePoints, average3; simpl.
  apply Point3d_eq; simpl; field.
Qed.

Lemma averagePoints_4 (p q s u : Point3d) :
  averagePoints [p; q; s; u] = average4 p q s u.
Proof.
  unfold averagePoints, average4; simpl.
  apply Point3d_eq; simpl; field.
Qed.

Lemma rebuildMetaFace_ok (vs : list Point3d) (qf : QuadFace) :
  face_in_bounds (length vs) qf →
  ∃ qf', rebuildMetaFace vs qf = Some qf' ∧ face_meta_ok vs qf qf'.
Proof.
  intros (H0 & H1 & H2 & H3).
  apply lookup_lt_is_Some_2 in H0 as [vert0 E0].
  apply lookup_lt_is_Some_2 in H1 as [vert1 E1].
  apply lookup_lt_is_Some_2 in H2 as [vert2 E2].
  unfold rebuildMetaFace, face_meta_ok. rewrite E0, E1, E2. simpl.
  destruct (i3 qf) as [j3|] eqn:E3.
  - destruct (lookup_lt_is_Some_2 vs j3 (H3 j3 eq_refl)) as [vert3 E3'].
    rewrite E3'. simpl. eexists; split; [reflexivity|].
    split; [unfold face_indices; simpl; by rewrite E3|].
    exists vert0, vert1, vert2. repeat split; simpl.
    exists vert3. by rewrite averagePoints_4.
  - eexists; split; [reflexivity|].
    split; [unfold face_indices; simpl; by rewrite E3|].
    exists vert0, vert1, vert2. repeat split; simpl.
    by rewrite averagePoints_3.
Qed.

Lemma mapM_rebuildMetaFace (vs : list Point3d) (qs : list QuadFace) :
  Forall (face_in_bounds (length vs)) qs →
  ∃ qs', mapM (rebuildMetaFace vs) qs = Some qs' ∧
         Forall2 (face_meta_ok vs) qs qs'.
Proof.
  induction 1 as [|qf qs Hqf _ (qs' & E & IH)].
  - exists []. split; [reflexivity | constructor].
  - destruct (rebuildMetaFace_ok vs qf Hqf) as (qf' & Eqf & Hok).
    exists (qf' :: qs'). split; [|by constructor].
    simpl. rewrite Eqf. simpl. rewrite E. reflexivity.
Qed.

(** [rebuildMeta] on a shape whose indices are in bounds. *)
Lemma rebuildMeta_ok (shape : Shape) :
  shape_in_bounds shape →
  ∃ qs', rebuildMeta shape = Some (mkShape (vertices shape) qs') ∧
         Forall2 (face_meta_ok (vertices shape)) (quads shape) qs'.
Proof.
  intros H. destruct (mapM_rebuildMetaFace _ _ H) as (qs' & E & HF).
  exists qs'. split; [|done]. unfold rebuildMeta. rewrite E. reflexivity.
Qed.

(** C7: on a shape whose indices are in bounds, [rebuildMeta] returns the
    shape with the same vertices and, face by face, the same indices, the
    first normal from the vertices 0, 1, 2, and: for a triangle, a second
    normal equal to the first and the average of the 3 vertices as centroid;
    for a quad, the second normal from the vertices 0, 2, 3 and the average
    of the 4 vertices as centroid. *)
Theorem rebuildMeta_metadata (shape : Shape) :
  shape_in_bounds shape →
  ∃ shape',
    rebuildMeta shape = Some shape' ∧
    vertices shape' = vertices shape ∧
    Forall2 (face_meta_ok (vertices shape)) (quads shape) (quads shape').
Proof.
  intros H. destruct (rebuildMeta_ok shape H) as (qs' & E & HF).
  eexists. split; [exact E|]. split; [reflexivity | exact HF].
Qed.

Ltac solve_in_bounds :=
  repeat (first
    [ apply Forall_nil_2
    | apply Forall_cons_2
    | split
    | progress simpl
    | lia
    | let j := fresh in let E := fresh in
      intros j E; injection E as <- ]).

Lemma rebuildMeta_metadata_witness :
  let shape :=
    mkShape [P3 0 0 0; P3 1 0 0; P3 1 1 0; P3 0 1 0]
      [newQuadFace 0 1 2 (Some 3%nat); newQuadFace 0 1 2 None] in
  ∃ shape',
    rebuildMeta shape = Some shape' ∧
    vertices shape' = vertices shape ∧
    Forall2 (face_meta_ok (vertices shape)) (quads shape) (quads shape').
Proof.
  intros shape. apply (rebuildMeta_metadata shape).
  unfold shape_in_bounds, face_in_bounds, shape. simpl.
  solve_in_bounds; discriminate.
Defined.

(** ** ShapeUtils: triangulate *)

Lemma for_loop_app {S : Type} (body : S → nat → option S)
  (l1 l2 : list nat) (s : S) :
  for_loop body (l1 ++ l2) s = for_loop body l1 s ≫= for_loop body l2.
Proof.
  revert s. induction l1 as [|i l1 IH]; intros s; simpl; [reflexivity|].
  destruct (body s i); simpl; [apply IH | reflexivity].
Qed.

Lemma set_i3_None_triangle (qf : QuadFace) :
  i3 qf = None → set_i3 None qf = qf.
Proof. destruct qf; simpl; intros ->; reflexivity. Qed.

(** The face array after the first [k] rounds of the loop. *)
Lemma triangulate_loop_prefix (l : list QuadFace) (k : nat) :
  (k ≤ length l)%nat →
  for_loop triangulateStep (seq 0 k) l
  = Some ((set_i3 None <$> take k l) ++ drop k l
          ++ (take k l ≫= pushed_triangle)).
Proof.
  induction k as [|k IH]; intros Hk.
  - simpl. rewrite drop_0, app_nil_r. reflexivity.
  - rewrite seq_S, for_loop_app, IH by lia. simpl.
    destruct (lookup_lt_is_Some_2 l k ltac:(lia)) as [qf Eqf].
    rewrite (take_S_r _ _ _ Eqf), (drop_S _ _ _ Eqf).
    assert (Hlen : length (set_i3 None <$> take k l) = k).
    { rewrite length_fmap, length_take. lia. }
    unfold triangulateStep.
    rewrite lookup_app_r by lia. rewrite Hlen, Nat.sub_diag. simpl.
    rewrite fmap_app, bind_app. simpl.
    destruct (i3 qf) as [j3|] eqn:E3.
    + assert (Hp : pushed_triangle qf = [newQuadFace (i0 qf) (i2 qf) j3 None])
        by (unfold pushed_triangle; by rewrite E3).
      rewrite insert_app_r_alt by lia. rewrite Hlen, Nat.sub_diag, Hp. simpl.
      f_equal. rewrite <- !app_assoc. simpl. rewrite <- !app_assoc.
      reflexivity.
    + assert (Hp : pushed_triangle qf = [])
        by (unfold pushed_triangle; by rewrite E3).
      rewrite Hp, set_i3_None_triangle by done. simpl.
      f_equal. rewrite <- !app_assoc, !app_nil_r. reflexivity.
Qed.

Lemma triangulate_loop (l : list QuadFace) :
  for_loop triangulateStep (seq 0 (length l)) l
  = Some ((set_i3 None <$> l) ++ (l ≫= pushed_triangle)).
Proof.
  rewrite triangulate_loop_prefix by lia.
  rewrite firstn_all, drop_all. reflexivity.
Qed.

Lemma face_in_bounds_set_i3_None (n : nat) (qf : QuadFace) :
  face_in_bounds n qf → face_in_bounds n (set_i3 None qf).
Proof.
  intros (H0 & H1 & H2 & _). repeat split; simpl; try done.
Qed.

Lemma face_in_bounds_pushed (n : nat) (qf : QuadFace) :
  face_in_bounds n qf → Forall (face_in_bounds n) (pushed_triangle qf).
Proof.
  intros (H0 & H1 & H2 & H3). unfold pushed_triangle.
  destruct (i3 qf) as [j3|]; [|constructor].
  repeat constructor; simpl; auto. done.
Qed.

Lemma triangulated_in_bounds (n : nat) (l : list QuadFace) :
  Forall (face_in_bounds n) l →
  Forall (face_in_bounds n) ((set_i3 None <$> l) ++ (l ≫= pushed_triangle)).
Proof.
  intros H. apply Forall_app. split.
  - apply Forall_fmap. eapply Forall_impl; [exact H|].
    intros qf; apply face_in_bounds_set_i3_None.
  - apply Forall_bind. eapply Forall_impl; [exact H|].
    intros qf; apply face_in_bounds_pushed.
Qed.

(** [rebuildMeta] computes the metadata from the indices alone. *)
Lemma rebuildMetaFace_idem (vs : list Point3d) (qf qf' : QuadFace) :
  rebuildMetaFace vs qf = Some qf' → rebuildMetaFace vs qf' = Some qf'.
Proof.
  unfold rebuildMetaFace.
  destruct (vs !! i0 qf) as [vert0|] eqn:E0; simpl; [|done].
  destruct (vs !! i1 qf) as [vert1|] eqn:E1; simpl; [|done].
  destruct (vs !! i2 qf) as [vert2|] eqn:E2; simpl; [|done].
  destruct (i3 qf) as [j3|] eqn:E3.
  - destruct (vs !! j3) as [vert3|] eqn:E3'; simpl; [|done].
    intros [= <-]. simpl. rewrite E0, E1, E2. simpl. rewrite E3'. done.
  - intros [= <-]. simpl. rewrite E0, E1, E2. done.
Qed.

Lemma rebuildMetaFace_i3 (vs : list Point3d) (qf qf' : QuadFace) :
  rebuildMetaFace vs qf = Some qf' → face_indices qf' = face_indices qf.
Proof.
  unfold rebuildMetaFace, face_indices.
  destruct (vs !! i0 qf); simpl; [|done].
  destruct (vs !! i1 qf); simpl; [|done].
  destruct (vs !! i2 qf); simpl; [|done].
  destruct (i3 qf) as [j3|] eqn:E3.
  - destruct (vs !! j3); simpl; [|done]. intros [= <-]. reflexivity.
  - intros [= <-]. reflexivity.
Qed.

Lemma mapM_rebuildMetaFace_idem (vs : list Point3d) (qs qs' : list QuadFace) :
  mapM (rebuildMetaFace vs) qs = Some qs' →
  mapM (rebuildMetaFace vs) qs' = Some qs'.
Proof.
  rewrite !mapM_Some. induction 1 as [|qf qf' qs qs' H _ IH]; constructor.
  - eapply rebuildMetaFace_idem; eassumption.
  - exact IH.
Qed.

Lemma mapM_rebuildMetaFace_indices (vs : list Point3d)
  (qs qs' : list QuadFace) :
  mapM (rebuildMetaFace vs) qs = Some qs' →
  face_indices <$> qs' = face_indices <$> qs.
Proof.
  rewrite mapM_Some. induction 1 as [|qf qf' qs qs' H _ IH]; simpl.
  - reflexivity.
  - f_equal; [eapply rebuildMetaFace_i3; eassumption | exact IH].
Qed.

(** On triangles only, the loop of [triangulate] changes nothing. *)
Lemma triangulate_loop_triangles (l : list QuadFace) :
  Forall (λ qf, i3 qf = None) l →
  (set_i3 None <$> l) ++ (l ≫= pushed_triangle) = l.
Proof.
  induction 1 as [|qf l Hqf _ IH]; simpl; [reflexivity|].
  unfold pushed_triangle at 1. rewrite Hqf. simpl.
  rewrite set_i3_None_triangle by done. f_equal. exact IH.
Qed.

Lemma indices_first_second (l : list QuadFace) :
  face_indices <$> ((set_i3 None <$> l) ++ (l ≫= pushed_triangle))
  = (first_triangle <$> l) ++ (l ≫= second_triangle).
Proof.
  rewrite fmap_app. f_equal.
  - rewrite <- list_fmap_compose. apply list_fmap_ext. intros _ qf _.
    reflexivity.
  - induction l as [|qf l IH]; [reflexivity|].
    rewrite !bind_cons, fmap_app, IH. f_equal.
    unfold pushed_triangle, second_triangle.
    destruct (i3 qf); reflexivity.
Qed.

Lemma all_triangles_after (l : list QuadFace) :
  Forall (λ t, t.2 = None) ((first_triangle <$> l) ++ (l ≫= second_triangle)).
Proof.
  apply Forall_app. split.
  - apply Forall_fmap, Forall_true. intros qf. reflexivity.
  - apply Forall_bind, Forall_true. intros qf. unfold compose, second_triangle.
    destruct (i3 qf); repeat constructor.
Qed.

(** C8: on a shape whose indices are in bounds, [triangulate] keeps the
    vertex positions, turns every face in place into the triangle of its
    first three corners, and appends, in face order, the triangle
    (i0, i2, i3) of every quad; triangulating the result again returns it
    unchanged, so with the same face count and the same vertex positions. *)
Theorem triangulate_splits_and_is_idempotent (shape : Shape) :
  shape_in_bounds shape →
  ∃ s1,
    triangulate shape = Some s1 ∧
    vertices s1 = vertices shape ∧
    face_indices <$> quads s1
    = (first_triangle <$> quads shape) ++ (quads shape ≫= second_triangle) ∧
    ∃ s2,
      triangulate s1 = Some s2 ∧
      length (quads s2) = length (quads s1) ∧
      vertices s2 = vertices s1 ∧
      s2 = s1.
Proof.
  intros Hb. unfold triangulate at 1. rewrite triangulate_loop. simpl.
  pose proof (triangulated_in_bounds _ _ Hb) as Hb1.
  destruct (mapM_rebuildMetaFace _ _ Hb1) as (qs1 & E1 & _).
  unfold rebuildMeta at 1. simpl. rewrite E1. simpl.
  eexists. split; [reflexivity|]. simpl. split; [reflexivity|].
  pose proof (mapM_rebuildMetaFace_indices _ _ _ E1) as Hidx.
  rewrite indices_first_second in Hidx. split; [exact Hidx|].
  assert (Htri : Forall (λ qf, i3 qf = None) qs1).
  { pose proof (all_triangles_after (quads shape)) as Hall.
    rewrite <- Hidx in Hall. rewrite Forall_fmap in Hall.
    eapply Forall_impl; [exact Hall|]. intros qf. simpl. done. }
  exists (mkShape (vertices shape) qs1).
  split; [|done].
  unfold triangulate. simpl. rewrite triangulate_loop. simpl.
  rewrite (triangulate_loop_triangles _ Htri).
  unfold rebuildMeta. simpl.
  rewrite (mapM_rebuildMetaFace_idem _ _ _ E1). reflexivity.
Qed.

Lemma triangulate_splits_and_is_idempotent_witness :
  let shape :=
    mkShape [P3 0 0 0; P3 1 0 0; P3 1 1 0; P3 0 1 0]
      [newQuadFace 0 1 2 (Some 3%nat); newQuadFace 0 1 2 None] in
  ∃ s1,
    triangulate shape = Some s1 ∧
    vertices s1 = vertices shape ∧
    face_indices <$> quads s1
    = (first_triangle <$> quads shape) ++ (quads shape ≫= second_triangle) ∧
    ∃ s2,
      triangulate s1 = Some s2 ∧
      length (quads s2) = length (quads s1) ∧
      vertices s2 = vertices s1 ∧
      s2 = s1.
Proof.
  intros shape. apply (triangulate_splits_and_is_idempotent shape).
  unfold shape_in_bounds, face_in_bounds, shape. simpl.
  solve_in_bounds; discriminate.
Defined.

(** ** Renderer: bufferShape *)

Section BufferShape.
Import PrimFloat.
Local Open Scope float_scope.

Lemma set_buffered_quads_same (rd : Double.Renderer.t) :
  Double.Renderer.set_buffered_quads
    (Double.Renderer.buffered_quads_ rd ++ []) rd = rd.
Proof.
  destruct rd; unfold Double.Renderer.set_buffered_quads; simpl.
  by rewrite app_nil_r.
Qed.

Lemma set_buffered_quads_push (rd : Double.Renderer.t)
  (e : Double.BufferedQuad) (es : list Double.BufferedQuad) :
  let rd1 := Double.Renderer.push_buffered e rd in
  Double.Renderer.set_buffered_quads
    (Double.Renderer.buffered_quads_ rd1 ++ es) rd1
  = Double.Renderer.set_buffered_quads
      (Double.Renderer.buffered_quads_ rd ++ e :: es) rd.
Proof.
  destruct rd;
    unfold Double.Renderer.push_buffered, Double.Renderer.set_buffered_quads;
    simpl. by rewrite <- app_assoc.
Qed.

(** [face_drawn] in the form of the two tests of the loop body. *)
Lemma face_drawn_tests (db : bool) (tv : Double.AffineMatrix)
  (cen nrm1 nrm2 : Double.Point3d) :
  Double.face_drawn db tv cen nrm1 nrm2 ↔
  (-1 <=? Double.z (Double.transformPoint tv cen)) = false ∧
  negb db
  && (0 <? Double.dotProduct3d (Double.transformPoint tv cen)
             (Double.unitVector3d
                (Double.transformPoint (Double.transAdjoint tv) nrm1)))
  && (0 <? Double.dotProduct3d (Double.transformPoint tv cen)
             (Double.transformPoint (Double.transAdjoint tv) nrm2)) = false.
Proof.
  unfold Double.face_drawn.
  rewrite <- (not_true_iff_false (_ && _)), !andb_true_iff, negb_true_iff.
  destruct db; split; intros [Hz Hd]; (split; [exact Hz|]).
  - intros [[? _] _]. done.
  - by left.
  - destruct Hd as [? | Hd]; [done | tauto].
  - right. tauto.
Qed.

Lemma face_drawn_dec (db : bool) (tv : Double.AffineMatrix)
  (cen nrm1 nrm2 : Double.Point3d) :
  Double.face_drawn db tv cen nrm1 nrm2 ∨
  ¬ Double.face_drawn db tv cen nrm1 nrm2.
Proof.
  rewrite face_drawn_tests.
  destruct (-1 <=? _); [right; intros [? _]; done|].
  match goal with |- (_ ∧ ?c = _) ∨ _ => destruct c end;
    [right; intros [_ ?]; done | left; done].
Qed.

(** One round of the loop of [bufferShape], without a callback. *)
Lemma bufferShapeStep_drawn (db : bool) (tv : Double.AffineMatrix)
  (wv : list Double.Point3d) (shape : Double.Shape) (rd : Double.Renderer.t)
  (j : nat) (face : Double.QuadFace) (cen nrm1 nrm2 : Double.Point3d) :
  Double.quads shape !! j = Some face →
  Double.centroid face = Some cen → Double.normal1 face = Some nrm1 →
  Double.normal2 face = Some nrm2 →
  Double.face_drawn db tv cen nrm1 nrm2 →
  ∃ e, Double.Renderer.bufferShapeStep db None tv (Double.transAdjoint tv)
         wv shape rd j
       = Some (Double.Renderer.push_buffered e rd) ∧
       Double.w_centroid (Double.qf e) = Double.transformPoint tv cen.
Proof.
  intros Hj Hc H1 H2 [Hz Hd]%face_drawn_tests.
  unfold Double.Renderer.bufferShapeStep. rewrite Hj.
  cbn [mbind option_bind]. rewrite Hc. cbn [mbind option_bind].
  rewrite Hz, H1. cbn [mbind option_bind]. rewrite H2.
  cbn [mbind option_bind]. rewrite Hd. eexists. split; reflexivity.
Qed.

Lemma bufferShapeStep_skipped (db : bool) (tv : Double.AffineMatrix)
  (wv : list Double.Point3d) (shape : Double.Shape) (rd : Double.Renderer.t)
  (j : nat) (face : Double.QuadFace) (cen nrm1 nrm2 : Double.Point3d) :
  Double.quads shape !! j = Some face →
  Double.centroid face = Some cen → Double.normal1 face = Some nrm1 →
  Double.normal2 face = Some nrm2 →
  ¬ Double.face_drawn db tv cen nrm1 nrm2 →
  Double.Renderer.bufferShapeStep db None tv (Double.transAdjoint tv)
    wv shape rd j
  = Some rd.
Proof.
  intros Hj Hc H1 H2 Hn. rewrite face_drawn_tests in Hn.
  unfold Double.Renderer.bufferShapeStep. rewrite Hj.
  cbn [mbind option_bind]. rewrite Hc. cbn [mbind option_bind].
  destruct (-1 <=? Double.z (Double.transformPoint tv cen)) eqn:Ez;
    [reflexivity|].
  rewrite H1. cbn [mbind option_bind]. rewrite H2. cbn [mbind option_bind].
  match goal with |- (if ?c then _ else _) = _ => destruct c eqn:Ed end;
    [reflexivity|].
  exfalso. apply Hn. split; (reflexivity || assumption).
Qed.

Lemma bufferShape_loop (db : bool) (tv : Double.AffineMatrix)
  (wv : list Double.Point3d) (shape : Double.Shape)
  (rest : list Double.QuadFace) :
  ∀ (done_ : list Double.QuadFace) (rd : Double.Renderer.t),
    Double.quads shape = done_ ++ rest →
    Forall Double.face_has_meta rest →
    ∃ es,
      for_loop
        (Double.Renderer.bufferShapeStep db None tv (Double.transAdjoint tv)
           wv shape)
        (seq (length done_) (length rest)) rd
      = Some (Double.Renderer.set_buffered_quads
                (Double.Renderer.buffered_quads_ rd ++ es) rd) ∧
      Double.buffered db tv rest es.
Proof.
  induction rest as [|face rest IH]; intros done_ rd Hq Hm.
  - exists []. simpl. rewrite set_buffered_quads_same.
    split; [reflexivity | constructor].
  - apply Forall_cons in Hm as [((cen & Hc) & (nrm1 & H1) & (nrm2 & H2)) Hm].
    assert (Hj : Double.quads shape !! length done_ = Some face)
      by (rewrite Hq; apply list_lookup_middle; reflexivity).
    assert (Hq' : Double.quads shape = (done_ ++ [face]) ++ rest)
      by (rewrite Hq, <- app_assoc; reflexivity).
    assert (Hlen : length (done_ ++ [face]) = S (length done_))
      by (rewrite length_app; simpl; lia).
    cbn [length seq for_loop].
    destruct (face_drawn_dec db tv cen nrm1 nrm2) as [Hd | Hd].
    + destruct (bufferShapeStep_drawn db tv wv shape rd _ _ _ _ _
                  Hj Hc H1 H2 Hd) as (e & -> & He).
      destruct (IH _ (Double.Renderer.push_buffered e rd) Hq' Hm)
        as (es & E & Hb).
      rewrite Hlen in E. rewrite E.
      exists (e :: es). split.
      * f_equal. apply set_buffered_quads_push.
      * econstructor; eassumption.
    + rewrite (bufferShapeStep_skipped db tv wv shape rd _ _ _ _ _
                 Hj Hc H1 H2 Hd).
      destruct (IH _ rd Hq' Hm) as (es & E & Hb).
      rewrite Hlen in E. rewrite E.
      exists es. split; [reflexivity|].
      eapply Double.buffered_skip; eassumption.
Qed.

(** C2 as stated fails in double precision.  The quad over
    [(3, 2, -2)], [(2, 0, -2)], [(3, 1, -3)], [(0, 3, -3)] gets from
    [rebuildMeta] the centroid [(2, 1.5, -2.5)] and the normals
    [(2, -1, 1)] and [(2, 3, -3)].  On a new renderer the centroid has
    [z < -1] and its dot product with the first normal is 0, so the claim
    has the face drawn; the code takes the dot product with the normalised
    first normal, which is rounded to [2^-52 > 0], and with the second
    normal, which is 16, and appends nothing. *)
Lemma bufferShape_culls_zero_dot_counterexample :
  let vs :=
    [Double.P3 3 2 (-2); Double.P3 2 0 (-2);
     Double.P3 3 1 (-3); Double.P3 0 3 (-3)] in
  let rd := Double.Renderer.new 640 480 in
  let tv :=
    Double.multiplyAffine
      (Double.Transform.m (Double.Camera.transform (Double.Renderer.camera rd)))
      (Double.Transform.m (Double.Renderer.transform rd)) in
  ∃ face cen nrm1 nrm2,
    Double.rebuildMeta
      (Double.mkShape vs [Double.newQuadFace 0 1 2 (Some 3%nat)])
    = Some (Double.mkShape vs [face]) ∧
    Double.centroid face = Some cen ∧
    Double.normal1 face = Some nrm1 ∧
    Double.normal2 face = Some nrm2 ∧
    Double.Renderer.quad_callback rd = None ∧
    Double.claimed_face_drawn (Double.Renderer.draw_backfaces rd) tv
      cen nrm1 nrm2 ∧
    Double.dotProduct3d (Double.transformPoint tv cen)
      (Double.transformPoint (Double.transAdjoint tv) nrm1) = 0 ∧
    Double.dotProduct3d (Double.transformPoint tv cen)
      (Double.unitVector3d
         (Double.transformPoint (Double.transAdjoint tv) nrm1)) = 0x1p-52 ∧
    Double.Renderer.bufferShape rd (Double.mkShape vs [face]) = Some rd ∧
    Double.Renderer.buffered_quads_ rd = [].
Proof.
  cbv zeta.
  exists (Double.mkQuadFace 0 1 2 (Some 3%nat)
            (Some (Double.P3 2 1.5 (-2.5)))
            (Some (Double.P3 2 (-1) 1))
            (Some (Double.P3 2 3 (-3)))),
    (Double.P3 2 1.5 (-2.5)), (Double.P3 2 (-1) 1), (Double.P3 2 3 (-3)).
  split; [vm_compute; reflexivity|].
  split; [reflexivity|]. split; [reflexivity|]. split; [reflexivity|].
  split; [reflexivity|]. split.
  - split; [vm_compute; reflexivity|].
    right. intros [H _]. vm_compute in H. discriminate.
  - split; [vm_compute; reflexivity|]. split; [vm_compute; reflexivity|].
    split; [vm_compute; reflexivity | reflexivity].
Qed.

(** C2, amended: without a [quad_callback] and with the metadata of every
    face set, [bufferShape] appends to the buffer, going through the faces
    in order, one entry for each face for which, in the double-precision
    arithmetic of the code, the centroid transformed by the camera matrix
    times the object matrix fails the test [z >= -1] and, unless
    [draw_backfaces] is set, the dot products of that centroid with the
    first normal, transformed by the adjoint transpose and normalised, and
    with the second normal, transformed by the adjoint transpose, are not
    both greater than 0; it appends nothing for the other faces and changes
    nothing else. *)
Theorem bufferShape_buffers_drawn_faces (rd : Double.Renderer.t)
  (shape : Double.Shape) :
  Double.Renderer.quad_callback rd = None →
  Forall Double.face_has_meta (Double.quads shape) →
  ∃ es,
    Double.Renderer.bufferShape rd shape
    = Some (Double.Renderer.set_buffered_quads
              (Double.Renderer.buffered_quads_ rd ++ es) rd) ∧
    Double.buffered (Double.Renderer.draw_backfaces rd)
      (Double.multiplyAffine
         (Double.Transform.m
            (Double.Camera.transform (Double.Renderer.camera rd)))
         (Double.Transform.m (Double.Renderer.transform rd)))
      (Double.quads shape) es.
Proof.
  intros Hcb Hm. unfold Double.Renderer.bufferShape. rewrite Hcb.
  apply (bufferShape_loop _ _ _ shape (Double.quads shape) [] rd); done.
Qed.

Lemma bufferShape_buffers_drawn_faces_witness :
  let shape :=
    Double.mkShape
      [Double.P3 0 0 0; Double.P3 1 0 0; Double.P3 1 1 0; Double.P3 0 1 0]
      [Double.mkQuadFace 0 1 2 (Some 3%nat)
         (Some (Double.P3 0.5 0.5 0)) (Some (Double.P3 0 0 1))
         (Some (Double.P3 0 0 1))] in
  let rd :=
    Double.Renderer.mk true false
      (Double.mkRenderState true None (Some (Double.RGBA.mk 1 0 0 1))
         None None None)
      (Double.Camera.mk
         (Double.Transform.translate 0 0 (-12) Double.Transform.new) 11)
      Double.Transform.new None 640 480 240 320 [] in
  ∃ es,
    Double.Renderer.bufferShape rd shape
    = Some (Double.Renderer.set_buffered_quads
              (Double.Renderer.buffered_quads_ rd ++ es) rd) ∧
    Double.buffered (Double.Renderer.draw_backfaces rd)
      (Double.multiplyAffine
         (Double.Transform.m
            (Double.Camera.transform (Double.Renderer.camera rd)))
         (Double.Transform.m (Double.Renderer.transform rd)))
      (Double.quads shape) es.
Proof.
  intros shape rd. apply (bufferShape_buffers_drawn_faces rd shape).
  - reflexivity.
  - repeat constructor; eexists; reflexivity.
Defined.

End BufferShape.

(** ** ShapeUtils: the Extruder *)

Lemma face_in_bounds_indices (n : nat) (qf : QuadFace) :
  face_in_bounds n qf ↔ indices_in_bounds n (face_indices qf).
Proof. reflexivity. Qed.

Lemma indices_in_bounds_mono (n n' : nat) (t : nat * nat * nat * option nat) :
  (n ≤ n')%nat → indices_in_bounds n t → indices_in_bounds n' t.
Proof.
  destruct t as [[[j0 j1] j2] o3]. intros Hn (H0 & H1 & H2 & H3).
  repeat split; try lia. intros j3 E. specialize (H3 j3 E). lia.
Qed.

(** One step of the extrusion of a quad: four vertices appended, four side
    faces appended, and the face at [k] moved onto the new vertices. *)
Lemma extrudeStep_quad (ex : Extruder.t) (k : nat)
  (oc sn in0 in1 in2 in3 : Point3d) (vs : list Point3d)
  (qs0 news : list QuadFace) (face : QuadFace) (j3 zi : nat) :
  (k < length qs0)%nat →
  i3 face = Some j3 →
  ∃ c0 c1 c2 c3 face' ns,
    Extruder.extrudeStep ex k oc sn in0 in1 in2 (Some in3)
      (vs, <[k := face]> qs0 ++ news) zi
    = Some (vs ++ [c0; c1; c2; c3], <[k := face']> qs0 ++ (news ++ ns)) ∧
    face_indices face'
    = (length vs, (length vs + 1)%nat, (length vs + 2)%nat,
       Some (length vs + 3)%nat) ∧
    face_indices <$> ns
    = side_faces (i0 face) (i1 face) (i2 face) j3 (length vs).
Proof.
  intros Hk E3. unfold Extruder.extrudeStep.
  assert (Hl : (<[k := face]> qs0 ++ news) !! k = Some face).
  { rewrite lookup_app_l by (rewrite length_insert; lia).
    apply list_lookup_insert_eq; lia. }
  rewrite Hl. cbn [mbind option_bind]. rewrite E3. cbn [mbind option_bind].
  do 6 eexists. split; [|split].
  - f_equal. f_equal.
    + rewrite <- app_assoc. reflexivity.
    + rewrite insert_app_l by (rewrite length_app, length_insert; lia).
      rewrite insert_app_l by (rewrite length_insert; lia).
      rewrite list_insert_insert_eq, <- app_assoc. reflexivity.
  - reflexivity.
  - reflexivity.
Qed.

Lemma side_faces_in_bounds (a b c d base n : nat) :
  (a < n)%nat → (b < n)%nat → (c < n)%nat → (d < n)%nat →
  (base + 3 < n)%nat →
  Forall (indices_in_bounds n) (side_faces a b c d base).
Proof.
  intros. unfold side_faces, indices_in_bounds.
  repeat (apply Forall_cons_2 || apply Forall_nil_2);
    repeat split; try lia; intros ? [= <-]; lia.
Qed.

(** C6: on a shape in bounds with its metadata set, where the selector
    selects exactly the quad face at index [k], [extrude] with [count = 3]
    appends 12 vertices and 12 side faces, all quads, four per step, each
    step joining the corners of the previous one to its four new corners;
    every other original face keeps its indices; the face at [k] ends as
    the quad over the last four vertices, those created by the third step,
    and every index of the result is in bounds. *)
Theorem extrude_single_quad_three_steps (ex : Extruder.t) (shape : Shape)
  (k : nat) (face : QuadFace) (j3 : nat) :
  Extruder.count ex = 3%nat →
  shape_in_bounds shape →
  Forall face_has_meta (quads shape) →
  List.filter (Extruder.selector_ ex shape) (seq 0 (length (quads shape)))
  = [k] →
  quads shape !! k = Some face →
  i3 face = Some j3 →
  let nv := length (vertices shape) in
  let cap := ((nv + 8)%nat, (nv + 9)%nat, (nv + 10)%nat, Some (nv + 11)%nat) in
  ∃ shape' new_vs,
    Extruder.extrude ex shape = Some shape' ∧
    vertices shape' = vertices shape ++ new_vs ∧
    length new_vs = 12%nat ∧
    face_indices <$> quads shape'
    = <[k := cap]> (face_indices <$> quads shape)
      ++ side_faces (i0 face) (i1 face) (i2 face) j3 nv
      ++ side_faces nv (nv + 1) (nv + 2) (nv + 3) (nv + 4)
      ++ side_faces (nv + 4) (nv + 5) (nv + 6) (nv + 7) (nv + 8) ∧
    length (quads shape') = (length (quads shape) + 12)%nat ∧
    (∀ j qf, j ≠ k → quads shape !! j = Some qf →
             face_indices <$> quads shape' !! j = Some (face_indices qf)) ∧
    face_indices <$> quads shape' !! k = Some cap ∧
    Forall (indices_in_bounds (length (vertices shape')))
      (face_indices <$> quads shape').
Proof.
  intros Hcount Hb Hm Hsel Hk E3 nv cap.
  pose proof (lookup_lt_Some _ _ _ Hk) as Hklt.
  pose proof (Forall_lookup_1 _ _ _ _ Hb Hk) as (B0 & B1 & B2 & B3).
  specialize (B3 j3 E3).
  pose proof (Forall_lookup_1 _ _ _ _ Hm Hk)
    as ((cen & Ec) & (nrm1 & En1) & (nrm2 & En2)).
  apply lookup_lt_is_Some_2 in B0 as Hv0. destruct Hv0 as [vert0 Ev0].
  apply lookup_lt_is_Some_2 in B1 as Hv1. destruct Hv1 as [vert1 Ev1].
  apply lookup_lt_is_Some_2 in B2 as Hv2. destruct Hv2 as [vert2 Ev2].
  apply lookup_lt_is_Some_2 in B3 as Hv3. destruct Hv3 as [vert3 Ev3].
  unfold Extruder.extrude. rewrite Hsel. cbn [for_loop].
  unfold Extruder.extrudeFace.
  rewrite Hk. cbn [mbind option_bind].
  rewrite Ec, En1, En2. cbn [mbind option_bind].
  rewrite Ev0, Ev1, Ev2. cbn [mbind option_bind].
  rewrite E3, Ev3. cbn [mbind option_bind].
  rewrite Hcount.
  cbn [seq for_loop].
  destruct (extrudeStep_quad ex k cen
              (unitVector3d (addPoints3d nrm1 nrm2)) (subPoints3d vert0 cen)
              (subPoints3d vert1 cen) (subPoints3d vert2 cen)
              (subPoints3d vert3 cen) (vertices shape) (quads shape) []
              face j3 0 Hklt E3)
    as (a0 & a1 & a2 & a3 & f1 & ns1 & Hs1 & Hf1 & Hns1).
  rewrite app_nil_r, (list_insert_id _ _ _ Hk) in Hs1. rewrite Hs1.
  fold nv in Hf1, Hns1.
  assert (E31 : i3 f1 = Some (nv + 3)%nat)
    by (unfold face_indices in Hf1; congruence).
  destruct (extrudeStep_quad ex k cen
              (unitVector3d (addPoints3d nrm1 nrm2)) (subPoints3d vert0 cen)
              (subPoints3d vert1 cen) (subPoints3d vert2 cen)
              (subPoints3d vert3 cen) (vertices shape ++ [a0; a1; a2; a3])
              (quads shape) ([] ++ ns1) f1 _ 1 Hklt E31)
    as (b0 & b1 & b2 & b3 & f2 & ns2 & -> & Hf2 & Hns2).
  assert (L1 : length (vertices shape ++ [a0; a1; a2; a3]) = (nv + 4)%nat)
    by (rewrite length_app; reflexivity).
  rewrite L1 in Hf2. rewrite L1 in Hns2.
  assert (E32 : i3 f2 = Some (nv + 4 + 3)%nat)
    by (unfold face_indices in Hf2; congruence).
  destruct (extrudeStep_quad ex k cen
              (unitVector3d (addPoints3d nrm1 nrm2)) (subPoints3d vert0 cen)
              (subPoints3d vert1 cen) (subPoints3d vert2 cen)
              (subPoints3d vert3 cen)
              ((vertices shape ++ [a0; a1; a2; a3]) ++ [b0; b1; b2; b3])
              (quads shape) (([] ++ ns1) ++ ns2) f2 _ 2 Hklt E32)
    as (c0 & c1 & c2 & c3 & f3 & ns3 & -> & Hf3 & Hns3).
  cbn [mbind option_bind].
  assert (L2 : length ((vertices shape ++ [a0; a1; a2; a3])
                       ++ [b0; b1; b2; b3]) = (nv + 8)%nat)
    by (rewrite !length_app; simpl; unfold nv; lia).
  rewrite L2 in Hf3. rewrite L2 in Hns3.
  unfold face_indices in Hf1, Hf2.
  injection Hf1 as I10 I11 I12 I13. injection Hf2 as I20 I21 I22 I23.
  rewrite I10, I11, I12 in Hns2. rewrite I20, I21, I22 in Hns3.
  set (vs3 := ((vertices shape ++ [a0; a1; a2; a3]) ++ [b0; b1; b2; b3])
              ++ [c0; c1; c2; c3]).
  set (qs3 := <[k := f3]> (quads shape) ++ (([] ++ ns1) ++ ns2) ++ ns3).
  assert (Hidx3 : face_indices <$> qs3
    = <[k := cap]> (face_indices <$> quads shape)
      ++ side_faces (i0 face) (i1 face) (i2 face) j3 nv
      ++ side_faces nv (nv + 1) (nv + 2) (nv + 3) (nv + 4)
      ++ side_faces (nv + 4) (nv + 5) (nv + 6) (nv + 7) (nv + 8)).
  { unfold qs3. rewrite !fmap_app, list_fmap_insert, Hns1, Hns2, Hns3, Hf3.
    simpl. unfold cap.
    replace (nv + 4 + 4)%nat with (nv + 8)%nat by lia.
    replace (nv + 4 + 1)%nat with (nv + 5)%nat by lia.
    replace (nv + 4 + 2)%nat with (nv + 6)%nat by lia.
    replace (nv + 4 + 3)%nat with (nv + 7)%nat by lia.
    replace (nv + 8 + 1)%nat with (nv + 9)%nat by lia.
    replace (nv + 8 + 2)%nat with (nv + 10)%nat by lia.
    replace (nv + 8 + 3)%nat with (nv + 11)%nat by lia.
    rewrite <- ?app_assoc. reflexivity. }
  assert (Hlen3 : length vs3 = (nv + 12)%nat)
    by (unfold vs3; rewrite !length_app; simpl; fold nv; lia).
  assert (Hb3 : Forall (indices_in_bounds (length vs3)) (face_indices <$> qs3)).
  { rewrite Hidx3, Hlen3. rewrite !Forall_app. repeat split.
    - apply Forall_insert.
      + apply Forall_fmap. eapply Forall_impl; [exact Hb|].
        intros qf Hqf. unfold compose.
        apply (indices_in_bounds_mono nv); [lia | exact Hqf].
      + unfold cap, indices_in_bounds. repeat split; try lia.
        intros ? [= <-]. lia.
    - apply side_faces_in_bounds; fold nv in B0, B1, B2, B3; lia.
    - apply side_faces_in_bounds; lia.
    - apply side_faces_in_bounds; lia. }
  assert (Hb3' : Forall (face_in_bounds (length vs3)) qs3).
  { rewrite Forall_fmap in Hb3. eapply Forall_impl; [exact Hb3|].
    intros qf Hqf. apply face_in_bounds_indices. exact Hqf. }
  destruct (mapM_rebuildMetaFace _ _ Hb3') as (qs' & E' & _).
  unfold rebuildMeta. cbn [vertices quads]. fold vs3 qs3. rewrite E'.
  cbn [mbind option_bind].
  pose proof (mapM_rebuildMetaFace_indices _ _ _ E') as Hidx'.
  exists (mkShape vs3 qs'), ([a0; a1; a2; a3] ++ [b0; b1; b2; b3]
                              ++ [c0; c1; c2; c3]).
  cbn [vertices quads].
  assert (Hfinal : face_indices <$> qs'
    = <[k := cap]> (face_indices <$> quads shape)
      ++ side_faces (i0 face) (i1 face) (i2 face) j3 nv
      ++ side_faces nv (nv + 1) (nv + 2) (nv + 3) (nv + 4)
      ++ side_faces (nv + 4) (nv + 5) (nv + 6) (nv + 7) (nv + 8))
    by (rewrite Hidx'; exact Hidx3).
  assert (Hklt' : (k < length (face_indices <$> quads shape))%nat)
    by (rewrite length_fmap; exact Hklt).
  split; [reflexivity|].
  split; [unfold vs3; rewrite <- !app_assoc; reflexivity|].
  split; [reflexivity|].
  split; [exact Hfinal|].
  split.
  { rewrite <- (length_fmap face_indices qs'), Hfinal.
    rewrite !length_app, length_insert, length_fmap. simpl. lia. }
  split.
  { intros j qf Hj Hqf. rewrite <- list_lookup_fmap, Hfinal.
    rewrite lookup_app_l
      by (rewrite length_insert, length_fmap; eapply lookup_lt_Some; eauto).
    rewrite list_lookup_insert_ne by done.
    rewrite list_lookup_fmap, Hqf. reflexivity. }
  split.
  { rewrite <- list_lookup_fmap, Hfinal.
    rewrite lookup_app_l by (rewrite length_insert; exact Hklt').
    apply list_lookup_insert_eq. exact Hklt'. }
  rewrite Hidx'. exact Hb3.
Qed.

Lemma extrude_single_quad_three_steps_witness :
  let face :=
    mkQuadFace 0 1 2 (Some 3%nat)
      (Some (P3 0.5 0.5 0)) (Some (P3 0 0 1)) (Some (P3 0 0 1)) in
  let shape :=
    mkShape [P3 0 0 0; P3 1 0 0; P3 1 1 0; P3 0 1 0]
      [face;
       mkQuadFace 0 2 1 None
         (Some (P3 (2 / 3) (1 / 3) 0)) (Some (P3 0 0 (-1)))
         (Some (P3 0 0 (-1)))] in
  let ex :=
    Extruder.set_count 3
      (Extruder.selectCustom (λ _ quad_index, Nat.eqb quad_index 0)
         Extruder.new) in
  let nv := length (vertices shape) in
  let cap := ((nv + 8)%nat, (nv + 9)%nat, (nv + 10)%nat, Some (nv + 11)%nat) in
  ∃ shape' new_vs,
    Extruder.extrude ex shape = Some shape' ∧
    vertices shape' = vertices shape ++ new_vs ∧
    length new_vs = 12%nat ∧
    face_indices <$> quads shape'
    = <[0%nat := cap]> (face_indices <$> quads shape)
      ++ side_faces (i0 face) (i1 face) (i2 face) 3 nv
      ++ side_faces nv (nv + 1) (nv + 2) (nv + 3) (nv + 4)
      ++ side_faces (nv + 4) (nv + 5) (nv + 6) (nv + 7) (nv + 8) ∧
    length (quads shape') = (length (quads shape) + 12)%nat ∧
    (∀ j qf, j ≠ 0%nat → quads shape !! j = Some qf →
             face_indices <$> quads shape' !! j = Some (face_indices qf)) ∧
    face_indices <$> quads shape' !! 0%nat = Some cap ∧
    Forall (indices_in_bounds (length (vertices shape')))
      (face_indices <$> quads shape').
Proof.
  intros face shape ex.
  apply (extrude_single_quad_three_steps ex shape 0 face 3).
  - reflexivity.
  - unfold shape_in_bounds, face_in_bounds, shape, face. simpl.
    solve_in_bounds; discriminate.
  - repeat constructor; eexists; reflexivity.
  - reflexivity.
  - reflexivity.
  - reflexivity.
Defined.

(** ** ShapeUtils: linearSubdivide on the cube *)

Ltac find_point :=
  first
    [ solve [apply elem_of_cons; left; apply Point3d_eq; cbn [x y z]; lra]
    | apply list_elem_of_further; find_point ].

Ltac points_differ H :=
  repeat (apply elem_of_cons in H as [H | H];
          [injection H; intros; lra |]);
  by apply elem_of_nil in H.

(** C5: [makeCube(1)] has 8 vertices and 6 quad faces, and one pass of
    [linearSubdivide] over it yields 24 quad faces and 26 vertices: the 8
    original ones first, and 18 new ones that hold the midpoint of every
    edge of every face and the centroid of every face; no two of the 26
    vertices coincide, so the two faces on either side of an edge share the
    one vertex at its midpoint. *)
Theorem linearSubdivide_cube :
  ∃ cube s,
    makeCube 1 = Some cube ∧
    length (vertices cube) = 8%nat ∧
    length (quads cube) = 6%nat ∧
    Forall (λ qf, is_Some (i3 qf)) (quads cube) ∧
    linearSubdivide cube = Some s ∧
    length (quads s) = 24%nat ∧
    Forall (λ qf, is_Some (i3 qf)) (quads s) ∧
    length (vertices s) = 26%nat ∧
    take 8 (vertices s) = vertices cube ∧
    Forall (λ e, ∃ p, p ∈ drop 8 (vertices s) ∧
                      is_edge_midpoint (vertices cube) p e)
      (quads cube ≫= face_edges) ∧
    Forall (λ qf, ∃ p, p ∈ drop 8 (vertices s) ∧
                       is_face_centroid (vertices cube) p qf)
      (quads cube) ∧
    NoDup (vertices s).
Proof.
  eexists _, _.
  split; [vm_compute; reflexivity|].
  split; [reflexivity|].
  split; [reflexivity|].
  split; [repeat constructor; eexists; reflexivity|].
  split; [vm_compute; reflexivity|].
  split; [reflexivity|].
  split; [repeat constructor; eexists; reflexivity|].
  split; [reflexivity|].
  split; [reflexivity|].
  split.
  { cbn [quads mbind list_bind face_edges i0 i1 i2 i3 app].
    repeat (apply Forall_cons_2 || apply Forall_nil_2);
      (eexists; split;
       [|eexists _, _; split; [reflexivity|]; split; [reflexivity|];
         reflexivity]);
      cbn [drop vertices]; unfold midpoint; find_point. }
  split.
  { cbn [quads].
    repeat (apply Forall_cons_2 || apply Forall_nil_2);
      (eexists; split;
       [|eexists _, _, _, _, _; split; [reflexivity|];
         split; [reflexivity|]; split; [reflexivity|];
         split; [reflexivity|]; split; [reflexivity|]; reflexivity]);
      cbn [drop vertices]; unfold average4; find_point. }
  repeat (apply NoDup_cons_2;
          [let H := fresh in intros H; points_differ H|]).
  apply NoDup_nil_2.
Qed.

(** ** Renderer: the transform stack *)
Section TransformStackProperties.
Import TransformStack.

Lemma fresh_matrix_not_live (s : Store) (l : nat) :
  is_Some (matrices s !! l) → fresh (dom (matrices s)) ≠ l.
Proof.
  intros H%elem_of_dom Heq. rewrite <- Heq in H.
  exact (is_fresh _ H).
Qed.

Lemma fresh_transform_not_live (s : Store) (l : nat) :
  is_Some (transforms s !! l) → fresh (dom (transforms s)) ≠ l.
Proof.
  intros H%elem_of_dom Heq. rewrite <- Heq in H.
  exact (is_fresh _ H).
Qed.

(** Pointing [tr] to a newly allocated matrix. *)
Lemma assign_new_matrix (v : AffineMatrix) (tm l1 : nat) (a : AffineMatrix)
  (tr : nat) (s : Store) :
  saved_intact tm l1 a tr s →
  let s' := set_m tr (alloc_matrix v s).1 (alloc_matrix v s).2 in
  saved_intact tm l1 a tr s' ∧ ∀ o, live s o → live s' o.
Proof.
  intros (Htm & Hl1 & Hne & mref & Htr & Hmne & Hm) s'.
  assert (Hf1 : fresh (dom (matrices s)) ≠ l1)
    by (apply fresh_matrix_not_live; eauto).
  unfold s', set_m, alloc_matrix; simpl. split.
  - repeat split; simpl.
    + rewrite lookup_insert_ne by done. exact Htm.
    + rewrite lookup_insert_ne by done. exact Hl1.
    + exact Hne.
    + exists (fresh (dom (matrices s))). split; [|split; [done|]].
      * apply lookup_insert_eq.
      * rewrite lookup_insert_eq. eauto.
  - intros o (mo & Ho & Hmo). unfold live; simpl.
    destruct (decide (tr = o)) as [<- | Hno].
    + exists (fresh (dom (matrices s))).
      rewrite !lookup_insert_eq. eauto.
    + exists mo. rewrite lookup_insert_ne by done. split; [done|].
      apply lookup_insert_is_Some'. by right.
Qed.

Lemma assign_m_intact (f : AffineMatrix → AffineMatrix) (tm l1 : nat)
  (a : AffineMatrix) (tr : nat) (s : Store) :
  saved_intact tm l1 a tr s →
  ∃ s', assign_m f tr s = Some s' ∧
        saved_intact tm l1 a tr s' ∧ ∀ o, live s o → live s' o.
Proof.
  intros Hinv.
  destruct Hinv as (Htm & Hl1 & Hne & mref & Htr & Hmne & [b Hb]).
  unfold assign_m, read_m. rewrite Htr. simpl. rewrite Hb. simpl.
  eexists. split; [reflexivity|].
  apply (assign_new_matrix (f b) tm l1 a tr s).
  repeat split; eauto.
Qed.

(** Every method keeps the saved copy intact, and does not throw when the
    argument of [multTransform] is an object of the store. *)
Lemma exec_intact (o : Op) (tm l1 : nat) (a : AffineMatrix) (tr : nat)
  (s : Store) :
  saved_intact tm l1 a tr s →
  op_ok s o →
  ∃ s', exec o tr s = Some s' ∧
        saved_intact tm l1 a tr s' ∧ ∀ o', live s o' → live s' o'.
Proof.
  intros Hinv Hok.
  destruct o; simpl; try (apply assign_m_intact; exact Hinv).
  - destruct Hinv as (Htm & Hl1 & Hne & mref & Htr & Hmne & Hm).
    rewrite Htr. simpl. eexists. split; [reflexivity|].
    apply (assign_new_matrix makeIdentityAffine tm l1 a tr s).
    repeat split; eauto.
  - destruct Hok as (mo & Ho & [b Hb]).
    unfold read_m at 1. rewrite Ho. simpl. rewrite Hb. simpl.
    apply assign_m_intact; exact Hinv.
  - destruct Hinv as (Htm & Hl1 & Hne & mref & Htr & Hmne & [b Hb]).
    rewrite Htr. simpl. rewrite Hb. simpl.
    eexists. split; [reflexivity|]. split.
    + repeat split; simpl; try done.
      * rewrite lookup_insert_ne by done. exact Hl1.
      * exists mref. split; [done|]. split; [done|].
        rewrite lookup_insert_eq. eauto.
    + intros o' (mo & Ho & Hmo). exists mo. simpl. split; [done|].
      apply lookup_insert_is_Some'. by right.
Qed.

Lemma op_ok_live (s s' : Store) (o : Op) :
  (∀ o', live s o' → live s' o') → op_ok s o → op_ok s' o.
Proof. intros Hl. destruct o; simpl; auto. Qed.

Lemma run_intact (ops : list Op) (s0 : Store) :
  Forall (op_ok s0) ops →
  ∀ (tm l1 : nat) (a : AffineMatrix) (tr : nat) (s : Store)
    (stack : list nat),
    saved_intact tm l1 a tr s →
    (∀ o, live s0 o → live s o) →
    ∃ s', run ops (mk s (Some tr) stack) = Some (mk s' (Some tr) stack) ∧
          saved_intact tm l1 a tr s'.
Proof.
  induction 1 as [|o ops Ho _ IH]; intros tm l1 a tr s stack Hinv Hlive.
  - exists s. split; [reflexivity | exact Hinv].
  - destruct (exec_intact o tm l1 a tr s Hinv (op_ok_live _ _ _ Hlive Ho))
      as (s1 & E1 & Hinv1 & Hlive1).
    destruct (IH tm l1 a tr s1 stack Hinv1 (λ o' H, Hlive1 o' (Hlive o' H)))
      as (s' & E' & Hinv').
    exists s'. split; [|exact Hinv'].
    simpl. unfold call. simpl. rewrite E1. simpl. exact E'.
Qed.

(** [pushTransform] saves a Transform object and a matrix object that are
    both new. *)
Lemma pushTransform_saves (rd : t) (tr : nat) (a : AffineMatrix) :
  transform rd = Some tr →
  read_m tr (store rd) = Some a →
  ∃ tm l1 s1,
    pushTransform rd = Some (mk s1 (Some tr) (transform_stack_ rd ++ [tm])) ∧
    saved_intact tm l1 (dupAffine a) tr s1 ∧
    ∀ o, live (store rd) o → live s1 o.
Proof.
  intros Htr Hread. unfold read_m in Hread.
  destruct (transforms (store rd) !! tr) as [mref|] eqn:Emref; [|done].
  simpl in Hread.
  set (s := store rd) in *.
  set (l0 := fresh (dom (matrices s))).
  set (tm := fresh (dom (transforms s))).
  set (l1 := fresh (dom (<[l0 := makeIdentityAffine]> (matrices s)))).
  assert (Hl0 : l0 ≠ mref) by (apply fresh_matrix_not_live; eauto).
  assert (Htm : tm ≠ tr) by (apply fresh_transform_not_live; eauto).
  assert (Hl1 : l1 ≠ mref).
  { intros Heq. apply (is_fresh (dom (<[l0 := makeIdentityAffine]> (matrices s)))).
    fold l1. rewrite Heq. apply elem_of_dom.
    rewrite lookup_insert_ne by done. eauto. }
  exists tm, l1. eexists.
  split.
  { unfold pushTransform. rewrite Htr. simpl.
    unfold dup, alloc_matrix, alloc_transform, read_m. simpl. fold s l0 tm.
    rewrite lookup_insert_ne by done. rewrite Emref. simpl.
    rewrite lookup_insert_ne by done. rewrite Hread. simpl.
    fold l1. reflexivity. }
  split.
  - repeat split; simpl.
    + apply lookup_insert_eq.
    + apply lookup_insert_eq.
    + exact Htm.
    + exists mref. split; [|split; [by apply not_eq_sym|]].
      * rewrite !lookup_insert_ne by done. exact Emref.
      * rewrite !lookup_insert_ne by done. eauto.
  - intros o (mo & Ho & Hmo). exists mo. simpl. split.
    + assert (tm ≠ o) by (apply fresh_transform_not_live; eauto).
      rewrite !lookup_insert_ne by done. exact Ho.
    + apply lookup_insert_is_Some'. right.
      apply lookup_insert_is_Some'. by right.
Qed.

(** C10: [pushTransform], then any sequence of calls of the methods that
    change the current transform, then [popTransform], leaves the renderer
    with a current matrix equal to the one before the push, and with the
    stack as it was.  The saved Transform is a deep copy: it is not the
    current Transform, and its matrix is [M] right after the push and still
    [M] after the calls. *)
Theorem push_ops_pop_restores_matrix (rd : t) (M : AffineMatrix)
  (ops : list Op) :
  current_matrix rd = Some M →
  Forall (op_ok (store rd)) ops →
  ∃ rd1 rd2 saved,
    pushTransform rd = Some rd1 ∧
    run ops rd1 = Some rd2 ∧
    last (transform_stack_ rd1) = Some saved ∧
    last (transform_stack_ rd2) = Some saved ∧
    transform rd2 ≠ Some saved ∧
    read_m saved (store rd1) = Some M ∧
    read_m saved (store rd2) = Some M ∧
    current_matrix (popTransform rd2) = Some M ∧
    transform_stack_ (popTransform rd2) = transform_stack_ rd.
Proof.
  intros Hcur Hops. unfold current_matrix in Hcur.
  destruct (transform rd) as [tr|] eqn:Etr; [|done]. simpl in Hcur.
  destruct (pushTransform_saves rd tr M Etr Hcur)
    as (tm & l1 & s1 & Epush & Hinv1 & Hlive1).
  rewrite dupAffine_id in Hinv1.
  destruct (run_intact ops (store rd) Hops tm l1 M tr s1
              (transform_stack_ rd ++ [tm]) Hinv1 Hlive1)
    as (s2 & Erun & Hinv2).
  assert (Hread : ∀ s, saved_intact tm l1 M tr s → read_m tm s = Some M).
  { intros s (Ht & Hl & _). unfold read_m. rewrite Ht. simpl. exact Hl. }
  eexists _, _, tm.
  split; [exact Epush|]. split; [exact Erun|]. simpl.
  split; [apply last_snoc|]. split; [apply last_snoc|].
  split; [destruct Hinv2 as (_ & _ & Hne & _); congruence|].
  split; [by apply Hread|]. split; [by apply Hread|].
  unfold current_matrix, popTransform. simpl.
  rewrite last_snoc, removelast_last. simpl.
  split; [by apply Hread | reflexivity].
Qed.

End TransformStackProperties.

Lemma push_ops_pop_restores_matrix_witness :
  let M := makeTranslateAffine 1 2 3 in
  let rd :=
    TransformStack.mk
      (TransformStack.mkStore {[ 0%nat := 0%nat ]} {[ 0%nat := M ]})
      (Some 0%nat) [] in
  let ops :=
    [ TransformStack.RotateX 1; TransformStack.Translate 0 0 (-12);
      TransformStack.MultTransform 0; TransformStack.SetDCM (P3 1 0 0)
        (P3 0 0 1) (P3 0 1 0);
      TransformStack.Reset; TransformStack.ScalePre 2 2 2 ] in
  ∃ rd1 rd2 saved,
    TransformStack.pushTransform rd = Some rd1 ∧
    TransformStack.run ops rd1 = Some rd2 ∧
    last (TransformStack.transform_stack_ rd1) = Some saved ∧
    last (TransformStack.transform_stack_ rd2) = Some saved ∧
    TransformStack.transform rd2 ≠ Some saved ∧
    TransformStack.read_m saved (TransformStack.store rd1) = Some M ∧
    TransformStack.read_m saved (TransformStack.store rd2) = Some M ∧
    TransformStack.current_matrix (TransformStack.popTransform rd2) = Some M ∧
    TransformStack.transform_stack_ (TransformStack.popTransform rd2)
    = TransformStack.transform_stack_ rd.
Proof.
  intros M rd ops. apply (push_ops_pop_restores_matrix rd M ops).
  - reflexivity.
  - repeat constructor. exists 0%nat. split; [reflexivity|].
    eexists; reflexivity.
Defined.

(** ** ShapeUtils: averageSmooth *)

(** C3 fails on the code: on a shape with a triangle, here a single
    triangle with its metadata rebuilt, [averageSmooth] throws for every
    amount, because the centroid of a face is always computed from four
    vertices and the fourth index of a triangle is [null]. *)
Theorem averageSmooth_triangle_throws :
  ∃ shape,
    rebuildMeta (mkShape [P3 0 0 0; P3 1 0 0; P3 0 1 0]
                   [newQuadFace 0 1 2 None]) = Some shape ∧
    shape_in_bounds shape ∧
    ∀ m_arg, averageSmooth shape m_arg = None.
Proof.
  eexists. split; [reflexivity|]. split.
  - unfold shape_in_bounds, face_in_bounds. simpl.
    solve_in_bounds; discriminate.
  - intros m_arg. reflexivity.
Qed.

Lemma connect_new (i : nat) (conn conn' : list (list nat)) (k : nat) :
  connect i conn k = Some conn' → connected conn' k i.
Proof.
  unfold connect. destruct (conn !! k) as [cs|] eqn:E; simpl; [|done].
  intros [= <-]. exists (cs ++ [i]). split.
  - apply list_lookup_insert_eq. eapply lookup_lt_Some; eassumption.
  - apply elem_of_app. right. apply list_elem_of_here.
Qed.

Lemma connect_mono (i : nat) (conn conn' : list (list nat)) (k v j : nat) :
  connect i conn k = Some conn' → connected conn v j → connected conn' v j.
Proof.
  unfold connect. destruct (conn !! k) as [cs|] eqn:E; simpl; [|done].
  intros [= <-] (cs' & Hv & Hj).
  destruct (decide (k = v)) as [-> | Hne].
  - exists (cs ++ [i]). split.
    + apply list_lookup_insert_eq. eapply lookup_lt_Some; eassumption.
    + apply elem_of_app. left. congruence.
  - exists cs'. split; [|done]. rewrite list_lookup_insert_ne by done. done.
Qed.

Lemma connect_length (i : nat) (conn conn' : list (list nat)) (k : nat) :
  connect i conn k = Some conn' → length conn' = length conn.
Proof.
  unfold connect. destruct (conn !! k) as [cs|]; simpl; [|done].
  intros [= <-]. apply length_insert.
Qed.

Lemma connectFace_connected (qs : list QuadFace) (conn conn' : list (list nat))
  (i : nat) (face : QuadFace) :
  connectFace qs conn i = Some conn' →
  qs !! i = Some face →
  connected conn' (i0 face) i ∧
  length conn' = length conn ∧
  ∀ v j, connected conn v j → connected conn' v j.
Proof.
  unfold connectFace. intros H Hq. rewrite Hq in H. simpl in H.
  destruct (connect i conn (i0 face)) as [c1|] eqn:E1; simpl in H; [|done].
  destruct (connect i c1 (i1 face)) as [c2|] eqn:E2; simpl in H; [|done].
  destruct (connect i c2 (i2 face)) as [c3|] eqn:E3; simpl in H; [|done].
  pose proof (connect_new _ _ _ _ E1) as H0.
  pose proof (connect_length _ _ _ _ E1) as L1.
  pose proof (connect_length _ _ _ _ E2) as L2.
  pose proof (connect_length _ _ _ _ E3) as L3.
  destruct (i3 face) as [j3|].
  - pose proof (connect_length _ _ _ _ H) as L4.
    split; [|split; [congruence|]].
    + eauto using connect_mono.
    + intros v j Hc. eauto using connect_mono.
  - injection H as <-. split; [|split; [congruence|]].
    + eauto using connect_mono.
    + intros v j Hc. eauto using connect_mono.
Qed.

Lemma connect_loop_connected (qs : list QuadFace) (idx : list nat) :
  ∀ conn conn',
    for_loop (connectFace qs) idx conn = Some conn' →
    length conn' = length conn ∧
    (∀ v j, connected conn v j → connected conn' v j) ∧
    ∀ i face, i ∈ idx → qs !! i = Some face → connected conn' (i0 face) i.
Proof.
  induction idx as [|i idx IH]; intros conn conn' H; simpl in H.
  - injection H as <-. split; [done|]. split; [done|].
    intros i face Hi. by apply elem_of_nil in Hi.
  - destruct (connectFace qs conn i) as [c1|] eqn:E1; [|done].
    destruct (IH _ _ H) as (L & Hmono & Hall).
    split; [|split].
    + destruct (qs !! i) as [face|] eqn:Eq.
      * destruct (connectFace_connected _ _ _ _ _ E1 Eq) as (_ & L1 & _).
        congruence.
      * unfold connectFace in E1. rewrite Eq in E1. done.
    + intros v j Hc. apply Hmono.
      destruct (qs !! i) as [face|] eqn:Eq.
      * destruct (connectFace_connected _ _ _ _ _ E1 Eq) as (_ & _ & Hm1).
        by apply Hm1.
      * unfold connectFace in E1. rewrite Eq in E1. done.
    + intros i' face Hi Hq. apply elem_of_cons in Hi as [-> | Hi].
      * apply Hmono.
        by destruct (connectFace_connected _ _ _ _ _ E1 Hq) as (? & _).
      * eapply Hall; eassumption.
Qed.

Lemma for_loop_throws {S : Type} (body : S → nat → option S)
  (idx : list nat) (k : nat) :
  k ∈ idx → (∀ s, body s k = None) → ∀ s, for_loop body idx s = None.
Proof.
  intros Hk Hfail. induction idx as [|i idx IH]; intros s.
  - by apply elem_of_nil in Hk.
  - simpl. apply elem_of_cons in Hk as [<- | Hk].
    + by rewrite Hfail.
    + destruct (body s i); [by apply IH | reflexivity].
Qed.

(** The failure of C3 is the same on every shape that has a triangle,
    whatever the other faces are. *)
Lemma averageSmooth_throws_on_triangle (shape : Shape) (k : nat)
  (tri : QuadFace) (m_arg : option R) :
  quads shape !! k = Some tri →
  i3 tri = None →
  averageSmooth shape m_arg = None.
Proof.
  intros Hk Htri. unfold averageSmooth.
  destruct (for_loop (connectFace (quads shape))
              (seq 0 (length (quads shape)))
              (replicate (length (vertices shape)) []))
    as [conn|] eqn:Econn; [|reflexivity].
  cbn [mbind option_bind].
  destruct (connect_loop_connected _ _ _ _ Econn) as (L & _ & Hall).
  rewrite length_replicate in L.
  assert (Hin : k ∈ seq 0 (length (quads shape))).
  { apply elem_of_seq. pose proof (lookup_lt_Some _ _ _ Hk). lia. }
  destruct (Hall k tri Hin Hk) as (cs & Hcs & Hkcs).
  pose proof (lookup_lt_Some _ _ _ Hcs) as Hlt. rewrite L in Hlt.
  destruct (mapM _ (seq 0 (length (vertices shape)))) as [new_ps|] eqn:Emap;
    [exfalso|reflexivity].
  apply mapM_Some in Emap.
  destruct (Forall2_lookup_l _ _ _ (i0 tri) (i0 tri) Emap) as (p & _ & Hp).
  { rewrite lookup_seq_lt by done. reflexivity. }
  unfold smoothVertex in Hp. rewrite Hcs in Hp. cbn [mbind option_bind] in Hp.
  rewrite (for_loop_throws _ cs k Hkcs) in Hp; [done|].
  intros avg. unfold smoothSumStep. rewrite Hk. cbn [mbind option_bind].
  unfold smoothCentroid. rewrite Htri.
  destruct (vertices shape !! i0 tri); [|reflexivity].
  destruct (vertices shape !! i1 tri); [|reflexivity].
  destruct (vertices shape !! i2 tri); reflexivity.
Qed.

Lemma averageSmooth_throws_on_triangle_witness :
  averageSmooth
    (mkShape [P3 0 0 0; P3 1 0 0; P3 1 1 0; P3 0 1 0]
       [newQuadFace 0 1 2 (Some 3%nat); newQuadFace 0 2 3 None])
    (Some 1) = None.
Proof.
  apply (averageSmooth_throws_on_triangle _ 1 (newQuadFace 0 2 3 None));
    reflexivity.
Defined.

(** On quads the smoothing is as described. *)

Lemma connect_lookup (i : nat) (conn : list (list nat)) (k : nat) :
  (k < length conn)%nat →
  ∃ conn',
    connect i conn k = Some conn' ∧
    length conn' = length conn ∧
    ∀ v cs, conn !! v = Some cs →
            conn' !! v = Some (cs ++ ((λ _, i) <$> filter (λ c, c = v) [k])).
Proof.
  intros Hk. destruct (lookup_lt_is_Some_2 _ _ Hk) as [ck Eck].
  unfold connect. rewrite Eck. simpl. eexists. split; [reflexivity|].
  split; [apply length_insert|].
  intros v cs Hv. rewrite filter_cons, filter_nil.
  destruct (decide (k = v)) as [-> | Hne]; simpl.
  - rewrite list_lookup_insert_eq by done. congruence.
  - rewrite list_lookup_insert_ne by done. by rewrite app_nil_r.
Qed.

Lemma connectFace_lookup (qs : list QuadFace) (conn : list (list nat))
  (i : nat) (face : QuadFace) :
  qs !! i = Some face →
  face_in_bounds (length conn) face →
  ∃ conn',
    connectFace qs conn i = Some conn' ∧
    length conn' = length conn ∧
    ∀ v cs, conn !! v = Some cs →
            conn' !! v
            = Some (cs ++ ((λ _, i) <$> filter (λ c, c = v) (corners face))).
Proof.
  intros Hq (B0 & B1 & B2 & B3). unfold connectFace. rewrite Hq. simpl.
  destruct (connect_lookup i conn (i0 face) B0) as (c1 & -> & L1 & H1).
  simpl. rewrite <- L1 in B1, B2, B3.
  destruct (connect_lookup i c1 (i1 face) B1) as (c2 & -> & L2 & H2).
  simpl. rewrite <- L2 in B2, B3.
  destruct (connect_lookup i c2 (i2 face) B2) as (c3 & -> & L3 & H3).
  simpl. rewrite <- L3 in B3.
  unfold corners.
  destruct (i3 face) as [j3|].
  - destruct (connect_lookup i c3 j3 (B3 j3 eq_refl)) as (c4 & -> & L4 & H4).
    eexists. split; [reflexivity|]. split; [congruence|].
    intros v cs Hv.
    rewrite (H4 _ _ (H3 _ _ (H2 _ _ (H1 _ _ Hv)))).
    f_equal. rewrite <- !app_assoc. f_equal.
    rewrite <- !fmap_app, <- !filter_app. reflexivity.
  - eexists. split; [reflexivity|]. split; [congruence|].
    intros v cs Hv.
    rewrite (H3 _ _ (H2 _ _ (H1 _ _ Hv))).
    f_equal. rewrite <- !app_assoc. f_equal.
    rewrite <- !fmap_app, <- !filter_app. reflexivity.
Qed.

Lemma connect_loop_lookup (qs rest : list QuadFace) :
  ∀ (done_ : list QuadFace) (conn : list (list nat)),
    qs = done_ ++ rest →
    Forall (face_in_bounds (length conn)) rest →
    ∃ conn',
      for_loop (connectFace qs) (seq (length done_) (length rest)) conn
      = Some conn' ∧
      length conn' = length conn ∧
      ∀ v cs, conn !! v = Some cs →
              conn' !! v = Some (cs ++ incident_from (length done_) rest v).
Proof.
  induction rest as [|face rest IH]; intros done_ conn Hq Hb.
  - exists conn. split; [reflexivity|]. split; [reflexivity|].
    intros v cs Hv. simpl. by rewrite app_nil_r.
  - apply Forall_cons in Hb as [Hface Hb].
    assert (Hi : qs !! length done_ = Some face)
      by (rewrite Hq; apply list_lookup_middle; reflexivity).
    destruct (connectFace_lookup qs conn _ face Hi Hface)
      as (c1 & E1 & L1 & H1).
    assert (Hq' : qs = (done_ ++ [face]) ++ rest)
      by (rewrite Hq, <- app_assoc; reflexivity).
    rewrite <- L1 in Hb.
    destruct (IH (done_ ++ [face]) c1 Hq' Hb) as (c2 & E2 & L2 & H2).
    rewrite length_app in E2, H2. simpl in E2, H2.
    rewrite Nat.add_1_r in E2, H2.
    exists c2. split; [|split; [congruence|]].
    + simpl. rewrite E1. exact E2.
    + intros v cs Hv. rewrite (H2 _ _ (H1 _ _ Hv)).
      simpl. by rewrite <- app_assoc.
Qed.

Lemma incident_from_valid (rest : list QuadFace) :
  ∀ (done_ : list QuadFace) (v k : nat),
    k ∈ incident_from (length done_) rest v →
    ∃ qf, (done_ ++ rest) !! k = Some qf ∧ qf ∈ rest.
Proof.
  induction rest as [|face rest IH]; intros done_ v k Hk; simpl in Hk.
  - by apply elem_of_nil in Hk.
  - apply elem_of_app in Hk as [Hk | Hk].
    + apply list_elem_of_fmap in Hk as (c & -> & _).
      exists face. split; [apply list_lookup_middle; reflexivity|].
      apply list_elem_of_here.
    + specialize (IH (done_ ++ [face]) v k).
      rewrite length_app in IH. simpl in IH. rewrite Nat.add_1_r in IH.
      destruct (IH Hk) as (qf & Hl & Hin).
      exists qf. rewrite <- app_assoc in Hl. split; [exact Hl|].
      by apply list_elem_of_further.
Qed.

Lemma smoothCentroid_quad (vs : list Point3d) (qf : QuadFace) :
  face_in_bounds (length vs) qf → is_Some (i3 qf) →
  ∃ c, smoothCentroid vs qf = Some c ∧ is_face_centroid vs c qf.
Proof.
  intros (B0 & B1 & B2 & B3) [j3 E3]. specialize (B3 j3 E3).
  destruct (lookup_lt_is_Some_2 _ _ B0) as [pa Ea].
  destruct (lookup_lt_is_Some_2 _ _ B1) as [pb Eb].
  destruct (lookup_lt_is_Some_2 _ _ B2) as [pc Ec].
  destruct (lookup_lt_is_Some_2 _ _ B3) as [pd Ed].
  unfold smoothCentroid. rewrite Ea, Eb, Ec, E3. simpl. rewrite Ed. simpl.
  eexists. split; [reflexivity|].
  exists j3, pa, pb, pc, pd. repeat split; done.
Qed.

(** The loop summing the centroids of the faces listed in [cs]. *)
Lemma smooth_sum_loop (vs : list Point3d) (qs : list QuadFace)
  (cs : list nat) :
  Forall (λ k, ∃ qf, qs !! k = Some qf ∧
                     face_in_bounds (length vs) qf ∧ is_Some (i3 qf)) cs →
  ∀ avg,
    ∃ cents,
      Forall2 (centroid_of_face vs qs) cs cents ∧
      for_loop (smoothSumStep vs qs) cs avg
      = Some (foldl addPoints3d avg cents).
Proof.
  induction 1 as [|k cs (qf & Hk & Hb & Hq) _ IH]; intros avg.
  - exists []. split; [constructor | reflexivity].
  - destruct (smoothCentroid_quad vs qf Hb Hq) as (c & Ec & Hc).
    destruct (IH (addPoints3d avg c)) as (cents & HF & E).
    exists (c :: cents). split.
    + constructor; [|exact HF]. exists qf. split; assumption.
    + simpl. unfold smoothSumStep at 1. rewrite Hk. simpl. rewrite Ec.
      simpl. exact E.
Qed.

Lemma smoothVertex_quads (vs : list Point3d) (qs : list QuadFace)
  (conn : list (list nat)) (amount : R) (i : nat) (v : Point3d) :
  Forall (face_in_bounds (length vs)) qs →
  Forall (λ qf, is_Some (i3 qf)) qs →
  conn !! i = Some (incident_faces qs i) →
  vs !! i = Some v →
  ∃ cents,
    Forall2 (centroid_of_face vs qs) (incident_faces qs i) cents ∧
    smoothVertex vs qs conn amount i
    = Some (linearInterpolatePoints3d v (averagePoints cents) amount).
Proof.
  intros Hb Hq Hconn Hv.
  assert (Hvalid : Forall (λ k, ∃ qf, qs !! k = Some qf ∧
                     face_in_bounds (length vs) qf ∧ is_Some (i3 qf))
                     (incident_faces qs i)).
  { apply Forall_forall. intros k Hk.
    destruct (incident_from_valid qs [] i k Hk) as (qf & Hl & Hin).
    exists qf. split; [exact Hl|].
    rewrite Forall_forall in Hb, Hq. split; auto. }
  destruct (smooth_sum_loop vs qs _ Hvalid (P3 0 0 0)) as (cents & HF & E).
  exists cents. split; [exact HF|].
  unfold smoothVertex. rewrite Hconn. simpl. rewrite E. simpl.
  rewrite Hv. simpl. rewrite (Forall2_length _ _ _ HF). reflexivity.
Qed.

(** On a shape in bounds all of whose faces are quads, [averageSmooth]
    returns a shape with the same faces in which every vertex is the
    interpolation, by the amount, between its old position and the average
    of the centroids of the faces that reference it, all computed from the
    old positions. *)
Lemma averageSmooth_quads (shape : Shape) (amount : R) :
  shape_in_bounds shape →
  Forall (λ qf, is_Some (i3 qf)) (quads shape) →
  ∃ shape',
    averageSmooth shape (Some amount) = Some shape' ∧
    length (vertices shape') = length (vertices shape) ∧
    face_indices <$> quads shape' = face_indices <$> quads shape ∧
    ∀ i v,
      vertices shape !! i = Some v →
      ∃ cents,
        Forall2 (centroid_of_face (vertices shape) (quads shape))
          (incident_faces (quads shape) i) cents ∧
        vertices shape' !! i
        = Some (linearInterpolatePoints3d v (averagePoints cents) amount).
Proof.
  intros Hb Hq. unfold averageSmooth.
  change (default 1 (Some amount)) with amount.
  set (vs := vertices shape). set (qs := quads shape).
  assert (Hb0 : Forall (face_in_bounds (length (replicate (length vs)
                          ([] : list nat)))) qs)
    by (rewrite length_replicate; exact Hb).
  destruct (connect_loop_lookup qs qs [] _ eq_refl Hb0) as (conn & Ec & L & H).
  simpl in Ec. rewrite Ec. cbn [mbind option_bind].
  rewrite length_replicate in L.
  assert (Hconn : ∀ i, (i < length vs)%nat →
                       conn !! i = Some (incident_faces qs i)).
  { intros i Hi. apply (H i []). by apply lookup_replicate_2. }
  assert (Hsome : is_Some (mapM (smoothVertex vs qs conn amount)
                             (seq 0 (length vs)))).
  { apply mapM_is_Some_2, Forall_forall. intros i Hi.
    apply elem_of_seq in Hi.
    destruct (lookup_lt_is_Some_2 vs i ltac:(lia)) as [v Hv].
    destruct (smoothVertex_quads vs qs conn amount i v Hb Hq
                (Hconn i ltac:(lia)) Hv) as (cents & _ & E).
    unfold compose. rewrite E. eauto. }
  destruct Hsome as [new_ps Enew]. rewrite Enew. cbn [mbind option_bind].
  pose proof Enew as HF. apply mapM_Some in HF.
  pose proof (Forall2_length _ _ _ HF) as Llen. rewrite length_seq in Llen.
  assert (Hb' : Forall (face_in_bounds (length new_ps)) qs)
    by (rewrite <- Llen; exact Hb).
  destruct (mapM_rebuildMetaFace new_ps qs Hb') as (qs' & E' & _).
  unfold rebuildMeta. cbn [vertices quads]. rewrite E'.
  cbn [mbind option_bind].
  eexists. split; [reflexivity|]. cbn [vertices quads].
  split; [by symmetry|].
  split; [exact (mapM_rebuildMetaFace_indices _ _ _ E')|].
  intros i v Hv. pose proof (lookup_lt_Some _ _ _ Hv) as Hi.
  destruct (smoothVertex_quads vs qs conn amount i v Hb Hq (Hconn i Hi) Hv)
    as (cents & HFc & E).
  exists cents. split; [exact HFc|].
  destruct (Forall2_lookup_l _ _ _ i i HF) as (p & Hp & Hpi).
  { by rewrite lookup_seq_lt. }
  rewrite Hp. congruence.
Qed.

Lemma averageSmooth_quads_witness :
  let shape :=
    mkShape [P3 0 0 0; P3 1 0 0; P3 1 1 0; P3 0 1 0; P3 2 0 0; P3 2 1 0]
      [newQuadFace 0 1 2 (Some 3%nat); newQuadFace 1 4 5 (Some 2%nat)] in
  ∃ shape',
    averageSmooth shape (Some 0.5) = Some shape' ∧
    length (vertices shape') = length (vertices shape) ∧
    face_indices <$> quads shape' = face_indices <$> quads shape ∧
    ∀ i v,
      vertices shape !! i = Some v →
      ∃ cents,
        Forall2 (centroid_of_face (vertices shape) (quads shape))
          (incident_faces (quads shape) i) cents ∧
        vertices shape' !! i
        = Some (linearInterpolatePoints3d v (averagePoints cents) 0.5).
Proof.
  intros shape. apply (averageSmooth_quads shape 0.5).
  - unfold shape_in_bounds, face_in_bounds, shape. simpl.
    solve_in_bounds; discriminate.
  - repeat constructor; eexists; reflexivity.
Defined.

(** The two ends of the interpolation. *)
Lemma linearInterpolatePoints3d_0 (p q : Point3d) :
  linearInterpolatePoints3d p q 0 = p.
Proof.
  unfold linearInterpolatePoints3d. apply Point3d_eq; simpl; ring.
Qed.

Lemma linearInterpolatePoints3d_1 (p q : Point3d) :
  linearInterpolatePoints3d p q 1 = q.
Proof.
  unfold linearInterpolatePoints3d. apply Point3d_eq; simpl; ring.
Qed.

(** * Further properties of the code *)

(** ** Matrices: composition, rotations, normals *)

Lemma multiplyAffine_associative (a b c : AffineMatrix) :
  multiplyAffine (multiplyAffine a b) c = multiplyAffine a (multiplyAffine b c).
Proof.
  destruct a, b, c; unfold multiplyAffine; simpl. f_equal; ring.
Qed.

(** X1: the matrix product is associative and the identity matrix is
    neutral on both sides, so a chain of Transform operations can be
    grouped freely; the product acts on points as the composition, the
    right factor first. *)
Theorem multiplyAffine_laws (a b c : AffineMatrix) :
  multiplyAffine (multiplyAffine a b) c
  = multiplyAffine a (multiplyAffine b c) ∧
  multiplyAffine makeIdentityAffine a = a ∧
  multiplyAffine a makeIdentityAffine = a ∧
  ∀ p, transformPoint (multiplyAffine a b) p
       = transformPoint a (transformPoint b p).
Proof.
  split; [apply multiplyAffine_associative|].
  split; [apply multiplyAffine_identity_l|].
  split; [apply multiplyAffine_identity_r|].
  intros p. apply transformPoint_multiplyAffine.
Qed.

Lemma sin_cos_square (theta : R) :
  sin theta * sin theta + cos theta * cos theta = 1.
Proof. pose proof (sin2_cos2 theta) as H. unfold Rsqr in H. exact H. Qed.

Lemma rotateX_inverse (theta : R) :
  multiplyAffine (makeRotateAffineX (- theta)) (makeRotateAffineX theta)
  = makeIdentityAffine.
Proof.
  unfold multiplyAffine, makeRotateAffineX, makeIdentityAffine; simpl.
  rewrite sin_neg, cos_neg. pose proof (sin_cos_square theta).
  f_equal; nra.
Qed.

Lemma rotateY_inverse (theta : R) :
  multiplyAffine (makeRotateAffineY (- theta)) (makeRotateAffineY theta)
  = makeIdentityAffine.
Proof.
  unfold multiplyAffine, makeRotateAffineY, makeIdentityAffine; simpl.
  rewrite sin_neg, cos_neg. pose proof (sin_cos_square theta).
  f_equal; nra.
Qed.

Lemma rotateZ_inverse (theta : R) :
  multiplyAffine (makeRotateAffineZ (- theta)) (makeRotateAffineZ theta)
  = makeIdentityAffine.
Proof.
  unfold multiplyAffine, makeRotateAffineZ, makeIdentityAffine; simpl.
  rewrite sin_neg, cos_neg. pose proof (sin_cos_square theta).
  f_equal; nra.
Qed.

Lemma Transform_eq (s t : Transform.t) :
  Transform.m s = Transform.m t → s = t.
Proof. destruct s, t; simpl; intros ->; reflexivity. Qed.

(** X2: rotating by [theta] and then by [- theta] about the same axis
    gives the transform back, matrix included, so every point is
    transformed as before. *)
Theorem rotate_then_rotate_back (tm : Transform.t) (theta : R) :
  Transform.rotateX (- theta) (Transform.rotateX theta tm) = tm ∧
  Transform.rotateY (- theta) (Transform.rotateY theta tm) = tm ∧
  Transform.rotateZ (- theta) (Transform.rotateZ theta tm) = tm ∧
  ∀ p,
    Transform.transformPoint
      (Transform.rotateX (- theta) (Transform.rotateX theta tm)) p
    = Transform.transformPoint tm p.
Proof.
  assert (HX : Transform.rotateX (- theta) (Transform.rotateX theta tm) = tm).
  { apply Transform_eq; simpl.
    rewrite <- multiplyAffine_associative, rotateX_inverse.
    apply multiplyAffine_identity_l. }
  split; [exact HX|]. split; [|split].
  - apply Transform_eq; simpl.
    rewrite <- multiplyAffine_associative, rotateY_inverse.
    apply multiplyAffine_identity_l.
  - apply Transform_eq; simpl.
    rewrite <- multiplyAffine_associative, rotateZ_inverse.
    apply multiplyAffine_identity_l.
  - intros p. by rewrite HX.
Qed.

(** X3: the three rotation matrices keep the length of every vector. *)
Theorem rotation_keeps_length (theta : R) (p : Point3d) :
  vecMag3d (transformPoint (makeRotateAffineX theta) p) = vecMag3d p ∧
  vecMag3d (transformPoint (makeRotateAffineY theta) p) = vecMag3d p ∧
  vecMag3d (transformPoint (makeRotateAffineZ theta) p) = vecMag3d p.
Proof.
  pose proof (sin_cos_square theta) as H.
  destruct p as [px py pz].
  unfold vecMag3d, transformPoint, makeRotateAffineX, makeRotateAffineY,
    makeRotateAffineZ; simpl.
  set (s := sin theta) in *. set (c := cos theta) in *.
  repeat split; f_equal.
  - replace (px * px + py * py + pz * pz)
      with (px * px + (s * s + c * c) * (py * py + pz * pz))
      by (rewrite H; ring). ring.
  - replace (px * px + py * py + pz * pz)
      with ((s * s + c * c) * (px * px + pz * pz) + py * py)
      by (rewrite H; ring). ring.
  - replace (px * px + py * py + pz * pz)
      with ((s * s + c * c) * (px * px + py * py) + pz * pz)
      by (rewrite H; ring). ring.
Qed.

(** X4: [transAdjoint] is the right matrix for normals: the dot product of
    a normal moved by [transAdjoint t] with a surface direction [q - p]
    moved by [t] is the original dot product times the determinant of [t];
    a normal perpendicular to a direction stays perpendicular to it. *)
Theorem transAdjoint_keeps_normals_perpendicular (t : AffineMatrix)
  (n p q : Point3d) :
  dotProduct3d (transformPoint (transAdjoint t) n)
    (subPoints3d (transformPoint t q) (transformPoint t p))
  = det3 t * dotProduct3d n (subPoints3d q p) ∧
  (dotProduct3d n (subPoints3d q p) = 0 →
   dotProduct3d (transformPoint (transAdjoint t) n)
     (subPoints3d (transformPoint t q) (transformPoint t p)) = 0).
Proof.
  assert (H : dotProduct3d (transformPoint (transAdjoint t) n)
                (subPoints3d (transformPoint t q) (transformPoint t p))
              = det3 t * dotProduct3d n (subPoints3d q p)).
  { destruct t, n, p, q.
    unfold dotProduct3d, transformPoint, transAdjoint, subPoints3d, det3;
      simpl. ring. }
  split; [exact H|]. intros H0. rewrite H, H0. ring.
Qed.

(** X5: the normal matrix of a product is the product of the normal
    matrices, so normals can be transformed in one step through the
    camera and object transforms. *)
Theorem transAdjoint_multiplyAffine (a b : AffineMatrix) :
  transAdjoint (multiplyAffine a b)
  = multiplyAffine (transAdjoint a) (transAdjoint b).
Proof.
  destruct a, b; unfold transAdjoint, multiplyAffine; simpl. f_equal; ring.
Qed.

(** X6: after [rebuildMeta] on a shape in bounds, the first normal of every
    face is perpendicular to the edges from vertex 0 to vertices 1 and 2,
    and the second normal of a quad to the edges from vertex 0 to vertices
    2 and 3. *)
Theorem rebuildMeta_normals_perpendicular (shape : Shape) :
  shape_in_bounds shape →
  ∃ shape',
    rebuildMeta shape = Some shape' ∧
    Forall (λ qf,
      ∃ n1 n2 vert0 vert1 vert2,
        normal1 qf = Some n1 ∧ normal2 qf = Some n2 ∧
        vertices shape !! i0 qf = Some vert0 ∧
        vertices shape !! i1 qf = Some vert1 ∧
        vertices shape !! i2 qf = Some vert2 ∧
        dotProduct3d n1 (subPoints3d vert1 vert0) = 0 ∧
        dotProduct3d n1 (subPoints3d vert2 vert0) = 0 ∧
        ∀ j3 vert3, i3 qf = Some j3 → vertices shape !! j3 = Some vert3 →
          dotProduct3d n2 (subPoints3d vert2 vert0) = 0 ∧
          dotProduct3d n2 (subPoints3d vert3 vert0) = 0)
      (quads shape').
Proof.
  intros Hb. destruct (rebuildMeta_ok shape Hb) as (qs' & E & HF).
  eexists. split; [exact E|]. simpl.
  clear E. induction HF as [|qf qf' qs qs' Hok _ IH]; constructor; [|exact IH].
  destruct Hok as (Hidx & vert0 & vert1 & vert2 & E0 & E1 & E2 & Hn1 & Hrest).
  unfold face_indices in Hidx. injection Hidx as I0 I1 I2 I3.
  rewrite I0, I1, I2, I3.
  assert (Hc : ∀ u v, dotProduct3d (crossProduct u v) u = 0 ∧
                      dotProduct3d (crossProduct u v) v = 0).
  { intros [] []. unfold dotProduct3d, crossProduct; simpl. split; ring. }
  destruct (i3 qf) as [j3|].
  - destruct Hrest as (vert3 & E3 & Hn2 & _).
    eexists _, _, vert0, vert1, vert2.
    repeat split; try eassumption; try apply Hc.
    all: intros; simplify_eq; apply Hc.
  - destruct Hrest as (Hn2 & _). rewrite Hn1 in Hn2.
    eexists _, _, vert0, vert1, vert2.
    repeat split; try eassumption; try apply Hc.
    all: intros; discriminate.
Qed.

Lemma rebuildMeta_normals_perpendicular_witness :
  let shape :=
    mkShape [P3 0 0 0; P3 1 0 0; P3 1 1 0; P3 0 1 1]
      [newQuadFace 0 1 2 (Some 3%nat); newQuadFace 0 1 2 None] in
  ∃ shape',
    rebuildMeta shape = Some shape' ∧
    Forall (λ qf,
      ∃ n1 n2 vert0 vert1 vert2,
        normal1 qf = Some n1 ∧ normal2 qf = Some n2 ∧
        vertices shape !! i0 qf = Some vert0 ∧
        vertices shape !! i1 qf = Some vert1 ∧
        vertices shape !! i2 qf = Some vert2 ∧
        dotProduct3d n1 (subPoints3d vert1 vert0) = 0 ∧
        dotProduct3d n1 (subPoints3d vert2 vert0) = 0 ∧
        ∀ j3 vert3, i3 qf = Some j3 → vertices shape !! j3 = Some vert3 →
          dotProduct3d n2 (subPoints3d vert2 vert0) = 0 ∧
          dotProduct3d n2 (subPoints3d vert3 vert0) = 0)
      (quads shape').
Proof.
  intros shape. apply (rebuildMeta_normals_perpendicular shape).
  unfold shape_in_bounds, face_in_bounds, shape. simpl.
  solve_in_bounds; discriminate.
Defined.

(** ** Vectors: unit vectors and the overdraw push *)

(** X7: the unit vector of a vector other than zero has length 1. *)
Theorem unitVector3d_has_length_1 (v : Point3d) :
  v ≠ P3 0 0 0 → vecMag3d (unitVector3d v) = 1.
Proof.
  destruct v as [vx vy vz]. intros Hv.
  unfold unitVector3d, vecMag3d, mulPoint3d; simpl.
  set (s2 := vx * vx + vy * vy + vz * vz).
  assert (Hs2 : 0 < s2).
  { assert (0 <= s2) as [H | H] by (unfold s2; nra); [exact H|].
    exfalso. apply Hv.
    assert (vx = 0 ∧ vy = 0 ∧ vz = 0) as (-> & -> & ->)
      by (unfold s2 in H; repeat split; nra).
    reflexivity. }
  pose proof (sqrt_lt_R0 _ Hs2) as Hm.
  pose proof (sqrt_sqrt s2 ltac:(lra)) as Hmm.
  set (mg := sqrt s2) in *.
  replace (vx * (1 / mg) * (vx * (1 / mg)) + vy * (1 / mg) * (vy * (1 / mg))
           + vz * (1 / mg) * (vz * (1 / mg)))
    with (s2 / (mg * mg)) by (unfold s2; field; lra).
  rewrite Hmm. replace (s2 / s2) with 1 by (field; lra). apply sqrt_1.
Qed.

Lemma unitVector3d_has_length_1_witness :
  vecMag3d (unitVector3d (P3 3 0 4)) = 1.
Proof.
  apply (unitVector3d_has_length_1 (P3 3 0 4)).
  intros H. apply (f_equal x) in H. simpl in H. lra.
Defined.

(** X8: [pushPoints2dIP] moves two distinct points apart along the line
    through them: their distance grows by exactly 2, and their midpoint
    (their sum) stays where it was. *)
Theorem pushPoints2dIP_pushes_apart (a b : Canvas.Point2d) :
  a ≠ b →
  let '(a', b') := pushPoints2dIP a b in
  vecMag2d (subPoints2d b' a') = vecMag2d (subPoints2d b a) + 2 ∧
  addPoints2d a' b' = addPoints2d a b.
Proof.
  destruct a as [ax ay], b as [bx by_]. intros Hab.
  unfold pushPoints2dIP, unitVector2d, vecMag2d, subPoints2d, addPoints2d,
    mulPoint2d; simpl.
  set (dx := bx - ax). set (dy := by_ - ay).
  set (s2 := dx * dx + dy * dy).
  assert (Hs2 : 0 < s2).
  { assert (0 <= s2) as [H | H] by (unfold s2; nra); [exact H|].
    exfalso. apply Hab.
    assert (dx = 0 ∧ dy = 0) as [Hx Hy]
      by (unfold s2 in H; split; nra).
    unfold dx in Hx. unfold dy in Hy. f_equal; lra. }
  pose proof (sqrt_lt_R0 _ Hs2) as Hm.
  pose proof (sqrt_sqrt s2 ltac:(lra)) as Hmm.
  set (mg := sqrt s2) in *.
  split.
  - apply sqrt_lem_1; [|lra|].
    { match goal with
      | |- 0 <= ?A * ?A + ?B * ?B =>
          pose proof (Rle_0_sqr A); pose proof (Rle_0_sqr B);
          unfold Rsqr in *; lra
      end. }
    replace ((bx + dx * (1 / mg) - (ax - dx * (1 / mg)))
             * (bx + dx * (1 / mg) - (ax - dx * (1 / mg)))
             + (by_ + dy * (1 / mg) - (ay - dy * (1 / mg)))
               * (by_ + dy * (1 / mg) - (ay - dy * (1 / mg))))
      with (s2 * ((1 + 2 / mg) * (1 + 2 / mg)))
      by (unfold s2, dx, dy; field; lra).
    rewrite <- Hmm. field. lra.
  - f_equal; ring.
Qed.

Lemma pushPoints2dIP_pushes_apart_witness :
  let '(a', b') := pushPoints2dIP (Canvas.mk 0 0) (Canvas.mk 3 4) in
  vecMag2d (subPoints2d b' a')
  = vecMag2d (subPoints2d (Canvas.mk 3 4) (Canvas.mk 0 0)) + 2 ∧
  addPoints2d a' b' = addPoints2d (Canvas.mk 0 0) (Canvas.mk 3 4).
Proof.
  apply (pushPoints2dIP_pushes_apart (Canvas.mk 0 0) (Canvas.mk 3 4)).
  intros H. apply (f_equal Canvas.x) in H. simpl in H. lra.
Defined.

(** ** Canvas: textured triangles and paths *)

(** X9: when the three texture corners are not collinear (the denominator
    is not zero), [drawCanvasTexturedTriangle] clips to the destination
    triangle and sets a transform that carries each texture corner onto the
    matching destination corner. *)
Theorem drawCanvasTexturedTriangle_maps_corners
  (x0 y0 x1 y1 x2 y2 sx0 sy0 sx1 sy1 sx2 sy2 : R) :
  sx0 * (sy2 - sy1) - sx1 * sy2 + sx2 * sy1 + (sx1 - sx2) * sy0 ≠ 0 →
  ∃ m11 m12 m21 m22 dx dy,
    drawCanvasTexturedTriangle x0 y0 x1 y1 x2 y2 sx0 sy0 sx1 sy1 sx2 sy2
    = [ Save; BeginPath; MoveTo x0 y0; LineTo x1 y1; LineTo x2 y2;
        ClosePath; Clip; TransformBy m11 m12 m21 m22 dx dy;
        DrawImage 0 0; Restore ] ∧
    canvas_apply m11 m12 m21 m22 dx dy sx0 sy0 = (x0, y0) ∧
    canvas_apply m11 m12 m21 m22 dx dy sx1 sy1 = (x1, y1) ∧
    canvas_apply m11 m12 m21 m22 dx dy sx2 sy2 = (x2, y2).
Proof.
  intros Hd. do 6 eexists. split; [reflexivity|].
  unfold canvas_apply. repeat split; f_equal; field; exact Hd.
Qed.

Lemma drawCanvasTexturedTriangle_maps_corners_witness :
  ∃ m11 m12 m21 m22 dx dy,
    drawCanvasTexturedTriangle 10 10 50 20 30 60 0 0 64 0 64 64
    = [ Save; BeginPath; MoveTo 10 10; LineTo 50 20; LineTo 30 60;
        ClosePath; Clip; TransformBy m11 m12 m21 m22 dx dy;
        DrawImage 0 0; Restore ] ∧
    canvas_apply m11 m12 m21 m22 dx dy 0 0 = (10, 10) ∧
    canvas_apply m11 m12 m21 m22 dx dy 64 0 = (50, 20) ∧
    canvas_apply m11 m12 m21 m22 dx dy 64 64 = (30, 60).
Proof.
  apply (drawCanvasTexturedTriangle_maps_corners
           10 10 50 20 30 60 0 0 64 0 64 64).
  lra.
Defined.

Lemma drawCurve_curveSegment (proj : Point3d → Canvas.Point2d)
  (pts : list Point3d) (cur : Point3d) (c : Curve) :
  drawCurve (proj <$> pts) c = segment_cmd proj <$> curveSegment pts cur c.
Proof.
  unfold drawCurve, curveSegment. rewrite !list_lookup_fmap.
  destruct (c1 c) as [k1|].
  - rewrite list_lookup_fmap.
    destruct (pts !! c0 c) as [p0|]; [|reflexivity].
    destruct (pts !! k1) as [p1|]; [|reflexivity].
    destruct (pts !! ep c) as [pe|]; reflexivity.
  - destruct (pts !! c0 c) as [p0|]; [|reflexivity].
    destruct (pts !! ep c) as [pe|]; reflexivity.
Qed.

Lemma drawCurve_traceCurves (proj : Point3d → Canvas.Point2d)
  (pts : list Point3d) (cs : list Curve) :
  ∀ cur,
    mapM (drawCurve (proj <$> pts)) cs
    = (fmap (segment_cmd proj)) <$> traceCurves pts cur cs.
Proof.
  induction cs as [|c cs IH]; intros cur; [reflexivity|].
  cbn [mapM traceCurves]. rewrite (drawCurve_curveSegment proj pts cur c).
  destruct (curveSegment pts cur c) as [s|]; [|reflexivity].
  cbn. rewrite (IH (seg_ep s)).
  destruct (traceCurves pts (seg_ep s) cs); reflexivity.
Qed.

(** X13: [drawPath] draws the trace of the path: it throws exactly when the
    trace does not exist (a missing start or curve point), and otherwise
    begins a canvas path, moves to the projected start and issues, curve
    by curve, the call for the traced piece with its points transformed
    and projected, then one [fill] or [stroke]. *)
Theorem drawPath_draws_the_trace (rd : Renderer.t) (path : Path)
  (fill : bool) :
  let proj p :=
    Renderer.projectPointToCanvas rd
      (transformPoint
         (multiplyAffine (Transform.m (Camera.transform (Renderer.camera rd)))
            (Transform.m (Renderer.transform rd))) p) in
  drawPath rd path fill
  = (start ← pathStart path;
     segs ← tracePath path;
     Some ([BeginPath;
            MoveTo (Canvas.x (proj start)) (Canvas.y (proj start))]
           ++ (segment_cmd proj <$> segs)
           ++ [if fill then Fill else Stroke])).
Proof.
  intros proj. unfold drawPath, tracePath, pathStart.
  unfold Renderer.projectPointsToCanvas, transformPoints.
  rewrite map_map. fold proj.
  change (map proj (points path)) with (proj <$> points path).
  destruct (starting_point path) as [i|].
  - rewrite list_lookup_fmap.
    destruct (points path !! i) as [start|]; [|reflexivity].
    cbn. rewrite (drawCurve_traceCurves proj _ _ start).
    destruct (traceCurves (points path) start (curves path)); reflexivity.
  - cbn. rewrite (drawCurve_traceCurves proj _ _ (P3 0 0 0)).
    destruct (traceCurves (points path) (P3 0 0 0) (curves path));
      reflexivity.
Qed.

(** ** PathUtils: lines and fitted curves *)

(** X10: the quadratic curve from [p0] to [p2] with the control point
    computed by [fitQuadraticToPoints] passes through [p1] at parameter
    0.5 (and starts at [p0] and ends at [p2]). *)
Theorem fitQuadraticToPoints_passes_through (p0 p1 p2 : Point3d) :
  let s := mkSegment p0 (fitQuadraticToPoints p0 p1 p2) None p2 in
  segmentPoint s 0.5 = p1 ∧ segmentPoint s 0 = p0 ∧ segmentPoint s 1 = p2.
Proof.
  destruct p0, p1, p2.
  unfold segmentPoint, fitQuadraticToPoints, bezier1; simpl.
  repeat split; apply Point3d_eq; simpl; lra.
Qed.

(** X11: the path of [makeLine] is one cubic piece from [p0] to [p1] that
    stays on the straight segment between them: its point at parameter [u]
    is the interpolation between [p0] and [p1] at [1 - (1 - u)^3], which
    runs from 0 to 1 as [u] does. *)
Theorem makeLine_is_straight (p0 p1 : Point3d) :
  ∃ s,
    tracePath (makeLine p0 p1) = Some [s] ∧
    segmentPoint s 0 = p0 ∧
    segmentPoint s 1 = p1 ∧
    ∀ u,
      segmentPoint s u
      = linearInterpolatePoints3d p0 p1 (1 - (1 - u) * (1 - u) * (1 - u)) ∧
      (0 <= u <= 1 → 0 <= 1 - (1 - u) * (1 - u) * (1 - u) <= 1).
Proof.
  destruct p0, p1. eexists. split; [reflexivity|].
  unfold segmentPoint, bezier2, linearInterpolatePoints3d; simpl.
  split; [apply Point3d_eq; simpl; ring|].
  split; [apply Point3d_eq; simpl; ring|].
  intros u. split; [apply Point3d_eq; simpl; ring|].
  intros [H0 H1].
  assert (0 <= 1 - u <= 1) as [Ha Hb] by lra.
  set (w := 1 - u) in *.
  assert (0 <= w * w <= 1) by nra.
  split; nra.
Qed.

(** ** PathUtils: the spiral *)

Lemma traceCurves_in_bounds (pts : list Point3d) (cs : list Curve) :
  Forall (curve_in_bounds (length pts)) cs →
  ∀ cur, ∃ segs, traceCurves pts cur cs = Some segs ∧
                 length segs = length cs.
Proof.
  induction 1 as [|c cs (Hep & Hc0 & Hc1) _ IH]; intros cur.
  - exists []. split; reflexivity.
  - destruct (lookup_lt_is_Some_2 _ _ Hep) as [pe Epe].
    destruct (lookup_lt_is_Some_2 _ _ Hc0) as [p0 Ep0].
    assert (∃ s, curveSegment pts cur c = Some s ∧ seg_ep s = pe)
      as (s & Es & Hs).
    { unfold curveSegment. destruct (c1 c) as [k1|].
      - destruct (lookup_lt_is_Some_2 _ _ (Hc1 k1 eq_refl)) as [p1 Ep1].
        rewrite Ep0, Ep1, Epe. simpl. eauto.
      - rewrite Ep0, Epe. simpl. eauto. }
    destruct (IH (seg_ep s)) as (segs & E & L).
    exists (s :: segs). simpl. rewrite Es. simpl. rewrite E. simpl.
    split; [reflexivity | by rewrite L].
Qed.

Lemma curve_in_bounds_mono (n n' : nat) (c : Curve) :
  (n ≤ n')%nat → curve_in_bounds n c → curve_in_bounds n' c.
Proof.
  intros Hn (H0 & H1 & H2). repeat split; try lia.
  intros k1 E. specialize (H2 k1 E). lia.
Qed.

(** The state of [makeSpiral] after [n] rings, started with [p] at the
    number of points. *)
Lemma makeSpiral_loop (n : nat) :
  ∀ (a : nat) (pts : list Point3d) (cvs : list Curve) (zz : R),
    ∃ pts' cvs',
      foldl spiralStep (pts, cvs, zz, length pts) (seq a n)
      = (pts', cvs', zz - 0.1 * INR n, length pts') ∧
      length pts' = (length pts + 6 * n)%nat ∧
      length cvs' = (length cvs + 2 * n)%nat ∧
      (Forall (curve_in_bounds (length pts)) cvs →
       Forall (curve_in_bounds (length pts')) cvs') ∧
      (Forall (λ c, isQuadratic c = false) cvs →
       Forall (λ c, isQuadratic c = false) cvs') ∧
      (∀ i, (i < n)%nat →
            pts' !! (length pts + 6 * i + 5)%nat
            = Some (P3 0 0 (zz - 0.1 * INR (i + 1))) ∧
            cvs' !! (length cvs + 2 * i + 1)%nat
            = Some (mkCurve (length pts + 6 * i + 5)
                      (length pts + 6 * i + 3)
                      (Some (length pts + 6 * i + 4)%nat))).
Proof.
  induction n as [|n IH]; intros a pts cvs zz.
  - exists pts, cvs. simpl. split; [f_equal; f_equal; lra|].
    repeat split; auto; lia.
  - destruct (IH a pts cvs zz) as (pts1 & cvs1 & E & Lp & Lc & Hb & Hq & Hz).
    rewrite seq_S, foldl_app, E. cbn [foldl spiralStep].
    rewrite <- !app_assoc. cbn [app].
    eexists _, _. split.
    { f_equal; [f_equal|].
      - rewrite S_INR. lra.
      - rewrite length_app. reflexivity. }
    split; [rewrite length_app; simpl; lia|].
    split; [rewrite length_app; simpl; lia|].
    split; [|split].
    + intros H. rewrite length_app. simpl. apply Forall_app. split.
      * eapply Forall_impl; [exact (Hb H)|].
        intros c. apply curve_in_bounds_mono. lia.
      * repeat constructor; simpl; try lia; intros k1 [= <-]; lia.
    + intros H. apply Forall_app. split; [exact (Hq H)|].
      repeat constructor.
    + intros i Hi. destruct (decide (i = n)) as [-> | Hne].
      * split.
        -- rewrite lookup_app_r by lia.
           replace (length pts + 6 * n + 5 - length pts1)%nat with 5%nat
             by lia.
           simpl. f_equal. apply Point3d_eq; simpl; try reflexivity.
           rewrite Nat.add_1_r, S_INR. lra.
        -- rewrite lookup_app_r by lia.
           replace (length cvs + 2 * n + 1 - length cvs1)%nat with 1%nat
             by lia.
           cbn [lookup list_lookup]. rewrite Lp. reflexivity.
      * destruct (Hz i ltac:(lia)) as [Hzp Hzc]. split.
        -- rewrite lookup_app_l by lia. exact Hzp.
        -- rewrite lookup_app_l by lia. exact Hzc.
Qed.

(** X12: [makeSpiral(count)] has 6 points and 2 cubic curves per ring, all
    its curve indices are in bounds, so it can be traced (and drawn)
    without an exception; ring [i] ends, through its second curve, at the
    point [6 i + 5], which lies on the axis at [z = - 0.1 (i + 1)]. *)
Theorem makeSpiral_rings (count : nat) :
  let path := makeSpiral count in
  length (points path) = (6 * count)%nat ∧
  length (curves path) = (2 * count)%nat ∧
  starting_point path = None ∧
  Forall (curve_in_bounds (length (points path))) (curves path) ∧
  Forall (λ c, isQuadratic c = false) (curves path) ∧
  (∃ segs, tracePath path = Some segs ∧ length segs = (2 * count)%nat) ∧
  ∀ i, (i < count)%nat →
       points path !! (6 * i + 5)%nat = Some (P3 0 0 (- (0.1 * INR (i + 1)))) ∧
       curves path !! (2 * i + 1)%nat
       = Some (mkCurve (6 * i + 5) (6 * i + 3) (Some (6 * i + 4)%nat)).
Proof.
  unfold makeSpiral.
  destruct (makeSpiral_loop count 0 [] [] 0)
    as (pts & cvs & E & Lp & Lc & Hb & Hq & Hz).
  simpl in E. rewrite E. cbn [points curves starting_point].
  simpl in Lp, Lc. specialize (Hb (Forall_nil_2 _)).
  specialize (Hq (Forall_nil_2 _)).
  split; [exact Lp|]. split; [exact Lc|]. split; [reflexivity|].
  split; [exact Hb|]. split; [exact Hq|]. split.
  - unfold tracePath. simpl.
    destruct (traceCurves_in_bounds pts cvs Hb (P3 0 0 0)) as (segs & Es & L).
    exists segs. split; [exact Es | congruence].
  - intros i Hi. destruct (Hz i Hi) as [Hzp Hzc].
    split; [|exact Hzc].
    assert (Hzp' : pts !! (6 * i + 5)%nat
                   = Some (P3 0 0 (0 - 0.1 * INR (i + 1)))) by exact Hzp.
    rewrite Hzp'. f_equal. apply Point3d_eq; simpl; lra.
Qed.

(** ** Loops with an invariant *)

(** A [for] loop over [0 .. n-1] whose body keeps an invariant indexed by
    the number of rounds done, and does not throw while it holds. *)
Lemma for_loop_seq_inv {S : Type} (body : S → nat → option S)
  (I : nat → S → Prop) (n : nat) :
  (∀ k s, (k < n)%nat → I k s → ∃ s', body s k = Some s' ∧ I (Datatypes.S k) s') →
  ∀ s, I 0%nat s → ∃ s', for_loop body (seq 0 n) s = Some s' ∧ I n s'.
Proof.
  induction n as [|n IH]; intros Hstep s H0.
  - exists s. split; [reflexivity | exact H0].
  - destruct (IH (λ k s Hk, Hstep k s (Nat.lt_lt_succ_r _ _ Hk)) s H0)
      as (s1 & E1 & H1).
    destruct (Hstep n s1 (Nat.lt_succ_diag_r n) H1) as (s2 & E2 & H2).
    exists s2. split; [|exact H2].
    rewrite seq_S, for_loop_app, E1. simpl. rewrite E2. reflexivity.
Qed.

(** ** ShapeUtils: linearSubdivide and linearSubdivideTri in general *)

Lemma js_sort_insert_Forall (P : option nat → Prop) (v : option nat)
  (l : list (option nat)) :
  P v → Forall P l → Forall P (js_sort_insert v l).
Proof.
  intros Hv. induction 1 as [|w l Hw Hl IH]; simpl.
  - by constructor.
  - destruct (String.leb _ _); repeat constructor; assumption.
Qed.

Lemma js_sort_Forall (P : option nat → Prop) (l : list (option nat)) :
  Forall P l → Forall P (js_sort l).
Proof.
  induction 1 as [|v l Hv _ IH]; simpl; [constructor|].
  by apply js_sort_insert_Forall.
Qed.

(** The inner loop of the subdivisions on an array of indices in bounds:
    no exception, an index in bounds, at most one vertex appended, the
    vertices so far kept, and the table still pointing inside the array. *)
Lemma sharePoint_ok (vs : list Point3d) (share_points : gmap string nat)
  (ps : list (option nat)) (base : nat) :
  (base ≤ length vs)%nat →
  Forall (λ o, ∃ i, o = Some i ∧ (i < base)%nat) ps →
  map_Forall (λ _ v, (v < length vs)%nat) share_points →
  ∃ vs' share_points' idx,
    sharePoint vs share_points (js_sort ps) = Some (vs', share_points', idx) ∧
    (idx < length vs')%nat ∧
    (length vs ≤ length vs' ≤ length vs + 1)%nat ∧
    take base vs' = take base vs ∧
    map_Forall (λ _ v, (v < length vs')%nat) share_points'.
Proof.
  intros Hbase Hps Hsp. apply js_sort_Forall in Hps.
  unfold sharePoint.
  destruct (share_points !! js_join "-" (js_sort ps)) as [idx|] eqn:Ek.
  - exists vs, share_points, idx. split; [reflexivity|].
    split; [exact (Hsp _ _ Ek)|]. split; [lia|]. split; [reflexivity|done].
  - assert (Hm : is_Some (mapM (λ xo : option nat, xi ← xo; vs !! xi)
                            (js_sort ps))).
    { apply mapM_is_Some_2. eapply Forall_impl; [exact Hps|].
      intros o (i & -> & Hi). simpl.
      apply lookup_lt_is_Some_2. lia. }
    destruct Hm as [pts Epts]. rewrite Epts. simpl.
    eexists _, _, _. split; [reflexivity|].
    rewrite length_app. simpl.
    split; [lia|]. split; [lia|]. split.
    + by rewrite take_app_le.
    + apply map_Forall_insert_2; [lia|].
      eapply map_Forall_impl; [exact Hsp|]. simpl. intros; lia.
Qed.

Lemma face_in_bounds_mono (n n' : nat) (qf : QuadFace) :
  (n ≤ n')%nat → face_in_bounds n qf → face_in_bounds n' qf.
Proof. intros Hn. apply (indices_in_bounds_mono n n' (face_indices qf) Hn). Qed.



Lemma rebuilt_faces_indices (vs : list Point3d) (qs qs' : list QuadFace)
  (P : nat * nat * nat * option nat → Prop) :
  mapM (rebuildMetaFace vs) qs = Some qs' →
  Forall (λ qf, P (face_indices qf)) qs →
  Forall (λ qf, P (face_indices qf)) qs'.
Proof.
  intros E%mapM_rebuildMetaFace_indices H.
  apply (Forall_fmap face_indices P). rewrite E.
  apply (Forall_fmap face_indices P). exact H.
Qed.

(** X15: on a shape in bounds all of whose faces are quads,
    [linearSubdivide] does not throw and returns a shape in bounds with
    four times as many faces, all quads; the old vertices are kept at
    their indices, and at most five vertices per old face are added. *)
Theorem linearSubdivide_quads (shape : Shape) :
  shape_in_bounds shape →
  Forall (λ qf, is_Some (i3 qf)) (quads shape) →
  ∃ shape',
    linearSubdivide shape = Some shape' ∧
    length (quads shape') = (4 * length (quads shape))%nat ∧
    Forall (λ qf, is_Some (i3 qf)) (quads shape') ∧
    shape_in_bounds shape' ∧
    take (length (vertices shape)) (vertices shape') = vertices shape ∧
    (length (vertices shape) ≤ length (vertices shape')
     ≤ length (vertices shape) + 5 * length (quads shape))%nat.
Proof.
  intros Hb Hq.
  set (n := length (quads shape)). set (nv := length (vertices shape)).
  set (Q := λ (m : nat) (qf : QuadFace),
              face_in_bounds m qf ∧ is_Some (i3 qf)).
  set (I := λ (k : nat) (st : Shape * gmap string nat),
              ∃ P A,
                quads st.1 = P ++ drop k (quads shape) ++ A ∧
                length P = k ∧ length A = (3 * k)%nat ∧
                Forall (Q (length (vertices st.1))) (P ++ A) ∧
                map_Forall (λ _ v, (v < length (vertices st.1))%nat) st.2 ∧
                take nv (vertices st.1) = vertices shape ∧
                (nv ≤ length (vertices st.1) ≤ nv + 5 * k)%nat).
  assert (Hloop : ∃ st, for_loop subdivideStep (seq 0 n) (shape, ∅) = Some st
                        ∧ I n st).
  { apply (for_loop_seq_inv subdivideStep I n).
    - intros k [sh sp] Hk (P & A & Eq & LP & LA & HQ & Hsp & Htake & Hlen).
      cbn [fst snd] in *.
      destruct (lookup_lt_is_Some_2 (quads shape) k Hk) as [quad Equad].
      pose proof (Forall_lookup_1 _ _ _ _ Hb Equad) as (B0 & B1 & B2 & B3).
      pose proof (Forall_lookup_1 _ _ _ _ Hq Equad) as [j3 E3].
      specialize (B3 j3 E3). fold nv in B0, B1, B2, B3.
      rewrite (drop_S _ _ _ Equad), <- app_comm_cons in Eq.
      unfold subdivideStep. rewrite Eq.
      rewrite (list_lookup_middle P _ quad k (eq_sym LP)).
      cbn [mbind option_bind]. rewrite E3.
      destruct (sharePoint_ok (vertices sh) sp [Some (i0 quad); Some (i1 quad)]
                  nv ltac:(lia) ltac:(repeat constructor; eauto) Hsp)
        as (vs1 & sp1 & n0 & E1 & Hn0 & Hl1 & Ht1 & Hsp1).
      rewrite E1. cbn [mbind option_bind].
      destruct (sharePoint_ok vs1 sp1 [Some (i1 quad); Some (i2 quad)]
                  nv ltac:(lia) ltac:(repeat constructor; eauto) Hsp1)
        as (vs2 & sp2 & n1 & E2 & Hn1 & Hl2 & Ht2 & Hsp2).
      rewrite E2. cbn [mbind option_bind].
      destruct (sharePoint_ok vs2 sp2 [Some (i2 quad); Some j3]
                  nv ltac:(lia) ltac:(repeat constructor; eauto) Hsp2)
        as (vs3 & sp3 & n2 & E3' & Hn2 & Hl3 & Ht3 & Hsp3).
      rewrite E3'. cbn [mbind option_bind].
      destruct (sharePoint_ok vs3 sp3 [Some j3; Some (i0 quad)]
                  nv ltac:(lia) ltac:(repeat constructor; eauto) Hsp3)
        as (vs4 & sp4 & n3 & E4 & Hn3 & Hl4 & Ht4 & Hsp4).
      rewrite E4. cbn [mbind option_bind].
      destruct (sharePoint_ok vs4 sp4
                  [Some (i0 quad); Some (i1 quad); Some (i2 quad); Some j3]
                  nv ltac:(lia) ltac:(repeat constructor; eauto) Hsp4)
        as (vs5 & sp5 & n4 & E5 & Hn4 & Hl5 & Ht5 & Hsp5).
      rewrite E5. cbn [mbind option_bind].
      eexists. split; [reflexivity|]. unfold I. cbn [fst snd vertices quads].
      exists (P ++ [newQuadFace (i0 quad) n0 n4 (Some n3)]),
        (A ++ [newQuadFace n0 (i1 quad) n1 (Some n4);
               newQuadFace n4 n1 (i2 quad) (Some n2);
               newQuadFace n3 n4 n2 (Some j3)]).
      split.
      { rewrite insert_app_r_alt by lia.
        rewrite LP, Nat.sub_diag. cbn [insert list_insert].
        rewrite <- !app_assoc. cbn [app]. rewrite <- !app_assoc.
        reflexivity. }
      split; [rewrite length_app; simpl; lia|].
      split; [rewrite length_app; simpl; lia|].
      split.
      { assert (Hold : Forall (Q (length vs5)) (P ++ A)).
        { eapply Forall_impl; [exact HQ|]. intros qf [Hqb Hqq].
          split; [|exact Hqq].
          eapply face_in_bounds_mono; [|exact Hqb]. lia. }
        apply Forall_app in Hold as [HP HA].
        rewrite !Forall_app. repeat split; try assumption.
        - repeat constructor; simpl; try lia; try (intros ? [= <-]; lia);
            eauto.
        - repeat constructor; simpl; try lia; try (intros ? [= <-]; lia);
            eauto. }
      split; [exact Hsp5|].
      split; [congruence|]. lia.
    - exists [], []. cbn [fst snd]. rewrite drop_0, app_nil_r.
      split; [reflexivity|]. split; [reflexivity|]. split; [reflexivity|].
      split; [constructor|]. split; [apply map_Forall_empty|].
      split; [apply firstn_all|]. lia. }
  destruct Hloop as ([sh sp] & Eloop & P & A & Eq & LP & LA & HQ & _
                     & Htake & Hlen).
  cbn [fst snd] in *.
  unfold n in Eq. rewrite drop_all in Eq. cbn [app] in Eq.
  assert (Hb' : Forall (face_in_bounds (length (vertices sh))) (quads sh)).
  { rewrite Eq. eapply Forall_impl; [exact HQ|]. by intros qf [? _]. }
  destruct (mapM_rebuildMetaFace _ _ Hb') as (qs' & E' & _).
  unfold linearSubdivide. fold n. rewrite Eloop. cbn [mbind option_bind].
  unfold rebuildMeta. rewrite E'. cbn [mbind option_bind].
  eexists. split; [reflexivity|]. cbn [vertices quads].
  split.
  { rewrite <- (length_fmap face_indices),
      (mapM_rebuildMetaFace_indices _ _ _ E'), length_fmap, Eq, length_app.
    lia. }
  split.
  { apply (rebuilt_faces_indices _ _ _ (λ t, is_Some t.2) E').
    rewrite Eq. eapply Forall_impl; [exact HQ|]. by intros qf [_ ?]. }
  split.
  { apply (rebuilt_faces_indices _ _ _
             (indices_in_bounds (length (vertices sh))) E').
    exact Hb'. }
  split; [exact Htake | exact Hlen].
Qed.

Lemma linearSubdivide_quads_witness :
  let shape :=
    mkShape [P3 0 0 0; P3 1 0 0; P3 1 1 0; P3 0 1 0; P3 2 0 0; P3 2 1 0]
      [newQuadFace 0 1 2 (Some 3%nat); newQuadFace 1 4 5 (Some 2%nat)] in
  ∃ shape',
    linearSubdivide shape = Some shape' ∧
    length (quads shape') = (4 * length (quads shape))%nat ∧
    Forall (λ qf, is_Some (i3 qf)) (quads shape') ∧
    shape_in_bounds shape' ∧
    take (length (vertices shape)) (vertices shape') = vertices shape ∧
    (length (vertices shape) ≤ length (vertices shape')
     ≤ length (vertices shape) + 5 * length (quads shape))%nat.
Proof.
  intros shape. apply (linearSubdivide_quads shape).
  - unfold shape_in_bounds, face_in_bounds, shape. simpl.
    solve_in_bounds; discriminate.
  - repeat constructor; eexists; reflexivity.
Defined.

(** X16: on any shape in bounds, [linearSubdivideTri] does not throw and
    returns a shape in bounds with four times as many faces, all triangles
    (the fourth index of a quad is dropped); the old vertices are kept at
    their indices, and at most three vertices per old face are added. *)
Theorem linearSubdivideTri_triangles (shape : Shape) :
  shape_in_bounds shape →
  ∃ shape',
    linearSubdivideTri shape = Some shape' ∧
    length (quads shape') = (4 * length (quads shape))%nat ∧
    Forall (λ qf, i3 qf = None) (quads shape') ∧
    shape_in_bounds shape' ∧
    take (length (vertices shape)) (vertices shape') = vertices shape ∧
    (length (vertices shape) ≤ length (vertices shape')
     ≤ length (vertices shape) + 3 * length (quads shape))%nat.
Proof.
  intros Hb.
  set (n := length (quads shape)). set (nv := length (vertices shape)).
  set (Q := λ (m : nat) (qf : QuadFace),
              face_in_bounds m qf ∧ i3 qf = None).
  set (I := λ (k : nat) (st : Shape * gmap string nat),
              ∃ P A,
                quads st.1 = P ++ drop k (quads shape) ++ A ∧
                length P = k ∧ length A = (3 * k)%nat ∧
                Forall (Q (length (vertices st.1))) (P ++ A) ∧
                map_Forall (λ _ v, (v < length (vertices st.1))%nat) st.2 ∧
                take nv (vertices st.1) = vertices shape ∧
                (nv ≤ length (vertices st.1) ≤ nv + 3 * k)%nat).
  assert (Hloop : ∃ st, for_loop subdivideTriStep (seq 0 n) (shape, ∅)
                        = Some st ∧ I n st).
  { apply (for_loop_seq_inv subdivideTriStep I n).
    - intros k [sh sp] Hk (P & A & Eq & LP & LA & HQ & Hsp & Htake & Hlen).
      cbn [fst snd] in *.
      destruct (lookup_lt_is_Some_2 (quads shape) k Hk) as [tri Etri].
      pose proof (Forall_lookup_1 _ _ _ _ Hb Etri) as (B0 & B1 & B2 & _).
      fold nv in B0, B1, B2.
      rewrite (drop_S _ _ _ Etri), <- app_comm_cons in Eq.
      unfold subdivideTriStep. rewrite Eq.
      rewrite (list_lookup_middle P _ tri k (eq_sym LP)).
      cbn [mbind option_bind].
      destruct (sharePoint_ok (vertices sh) sp [Some (i0 tri); Some (i1 tri)]
                  nv ltac:(lia) ltac:(repeat constructor; eauto) Hsp)
        as (vs1 & sp1 & n0 & E1 & Hn0 & Hl1 & Ht1 & Hsp1).
      rewrite E1. cbn [mbind option_bind].
      destruct (sharePoint_ok vs1 sp1 [Some (i1 tri); Some (i2 tri)]
                  nv ltac:(lia) ltac:(repeat constructor; eauto) Hsp1)
        as (vs2 & sp2 & n1 & E2 & Hn1 & Hl2 & Ht2 & Hsp2).
      rewrite E2. cbn [mbind option_bind].
      destruct (sharePoint_ok vs2 sp2 [Some (i2 tri); Some (i0 tri)]
                  nv ltac:(lia) ltac:(repeat constructor; eauto) Hsp2)
        as (vs3 & sp3 & n2 & E3 & Hn2 & Hl3 & Ht3 & Hsp3).
      rewrite E3. cbn [mbind option_bind].
      eexists. split; [reflexivity|]. unfold I. cbn [fst snd vertices quads].
      exists (P ++ [newQuadFace (i0 tri) n0 n2 None]),
        (A ++ [newQuadFace n0 (i1 tri) n1 None;
               newQuadFace n2 n1 (i2 tri) None;
               newQuadFace n0 n1 n2 None]).
      split.
      { rewrite insert_app_r_alt by lia.
        rewrite LP, Nat.sub_diag. cbn [insert list_insert].
        rewrite <- !app_assoc. cbn [app]. rewrite <- !app_assoc.
        reflexivity. }
      split; [rewrite length_app; simpl; lia|].
      split; [rewrite length_app; simpl; lia|].
      split.
      { assert (Hold : Forall (Q (length vs3)) (P ++ A)).
        { eapply Forall_impl; [exact HQ|]. intros qf [Hqb Hqq].
          split; [|exact Hqq].
          eapply face_in_bounds_mono; [|exact Hqb]. lia. }
        apply Forall_app in Hold as [HP HA].
        rewrite !Forall_app. repeat split; try assumption.
        - repeat constructor; simpl; try lia; try discriminate.
        - repeat constructor; simpl; try lia; try discriminate. }
      split; [exact Hsp3|].
      split; [congruence|]. lia.
    - exists [], []. cbn [fst snd]. rewrite drop_0, app_nil_r.
      split; [reflexivity|]. split; [reflexivity|]. split; [reflexivity|].
      split; [constructor|]. split; [apply map_Forall_empty|].
      split; [apply firstn_all|]. lia. }
  destruct Hloop as ([sh sp] & Eloop & P & A & Eq & LP & LA & HQ & _
                     & Htake & Hlen).
  cbn [fst snd] in *.
  unfold n in Eq. rewrite drop_all in Eq. cbn [app] in Eq.
  assert (Hb' : Forall (face_in_bounds (length (vertices sh))) (quads sh)).
  { rewrite Eq. eapply Forall_impl; [exact HQ|]. by intros qf [? _]. }
  destruct (mapM_rebuildMetaFace _ _ Hb') as (qs' & E' & _).
  unfold linearSubdivideTri. fold n. rewrite Eloop. cbn [mbind option_bind].
  unfold rebuildMeta. rewrite E'. cbn [mbind option_bind].
  eexists. split; [reflexivity|]. cbn [vertices quads].
  split.
  { rewrite <- (length_fmap face_indices),
      (mapM_rebuildMetaFace_indices _ _ _ E'), length_fmap, Eq, length_app.
    lia. }
  split.
  { apply (rebuilt_faces_indices _ _ _ (λ t, t.2 = None) E').
    rewrite Eq. eapply Forall_impl; [exact HQ|]. by intros qf [_ ?]. }
  split.
  { apply (rebuilt_faces_indices _ _ _
             (indices_in_bounds (length (vertices sh))) E').
    exact Hb'. }
  split; [exact Htake | exact Hlen].
Qed.

Lemma linearSubdivideTri_triangles_witness :
  let shape :=
    mkShape [P3 0 0 0; P3 1 0 0; P3 1 1 0; P3 0 1 0]
      [newQuadFace 0 1 2 None; newQuadFace 0 2 3 None] in
  ∃ shape',
    linearSubdivideTri shape = Some shape' ∧
    length (quads shape') = (4 * length (quads shape))%nat ∧
    Forall (λ qf, i3 qf = None) (quads shape') ∧
    shape_in_bounds shape' ∧
    take (length (vertices shape)) (vertices shape') = vertices shape ∧
    (length (vertices shape) ≤ length (vertices shape')
     ≤ length (vertices shape) + 3 * length (quads shape))%nat.
Proof.
  intros shape. apply (linearSubdivideTri_triangles shape).
  unfold shape_in_bounds, face_in_bounds, shape. simpl.
  solve_in_bounds; discriminate.
Defined.

(** ** ShapeUtils: explodeFaces *)

Lemma point_eta (p : Point3d) : P3 (x p) (y p) (z p) = p.
Proof. destruct p; reflexivity. Qed.

(** X14: on a shape in bounds, [explodeFaces] does not throw; the new
    vertex array is the list of the old corner positions, face after face;
    the corners of the new faces are the indices [0, 1, 2, ...] of that
    array in order, so no vertex is shared by two faces and every corner
    keeps its position; each face keeps its kind and its metadata. *)
Theorem explodeFaces_unshares_vertices (shape : Shape) :
  shape_in_bounds shape →
  ∃ shape',
    explodeFaces shape = Some shape' ∧
    quads shape' ≫= corners = seq 0 (length (vertices shape')) ∧
    Some <$> vertices shape'
    = (λ i, vertices shape !! i) <$> (quads shape ≫= corners) ∧
    Forall2 (λ q q', isTriangle q' = isTriangle q ∧
                     centroid q' = centroid q ∧
                     normal1 q' = normal1 q ∧ normal2 q' = normal2 q)
      (quads shape) (quads shape').
Proof.
  intros Hb.
  set (n := length (quads shape)). set (verts := vertices shape).
  set (R2 := λ q q' : QuadFace,
               isTriangle q' = isTriangle q ∧ centroid q' = centroid q ∧
               normal1 q' = normal1 q ∧ normal2 q' = normal2 q).
  set (I := λ (k : nat) (st : list Point3d * list QuadFace),
              ∃ P,
                st.2 = P ++ drop k (quads shape) ∧
                length P = k ∧
                P ≫= corners = seq 0 (length st.1) ∧
                Some <$> st.1
                = (λ i, verts !! i) <$> (take k (quads shape) ≫= corners) ∧
                Forall2 R2 (take k (quads shape)) P).
  assert (Hloop : ∃ st, for_loop (explodeStep verts) (seq 0 n)
                          ([], quads shape) = Some st ∧ I n st).
  { apply (for_loop_seq_inv (explodeStep verts) I n).
    - intros k [nvs qs] Hk (P & Eq & LP & Hc & Hv & HR).
      cbn [fst snd] in *.
      destruct (lookup_lt_is_Some_2 (quads shape) k Hk) as [q Eq_].
      pose proof (Forall_lookup_1 _ _ _ _ Hb Eq_) as (B0 & B1 & B2 & B3).
      destruct (lookup_lt_is_Some_2 _ _ B0) as [pa Ea].
      destruct (lookup_lt_is_Some_2 _ _ B1) as [pb Eb].
      destruct (lookup_lt_is_Some_2 _ _ B2) as [pc Ec].
      fold verts in Ea, Eb, Ec.
      rewrite (drop_S _ _ _ Eq_) in Eq.
      unfold explodeStep. rewrite Eq.
      rewrite (list_lookup_middle P _ q k (eq_sym LP)).
      cbn [mbind option_bind]. rewrite Ea, Eb, Ec. cbn [mbind option_bind].
      rewrite !point_eta.
      assert (Hbq : ∀ f : QuadFace, [f] ≫= corners = corners f)
        by (intros; apply app_nil_r).
      destruct (i3 q) as [j3|] eqn:E3.
      + destruct (lookup_lt_is_Some_2 _ _ (B3 j3 eq_refl)) as [pd Ed].
        fold verts in Ed. rewrite Ed. cbn [mbind option_bind].
        rewrite point_eta.
        eexists. split; [reflexivity|]. unfold I. cbn [fst snd].
        rewrite (take_S_r _ _ _ Eq_), bind_app, Hbq.
        eexists (P ++ [_]). split.
        { rewrite insert_app_r_alt by lia.
          rewrite LP, Nat.sub_diag. cbn [insert list_insert].
          rewrite <- app_assoc. reflexivity. }
        split; [rewrite length_app; simpl; lia|].
        split.
        { rewrite bind_app, Hbq, Hc, <- app_assoc, !length_app. cbn [length].
          rewrite (seq_app (length nvs) (3 + 1) 0).
          f_equal. cbn [corners i0 i1 i2 i3 app seq Nat.add].
          repeat (f_equal; try lia). }
        split.
        { rewrite !fmap_app, Hv, <- app_assoc. f_equal.
          unfold corners. rewrite E3. cbn [fmap list_fmap app].
          rewrite Ea, Eb, Ec, Ed. reflexivity. }
        apply Forall2_app; [exact HR|].
        constructor; [|constructor].
        unfold R2, isTriangle. cbn. rewrite E3. done.
      + eexists. split; [reflexivity|]. unfold I. cbn [fst snd].
        rewrite (take_S_r _ _ _ Eq_), bind_app, Hbq.
        eexists (P ++ [_]). split.
        { rewrite insert_app_r_alt by lia.
          rewrite LP, Nat.sub_diag. cbn [insert list_insert].
          rewrite <- app_assoc. reflexivity. }
        split; [rewrite length_app; simpl; lia|].
        split.
        { rewrite bind_app, Hbq, Hc, !length_app. cbn [length].
          rewrite (seq_app (length nvs) 3 0).
          f_equal. cbn [corners i0 i1 i2 i3 app seq Nat.add].
          repeat (f_equal; try lia). }
        split.
        { rewrite !fmap_app, Hv. f_equal.
          unfold corners. rewrite E3. cbn [fmap list_fmap app].
          rewrite Ea, Eb, Ec. reflexivity. }
        apply Forall2_app; [exact HR|].
        constructor; [|constructor].
        unfold R2, isTriangle. cbn. rewrite E3. done.
    - exists []. cbn [fst snd]. rewrite drop_0.
      split; [reflexivity|]. split; [reflexivity|]. split; [reflexivity|].
      split; [reflexivity | constructor]. }
  destruct Hloop as ([nvs qs] & Eloop & P & Eq & LP & Hc & Hv & HR).
  cbn [fst snd] in *.
  unfold n in Eq, HR, Hv. rewrite drop_all, app_nil_r in Eq.
  rewrite firstn_all in HR, Hv. subst qs.
  unfold explodeFaces. fold n verts. rewrite Eloop. cbn [mbind option_bind].
  eexists. split; [reflexivity|]. cbn [vertices quads].
  split; [exact Hc|]. split; [exact Hv | exact HR].
Qed.

Lemma explodeFaces_unshares_vertices_witness :
  let shape :=
    mkShape [P3 0 0 0; P3 1 0 0; P3 1 1 0; P3 0 1 0]
      [newQuadFace 0 1 2 (Some 3%nat); newQuadFace 0 2 3 None] in
  ∃ shape',
    explodeFaces shape = Some shape' ∧
    quads shape' ≫= corners = seq 0 (length (vertices shape')) ∧
    Some <$> vertices shape'
    = (λ i, vertices shape !! i) <$> (quads shape ≫= corners) ∧
    Forall2 (λ q q', isTriangle q' = isTriangle q ∧
                     centroid q' = centroid q ∧
                     normal1 q' = normal1 q ∧ normal2 q' = normal2 q)
      (quads shape) (quads shape').
Proof.
  intros shape. apply (explodeFaces_unshares_vertices shape).
  unfold shape_in_bounds, face_in_bounds, shape. simpl.
  solve_in_bounds; discriminate.
Defined.

(** ** makeBox, makeSphericalShape, makeSphere *)

(** X17: for positive [w], [h], [d], [makeBox] returns 8 vertices and 6
    faces, and on every face the two normals are the same vector, which
    points away from the centre of the box: its dot product with the
    centroid of the face is positive. *)
Theorem makeBox_normals_point_outward (w h d : R) :
  0 < w → 0 < h → 0 < d →
  ∃ s, makeBox w h d = Some s ∧
       length (vertices s) = 8%nat ∧
       length (quads s) = 6%nat ∧
       Forall (λ qf, ∃ c n,
                 centroid qf = Some c ∧ normal1 qf = Some n ∧
                 normal2 qf = Some n ∧ 0 < dotProduct3d n c) (quads s).
Proof.
  intros Hw Hh Hd.
  assert (0 < w * h) as Hwh by (apply Rmult_lt_0_compat; assumption).
  assert (0 < h * d) as Hhd by (apply Rmult_lt_0_compat; assumption).
  assert (0 < w * d) as Hwd by (apply Rmult_lt_0_compat; assumption).
  assert (0 < w * h * d) as Hwhd by (apply Rmult_lt_0_compat; assumption).
  eexists. split; [reflexivity|].
  split; [reflexivity|]. split; [reflexivity|].
  repeat apply Forall_cons_2; try apply Forall_nil_2;
    (eexists _, _; split; [reflexivity|]; split; [reflexivity|]; split;
     [ simpl; f_equal; apply Point3d_eq; simpl; ring
     | unfold dotProduct3d; simpl; nra ]).
Qed.

Lemma makeBox_normals_point_outward_witness :
  ∃ s, makeBox 1 2 3 = Some s ∧
       length (vertices s) = 8%nat ∧
       length (quads s) = 6%nat ∧
       Forall (λ qf, ∃ c n,
                 centroid qf = Some c ∧ normal1 qf = Some n ∧
                 normal2 qf = Some n ∧ 0 < dotProduct3d n c) (quads s).
Proof. apply (makeBox_normals_point_outward 1 2 3); lra. Defined.

Lemma foldl_snoc_fmap {A B : Type} (g : B → A) (l : list B) (acc : list A) :
  foldl (λ acc b, acc ++ [g b]) acc l = acc ++ (g <$> l).
Proof.
  revert acc. induction l as [|b l IH]; intros acc; simpl.
  - by rewrite app_nil_r.
  - rewrite IH, <- app_assoc. reflexivity.
Qed.

Lemma foldl_length_add {A B : Type} (f : list A → B → list A) (c : nat) :
  (∀ acc b, length (f acc b) = (length acc + c)%nat) →
  ∀ l acc, length (foldl f acc l) = (length acc + c * length l)%nat.
Proof.
  intros Hf l. induction l as [|b l IH]; intros acc; simpl.
  - lia.
  - rewrite IH, Hf. lia.
Qed.

Lemma foldl_Forall {A B : Type} (f : list A → B → list A)
  (P : A → Prop) (Q : B → Prop) :
  (∀ acc b, Q b → Forall P acc → Forall P (f acc b)) →
  ∀ l acc, Forall Q l → Forall P acc → Forall P (foldl f acc l).
Proof.
  intros Hf l. induction l as [|b l IH]; intros acc Hl Hacc; simpl.
  - exact Hacc.
  - apply Forall_cons in Hl as [Hb Hl]. apply IH; [exact Hl|].
    by apply Hf.
Qed.

Lemma seq_0_Forall_lt (n : nat) : Forall (λ i, (i < n)%nat) (seq 0 n).
Proof. apply Forall_seq. intros; lia. Qed.

Lemma sphereRow_app (f : R → R → Point3d) (tess_x : nat)
  (phi_step theta : R) (vs : list Point3d) :
  sphereRow f tess_x phi_step theta vs
  = vs ++ ((λ j : nat, f theta (phi_step * INR j)) <$> seq 0 tess_x).
Proof. apply (foldl_snoc_fmap (λ j : nat, f theta (phi_step * INR j))). Qed.

Lemma sphereGridVertices_loop (f : R → R → Point3d) (tess_x : nat)
  (theta_step phi_step : R) (P : Point3d → Prop) :
  (∀ theta phi, P (f theta phi)) →
  ∀ (l : list nat) (vs : list Point3d) (theta : R),
    Forall P vs →
    length (foldl (λ (st : list Point3d * R) (i : nat),
                     (sphereRow f tess_x phi_step st.2 st.1,
                      st.2 + theta_step)) (vs, theta) l).1
    = (length vs + tess_x * length l)%nat ∧
    Forall P (foldl (λ (st : list Point3d * R) (i : nat),
                       (sphereRow f tess_x phi_step st.2 st.1,
                        st.2 + theta_step)) (vs, theta) l).1.
Proof.
  intros HP l. induction l as [|i l IH]; intros vs theta Hvs.
  - simpl. split; [lia | exact Hvs].
  - cbn [foldl fst snd].
    destruct (IH (sphereRow f tess_x phi_step theta vs) (theta + theta_step))
      as [Hl HF].
    + rewrite sphereRow_app. apply Forall_app. split; [exact Hvs|].
      apply Forall_fmap, Forall_forall. intros j _. apply HP.
    + split; [|exact HF].
      rewrite Hl, sphereRow_app, length_app, length_fmap, length_seq.
      cbn [length]. lia.
Qed.

Lemma sphereGridVertices_ok (f : R → R → Point3d) (tess_x tess_y : nat)
  (theta_step phi_step : R) (P : Point3d → Prop) :
  (∀ theta phi, P (f theta phi)) →
  length (sphereGridVertices f tess_x tess_y theta_step phi_step)
  = (tess_x * tess_y)%nat ∧
  Forall P (sphereGridVertices f tess_x tess_y theta_step phi_step).
Proof.
  intros HP. unfold sphereGridVertices.
  destruct (sphereGridVertices_loop f tess_x theta_step phi_step P HP
              (seq 0 tess_y) [] theta_step (Forall_nil_2 P)) as [Hl HF].
  split; [|exact HF]. rewrite Hl, length_seq. simpl. lia.
Qed.

Lemma sphereGridQuads_ok (tess_x tess_y : nat) :
  length (sphereGridQuads tess_x tess_y) = (tess_x * (tess_y - 1))%nat ∧
  Forall (λ qf, face_in_bounds (tess_x * tess_y) qf ∧ is_Some (i3 qf))
    (sphereGridQuads tess_x tess_y).
Proof.
  unfold sphereGridQuads. split.
  - rewrite (foldl_length_add _ tess_x).
    + rewrite length_seq. simpl. lia.
    + intros acc i. rewrite (foldl_length_add _ 1).
      * rewrite length_seq. lia.
      * intros acc' j. rewrite length_app. simpl. lia.
  - apply (foldl_Forall _ _ (λ i, (i < tess_y - 1)%nat));
      [| apply seq_0_Forall_lt | apply Forall_nil_2].
    intros acc i Hi Hacc.
    apply (foldl_Forall _ _ (λ j, (j < tess_x)%nat));
      [| apply seq_0_Forall_lt | exact Hacc].
    intros acc' j Hj Hacc'. apply Forall_app. split; [exact Hacc'|].
    apply Forall_singleton.
    pose proof (Nat.mod_upper_bound (j + 1) tess_x ltac:(lia)) as Hn.
    assert ((i + 2) * tess_x ≤ tess_x * tess_y)%nat as Hrow
      by (rewrite (Nat.mul_comm tess_x); apply Nat.mul_le_mono_r; lia).
    split; [|by eexists].
    unfold face_in_bounds. simpl.
    split; [lia|]. split; [lia|]. split; [lia|].
    intros j3 [= <-]. lia.
Qed.

Lemma spherePoleTriangles_ok (tess_x top_p_i bot_p_i last_row n : nat)
  (qs : list QuadFace) :
  (tess_x ≤ n)%nat → (top_p_i < n)%nat → (bot_p_i < n)%nat →
  (last_row + tess_x ≤ n)%nat →
  Forall (face_in_bounds n) qs →
  length (spherePoleTriangles tess_x top_p_i bot_p_i last_row qs)
  = (length qs + 2 * tess_x)%nat ∧
  Forall (face_in_bounds n)
    (spherePoleTriangles tess_x top_p_i bot_p_i last_row qs).
Proof.
  intros Hx Ht Hb Hl Hqs. unfold spherePoleTriangles. split.
  - rewrite (foldl_length_add _ 2).
    + rewrite length_seq. lia.
    + intros acc i. rewrite !length_app. simpl. lia.
  - apply (foldl_Forall _ _ (λ i, (i < tess_x)%nat));
      [| apply seq_0_Forall_lt | exact Hqs].
    intros acc i Hi Hacc.
    pose proof (Nat.mod_upper_bound (i + 1) tess_x ltac:(lia)) as H1.
    pose proof (Nat.mod_upper_bound (i + 2) tess_x ltac:(lia)) as H2.
    rewrite <- app_assoc. apply Forall_app. split; [exact Hacc|].
    simpl. repeat apply Forall_cons_2; try apply Forall_nil_2;
      unfold face_in_bounds; simpl;
      (split; [lia|]; split; [lia|]; split; [lia|]; intros j3 [=]).
Qed.

(** [makeSphericalShape] with at least one ring of the grid. *)
Lemma makeSphericalShape_ok (f : R → R → Point3d) (tess_x tess_y : nat)
  (P : Point3d → Prop) :
  (1 ≤ tess_y)%nat →
  (∀ theta phi, P (f theta phi)) →
  ∃ s, makeSphericalShape f tess_x tess_y = Some s ∧
       length (vertices s) = (tess_x * tess_y + 2)%nat ∧
       length (quads s) = (tess_x * (tess_y - 1) + 2 * tess_x)%nat ∧
       shape_in_bounds s ∧
       Forall face_has_meta (quads s) ∧
       Forall P (vertices s) ∧
       vertices s !! (tess_x * tess_y)%nat = Some (f 0 0) ∧
       vertices s !! (tess_x * tess_y + 1)%nat = Some (f PI 0).
Proof.
  intros Hy HP. unfold makeSphericalShape.
  destruct (sphereGridVertices_ok f tess_x tess_y
              (PI / INR (tess_y + 1)) (k2PI / INR tess_x) P HP) as [Hlv HFv].
  destruct (sphereGridQuads_ok tess_x tess_y) as [Hlq HFq].
  set (vs := sphereGridVertices f tess_x tess_y
               (PI / INR (tess_y + 1)) (k2PI / INR tess_x)) in *.
  assert (tess_x ≤ tess_x * tess_y)%nat as Hxy
    by (rewrite <- (Nat.mul_1_r tess_x) at 1; apply Nat.mul_le_mono_l; lia).
  destruct (decide (length vs < tess_x)%nat) as [Hlt|_]; [lia|].
  destruct (spherePoleTriangles_ok tess_x (length vs) (length vs + 1)
              (length vs - tess_x) (tess_x * tess_y + 2)
              (sphereGridQuads tess_x tess_y)) as [Hlp HFp];
    [lia | lia | lia | lia | |].
  { eapply Forall_impl; [exact HFq|]. intros qf [Hqf _].
    eapply face_in_bounds_mono; [|exact Hqf]. lia. }
  set (qs := spherePoleTriangles tess_x (length vs) (length vs + 1)
               (length vs - tess_x) (sphereGridQuads tess_x tess_y)) in *.
  assert (length ((vs ++ [f 0 0]) ++ [f PI 0]) = (tess_x * tess_y + 2)%nat)
    as Hlen by (rewrite !length_app; simpl; lia).
  destruct (rebuildMeta_ok (mkShape ((vs ++ [f 0 0]) ++ [f PI 0]) qs))
    as (qs' & E & HF2).
  { unfold shape_in_bounds. cbn [vertices quads]. rewrite Hlen. exact HFp. }
  cbn [vertices quads] in E, HF2.
  eexists. split; [exact E|]. cbn [vertices quads].
  split; [exact Hlen|].
  split; [rewrite <- (Forall2_length _ _ _ HF2), Hlp, Hlq; reflexivity|].
  split; [|split; [|split; [|split]]].
  - unfold shape_in_bounds. cbn [vertices quads]. rewrite Hlen.
    apply Forall_lookup. intros k qf' Hk.
    destruct (Forall2_lookup_r _ _ _ _ _ HF2 Hk) as (qf & Hqf & (Hidx & _)).
    pose proof (proj1 (Forall_lookup _ _) HFp k qf Hqf) as Hb.
    unfold face_in_bounds in *. unfold face_indices in Hidx.
    injection Hidx as -> -> -> ->. exact Hb.
  - apply Forall_lookup. intros k qf' Hk.
    destruct (Forall2_lookup_r _ _ _ _ _ HF2 Hk)
      as (qf & Hqf & (_ & v0 & v1 & v2 & _ & _ & _ & Hn1 & Hrest)).
    unfold face_has_meta. rewrite Hn1.
    destruct (i3 qf).
    + destruct Hrest as (v3 & _ & -> & ->). by repeat split; eexists.
    + destruct Hrest as (-> & ->). rewrite Hn1. by repeat split; eexists.
  - repeat (apply Forall_app; split); [exact HFv | |];
      apply Forall_singleton, HP.
  - rewrite <- Hlv. rewrite <- app_assoc. apply list_lookup_middle. reflexivity.
  - rewrite <- Hlv.
    replace (length vs + 1)%nat with (length (vs ++ [f 0 0]))
      by (rewrite length_app; simpl; lia).
    apply list_lookup_middle. reflexivity.
Qed.

(** X18: with at least one ring ([1 ≤ tess_y]) [makeSphericalShape] does
    not throw; the shape has [tess_x * tess_y + 2] vertices, the last two
    being [f(0, 0)] and [f(PI, 0)], and [tess_x * (tess_y - 1)] grid faces
    plus [2 * tess_x] pole triangles; every index is in bounds and every
    face has its metadata. *)
Theorem makeSphericalShape_counts (f : R → R → Point3d)
  (tess_x tess_y : nat) :
  (1 ≤ tess_y)%nat →
  ∃ s, makeSphericalShape f tess_x tess_y = Some s ∧
       length (vertices s) = (tess_x * tess_y + 2)%nat ∧
       length (quads s) = (tess_x * (tess_y - 1) + 2 * tess_x)%nat ∧
       shape_in_bounds s ∧
       Forall face_has_meta (quads s) ∧
       vertices s !! (tess_x * tess_y)%nat = Some (f 0 0) ∧
       vertices s !! (tess_x * tess_y + 1)%nat = Some (f PI 0).
Proof.
  intros Hy.
  destruct (makeSphericalShape_ok f tess_x tess_y (λ _, True) Hy)
    as (s & E & Hv & Hq & Hb & Hm & _ & Ht & Hbot); [done|].
  exists s. repeat split; assumption.
Qed.

Lemma makeSphericalShape_counts_witness :
  ∃ s, makeSphericalShape (λ theta phi, P3 theta phi 0) 4 3 = Some s ∧
       length (vertices s) = (4 * 3 + 2)%nat ∧
       length (quads s) = (4 * (3 - 1) + 2 * 4)%nat ∧
       shape_in_bounds s ∧
       Forall face_has_meta (quads s) ∧
       vertices s !! (4 * 3)%nat = Some (P3 0 0 0) ∧
       vertices s !! (4 * 3 + 1)%nat = Some (P3 PI 0 0).
Proof.
  apply (makeSphericalShape_counts (λ theta phi, P3 theta phi 0) 4 3). lia.
Defined.

(** X19: every vertex of [makeSphere(r, tess_x, tess_y)] lies at distance
    [|r|] from the origin, and the two poles are [(0, r, 0)] and
    [(0, -r, 0)]. *)
Theorem makeSphere_vertices_on_sphere (r : R) (tess_x tess_y : nat) :
  (1 ≤ tess_y)%nat →
  ∃ s, makeSphere r tess_x tess_y = Some s ∧
       Forall (λ v, vecMag3d v = Rabs r) (vertices s) ∧
       vertices s !! (tess_x * tess_y)%nat = Some (P3 0 r 0) ∧
       vertices s !! (tess_x * tess_y + 1)%nat = Some (P3 0 (- r) 0).
Proof.
  intros Hy. unfold makeSphere.
  edestruct (makeSphericalShape_ok
               (λ theta phi,
                  {| x := r * sin theta * sin phi;
                     y := r * cos theta;
                     z := r * sin theta * cos phi |})
               tess_x tess_y (λ v, vecMag3d v = Rabs r) Hy)
    as (s & E & _ & _ & _ & _ & HP & Ht & Hbot).
  { intros theta phi. unfold vecMag3d. cbn [x y z].
    rewrite <- sqrt_Rsqr_abs. f_equal. unfold Rsqr.
    replace (r * sin theta * sin phi * (r * sin theta * sin phi)
             + r * cos theta * (r * cos theta)
             + r * sin theta * cos phi * (r * sin theta * cos phi))
      with (r * r * (sin theta * sin theta
                     * (sin phi * sin phi + cos phi * cos phi)
                     + cos theta * cos theta)) by ring.
    rewrite (sin_cos_square phi), Rmult_1_r, (sin_cos_square theta). ring. }
  exists s. split; [exact E|]. split; [exact HP|].
  rewrite Ht, Hbot, sin_0, cos_0, sin_PI, cos_PI.
  split; f_equal; apply Point3d_eq; cbn [x y z]; ring.
Qed.

Lemma makeSphere_vertices_on_sphere_witness :
  ∃ s, makeSphere 2 6 3 = Some s ∧
       Forall (λ v, vecMag3d v = Rabs 2) (vertices s) ∧
       vertices s !! (6 * 3)%nat = Some (P3 0 2 0) ∧
       vertices s !! (6 * 3 + 1)%nat = Some (P3 0 (- 2) 0).
Proof. apply (makeSphere_vertices_on_sphere 2 6 3). lia. Defined.

(** ** Extruder.extrude for any selection and any count *)

Lemma corners_indices (a b : QuadFace) :
  face_indices a = face_indices b → corners a = corners b.
Proof. unfold face_indices, corners. intros [= -> -> -> ->]. reflexivity. Qed.

Lemma corners_length_kind (a b : QuadFace) :
  length (corners a) = length (corners b) → (i3 a = None ↔ i3 b = None).
Proof.
  unfold corners. destruct (i3 a), (i3 b); simpl; intros H;
    split; intros E; try reflexivity; try discriminate; lia.
Qed.

(** One step of the inner loop, for a triangle or a quad. *)
Lemma extrudeStep_any (ex : Extruder.t) (k : nat)
  (oc sn in0 in1 in2 : Point3d) (in3 : option Point3d)
  (vs : list Point3d) (qs : list QuadFace) (face : QuadFace) (zi : nat) :
  qs !! k = Some face →
  (in3 = None ↔ i3 face = None) →
  face_in_bounds (length vs) face →
  ∃ vs_new ns face',
    Extruder.extrudeStep ex k oc sn in0 in1 in2 in3 (vs, qs) zi
    = Some (vs ++ vs_new, <[k := face']> qs ++ ns) ∧
    length vs_new = length (corners face) ∧
    length ns = length (corners face) ∧
    length (corners face') = length (corners face) ∧
    face_in_bounds (length vs + length (corners face)) face' ∧
    Forall (λ q, face_in_bounds (length vs + length (corners face)) q ∧
                 is_Some (i3 q)) ns.
Proof.
  intros Hk Hkind (B0 & B1 & B2 & B3).
  pose proof (lookup_lt_Some _ _ _ Hk) as Hklt.
  unfold Extruder.extrudeStep. rewrite Hk. cbn [mbind option_bind].
  destruct in3 as [p3|].
  - destruct (i3 face) as [j3|] eqn:E3.
    2:{ destruct Hkind as [_ H]. discriminate (H eq_refl). }
    specialize (B3 j3 eq_refl). cbn [mbind option_bind].
    eexists [_; _; _; _], [_; _; _; _], _. split.
    { f_equal. f_equal.
      - rewrite <- app_assoc. reflexivity.
      - rewrite insert_app_l by lia. reflexivity. }
    unfold corners. rewrite E3. simpl.
    split; [reflexivity|]. split; [reflexivity|]. split; [reflexivity|].
    split.
    + unfold face_in_bounds. simpl.
      repeat split; try lia. intros ? [= <-]. lia.
    + repeat apply Forall_cons_2; try apply Forall_nil_2;
        (split; [|by eexists]); unfold face_in_bounds; simpl;
        repeat split; try lia; intros ? [= <-]; lia.
  - destruct (i3 face) as [j3|] eqn:E3.
    1:{ destruct Hkind as [H _]. discriminate (H eq_refl). }
    eexists [_; _; _], [_; _; _], _. split.
    { f_equal. f_equal. rewrite insert_app_l by lia. reflexivity. }
    unfold corners. rewrite E3. simpl.
    split; [reflexivity|]. split; [reflexivity|]. split; [reflexivity|].
    split.
    + unfold face_in_bounds. simpl.
      repeat split; try lia. intros ? [=].
    + repeat apply Forall_cons_2; try apply Forall_nil_2;
        (split; [|by eexists]); unfold face_in_bounds; simpl;
        repeat split; try lia; intros ? [= <-]; lia.
Qed.

(** The inner loop of [extrude] on the face at [k], for [n] steps. *)
Lemma extrude_steps (ex : Extruder.t) (k : nat)
  (oc sn in0 in1 in2 : Point3d) (in3 : option Point3d)
  (vs : list Point3d) (qs : list QuadFace) (face : QuadFace) (n : nat) :
  qs !! k = Some face →
  (in3 = None ↔ i3 face = None) →
  Forall (face_in_bounds (length vs)) qs →
  ∃ vs' qs',
    for_loop (Extruder.extrudeStep ex k oc sn in0 in1 in2 in3) (seq 0 n)
      (vs, qs) = Some (vs', qs') ∧
    length vs' = (length vs + n * length (corners face))%nat ∧
    take (length vs) vs' = vs ∧
    length qs' = (length qs + n * length (corners face))%nat ∧
    Forall (face_in_bounds (length vs')) qs' ∧
    (∀ j, j ≠ k → (j < length qs)%nat → qs' !! j = qs !! j) ∧
    (∃ f, qs' !! k = Some f ∧ length (corners f) = length (corners face)) ∧
    (∀ j q, (length qs ≤ j)%nat → qs' !! j = Some q → is_Some (i3 q)).
Proof.
  intros Hk Hkind Hb.
  pose proof (lookup_lt_Some _ _ _ Hk) as Hklt.
  destruct (for_loop_seq_inv
              (Extruder.extrudeStep ex k oc sn in0 in1 in2 in3)
              (λ z (s : list Point3d * list QuadFace),
                 length s.1 = (length vs + z * length (corners face))%nat ∧
                 take (length vs) s.1 = vs ∧
                 length s.2 = (length qs + z * length (corners face))%nat ∧
                 Forall (face_in_bounds (length s.1)) s.2 ∧
                 (∀ j, j ≠ k → (j < length qs)%nat → s.2 !! j = qs !! j) ∧
                 (∃ f, s.2 !! k = Some f ∧
                       length (corners f) = length (corners face)) ∧
                 (∀ j q, (length qs ≤ j)%nat → s.2 !! j = Some q →
                         is_Some (i3 q)))
              n) with (s := (vs, qs)) as ([vs' qs'] & E & HI).
  - intros z [vs1 qs1] _ (Hlv & Htk & Hlq & Hb1 & Hsame & (f & Hf & Hcf) & Hnew).
    cbn [fst snd] in *.
    assert (in3 = None ↔ i3 f = None) as Hkind1.
    { rewrite Hkind. symmetry. by apply corners_length_kind. }
    destruct (extrudeStep_any ex k oc sn in0 in1 in2 in3 vs1 qs1 f z Hf Hkind1
                (Forall_lookup_1 _ _ _ _ Hb1 Hf))
      as (vn & ns & f' & Estep & Hvn & Hns & Hcf' & Hbf' & Hbns).
    rewrite Hcf in *.
    eexists. split; [exact Estep|]. cbn [fst snd].
    rewrite !length_app, length_insert, Hvn, Hns.
    split; [lia|]. split; [by rewrite take_app_le by lia|].
    split; [lia|]. split; [|split; [|split]].
    + apply Forall_app. split.
      * apply Forall_insert; [|exact Hbf'].
        eapply Forall_impl; [exact Hb1|].
        intros q Hq. eapply face_in_bounds_mono; [|exact Hq]. lia.
      * eapply Forall_impl; [exact Hbns|]. by intros q [Hq _].
    + intros j Hjk Hj.
      rewrite lookup_app_l by (rewrite length_insert; lia).
      rewrite list_lookup_insert_ne by done. by apply Hsame.
    + exists f'. split; [|exact Hcf'].
      rewrite lookup_app_l by (rewrite length_insert; lia).
      apply list_lookup_insert_eq. lia.
    + intros j q Hj Hq.
      destruct (decide (j < length qs1)%nat) as [Hlt|Hge].
      * rewrite lookup_app_l in Hq by (rewrite length_insert; lia).
        rewrite list_lookup_insert_ne in Hq by lia.
        by apply (Hnew j q).
      * rewrite lookup_app_r in Hq by (rewrite length_insert; lia).
        by destruct (Forall_lookup_1 _ _ _ _ Hbns Hq).
  - cbn [fst snd]. split; [lia|]. split; [by rewrite firstn_all|].
    split; [lia|]. split; [exact Hb|]. split; [done|].
    split; [by exists face|].
    intros j q Hj Hq. apply lookup_lt_Some in Hq. lia.
  - exists vs', qs'. split; [exact E|]. exact HI.
Qed.

Lemma NoDup_List_filter {A : Type} (f : A → bool) (l : list A) :
  NoDup l → NoDup (List.filter f l).
Proof.
  induction 1 as [|a l Ha Hnd IH]; simpl; [constructor|].
  destruct (f a); [|exact IH]. constructor; [|exact IH].
  rewrite list_elem_of_In, List.filter_In, <- list_elem_of_In. tauto.
Qed.

(** One selected face: [extrudeFace] runs when the face has its metadata
    and its indices are in bounds. *)
Lemma extrudeFace_ok (ex : Extruder.t) (k : nat) (vs : list Point3d)
  (qs : list QuadFace) (face : QuadFace) :
  qs !! k = Some face →
  face_has_meta face →
  Forall (face_in_bounds (length vs)) qs →
  ∃ vs' qs',
    Extruder.extrudeFace ex (vs, qs) k = Some (vs', qs') ∧
    length vs'
    = (length vs + Extruder.count ex * length (corners face))%nat ∧
    take (length vs) vs' = vs ∧
    length qs'
    = (length qs + Extruder.count ex * length (corners face))%nat ∧
    Forall (face_in_bounds (length vs')) qs' ∧
    (∀ j, j ≠ k → (j < length qs)%nat → qs' !! j = qs !! j) ∧
    (∃ f, qs' !! k = Some f ∧ length (corners f) = length (corners face)) ∧
    (∀ j q, (length qs ≤ j)%nat → qs' !! j = Some q → is_Some (i3 q)).
Proof.
  intros Hk ([c Hc] & [n1 Hn1] & [n2 Hn2]) Hb.
  pose proof (Forall_lookup_1 _ _ _ _ Hb Hk) as (B0 & B1 & B2 & B3).
  destruct (lookup_lt_is_Some_2 vs _ B0) as [v0 E0].
  destruct (lookup_lt_is_Some_2 vs _ B1) as [v1 E1].
  destruct (lookup_lt_is_Some_2 vs _ B2) as [v2 E2].
  unfold Extruder.extrudeFace. rewrite Hk. cbn [mbind option_bind].
  rewrite Hc, Hn1, Hn2. cbn [mbind option_bind].
  rewrite E0, E1, E2. cbn [mbind option_bind].
  destruct (i3 face) as [j3|] eqn:E3.
  - destruct (lookup_lt_is_Some_2 vs _ (B3 j3 eq_refl)) as [v3 Ev3].
    rewrite Ev3. cbn [mbind option_bind].
    apply extrude_steps; [exact Hk | | exact Hb].
    rewrite E3. split; discriminate.
  - cbn [mbind option_bind].
    apply extrude_steps; [exact Hk | | exact Hb].
    rewrite E3. split; reflexivity.
Qed.

(** The loop of [extrude] over the selected faces [fs]; [orig] is the face
    array before the loop. *)
Lemma extrude_faces (ex : Extruder.t) (orig : list QuadFace) :
  ∀ (fs : list nat) (vs : list Point3d) (qs : list QuadFace),
    NoDup fs →
    Forall (face_in_bounds (length vs)) qs →
    (∀ j, j ∈ fs →
          ∃ q, orig !! j = Some q ∧ qs !! j = Some q ∧ face_has_meta q) →
    ∃ vs' qs',
      for_loop (Extruder.extrudeFace ex) fs (vs, qs) = Some (vs', qs') ∧
      take (length vs) vs' = vs ∧
      length vs'
      = (length vs
         + Extruder.count ex
           * sum_list ((λ j, from_option (λ qf, length (corners qf)) 0%nat
                               (orig !! j)) <$> fs))%nat ∧
      length qs'
      = (length qs
         + Extruder.count ex
           * sum_list ((λ j, from_option (λ qf, length (corners qf)) 0%nat
                               (orig !! j)) <$> fs))%nat ∧
      Forall (face_in_bounds (length vs')) qs' ∧
      (∀ j q, qs !! j = Some q →
              ∃ q', qs' !! j = Some q' ∧
                    length (corners q') = length (corners q) ∧
                    (j ∉ fs → q' = q)) ∧
      (∀ j q, (length qs ≤ j)%nat → qs' !! j = Some q → is_Some (i3 q)).
Proof.
  induction fs as [|k fs IH]; intros vs qs Hnd Hb Hsel.
  - exists vs, qs. split; [reflexivity|]. split; [by rewrite firstn_all|].
    simpl. split; [lia|]. split; [lia|]. split; [exact Hb|]. split.
    + intros j q Hq. by exists q.
    + intros j q Hj Hq. apply lookup_lt_Some in Hq. lia.
  - apply NoDup_cons in Hnd as [Hk Hnd].
    destruct (Hsel k) as (face & Ho & Hq & Hm); [by left|].
    pose proof (lookup_lt_Some _ _ _ Hq) as Hklt.
    destruct (extrudeFace_ok ex k vs qs face Hq Hm Hb)
      as (vs1 & qs1 & E1 & Hlv1 & Htk1 & Hlq1 & Hb1 & Hsame1 & (f & Hf & Hcf)
          & Hnew1).
    destruct (IH vs1 qs1 Hnd Hb1)
      as (vs2 & qs2 & E2 & Htk2 & Hlv2 & Hlq2 & Hb2 & Hkeep2 & Hnew2).
    { intros j Hj. destruct (Hsel j) as (q & Hoj & Hqj & Hmj); [by right|].
      exists q. split; [exact Hoj|]. split; [|exact Hmj].
      rewrite Hsame1; [exact Hqj | | by eapply lookup_lt_Some].
      intros ->. contradiction. }
    exists vs2, qs2. split; [cbn [for_loop]; rewrite E1; exact E2|].
    split.
    { transitivity (take (length vs) (take (length vs1) vs2)).
      - rewrite take_take. f_equal. lia.
      - rewrite Htk2. exact Htk1. }
    rewrite fmap_cons.
    change (sum_list (?a :: ?l)) with (a + sum_list l)%nat.
    rewrite Ho. cbn [from_option].
    rewrite Nat.mul_add_distr_l.
    split; [rewrite Hlv2, Hlv1; lia|]. split; [rewrite Hlq2, Hlq1; lia|].
    split; [exact Hb2|]. split.
    + intros j q Hj. destruct (decide (j = k)) as [->|Hjk].
      * assert (q = face) as -> by congruence.
        destruct (Hkeep2 k f Hf) as (q' & Hq' & Hc' & _).
        exists q'. split; [exact Hq'|]. split; [congruence|].
        intros Hn. exfalso. apply Hn. by left.
      * assert (qs1 !! j = Some q) as Hj1.
        { rewrite Hsame1; [exact Hj | exact Hjk | by eapply lookup_lt_Some]. }
        destruct (Hkeep2 j q Hj1) as (q' & Hq' & Hc' & Heq).
        exists q'. split; [exact Hq'|]. split; [exact Hc'|].
        intros Hn. apply Heq. intros Hin. apply Hn. by right.
    + intros j q Hj Hq2.
      destruct (decide (length qs1 ≤ j)%nat) as [Hge|Hlt].
      * by apply (Hnew2 j q).
      * destruct (lookup_lt_is_Some_2 qs1 j ltac:(lia)) as [q1 Hq1].
        destruct (Hkeep2 j q1 Hq1) as (q' & Hq' & _ & Heq).
        assert (q' = q) as -> by congruence.
        rewrite Heq; [by apply (Hnew1 j q1)|].
        intros Hin. destruct (Hsel j) as (q0 & _ & Hq0 & _); [by right|].
        apply lookup_lt_Some in Hq0. lia.
Qed.

(** X20: on a shape in bounds whose faces have their metadata, [extrude]
    does not throw, for every selector and every count.  It keeps the old
    vertices at their indices and appends [count] vertices and [count] side
    faces per corner of a selected face; the side faces are all quads; a face
    that is not selected keeps its indices, a selected one stays a triangle
    or a quad; every index of the result is in bounds. *)
Theorem extrude_any_selection (ex : Extruder.t) (shape : Shape) :
  shape_in_bounds shape →
  Forall face_has_meta (quads shape) →
  ∃ shape',
    Extruder.extrude ex shape = Some shape' ∧
    take (length (vertices shape)) (vertices shape') = vertices shape ∧
    length (vertices shape')
    = (length (vertices shape)
       + Extruder.count ex * selected_corners ex shape)%nat ∧
    length (quads shape')
    = (length (quads shape)
       + Extruder.count ex * selected_corners ex shape)%nat ∧
    shape_in_bounds shape' ∧
    (∀ j qf, quads shape !! j = Some qf →
             ∃ qf', quads shape' !! j = Some qf' ∧
                    length (corners qf') = length (corners qf) ∧
                    (Extruder.selector_ ex shape j = false →
                     face_indices qf' = face_indices qf)) ∧
    Forall (λ qf, is_Some (i3 qf))
      (drop (length (quads shape)) (quads shape')).
Proof.
  intros Hb Hm. unfold Extruder.extrude, selected_corners.
  set (fs := List.filter (Extruder.selector_ ex shape)
               (seq 0 (length (quads shape)))).
  assert (∀ j, j ∈ fs ↔
               (j < length (quads shape))%nat ∧
               Extruder.selector_ ex shape j = true) as Hfs.
  { intros j. unfold fs. rewrite list_elem_of_In, List.filter_In.
    rewrite <- list_elem_of_In, elem_of_seq. intuition lia. }
  destruct (extrude_faces ex (quads shape) fs (vertices shape) (quads shape))
    as (vs' & qs' & E & Htk & Hlv & Hlq & Hb' & Hkeep & Hnew).
  { apply NoDup_List_filter, NoDup_seq. }
  { exact Hb. }
  { intros j [Hj _]%Hfs.
    destruct (lookup_lt_is_Some_2 (quads shape) j Hj) as [q Hq].
    exists q. split; [exact Hq|]. split; [exact Hq|].
    exact (Forall_lookup_1 _ _ _ _ Hm Hq). }
  rewrite E. cbn [mbind option_bind].
  destruct (rebuildMeta_ok (mkShape vs' qs') Hb') as (qs2 & E2 & HF2).
  cbn [vertices quads] in E2, HF2.
  exists (mkShape vs' qs2). split; [exact E2|]. cbn [vertices quads].
  split; [exact Htk|]. split; [exact Hlv|].
  split; [by rewrite <- (Forall2_length _ _ _ HF2)|].
  split; [|split].
  - unfold shape_in_bounds. cbn [vertices quads].
    apply Forall_lookup. intros k q2 Hk.
    destruct (Forall2_lookup_r _ _ _ _ _ HF2 Hk) as (q & Hq & (Hidx & _)).
    pose proof (Forall_lookup_1 _ _ _ _ Hb' Hq) as Hbq.
    unfold face_in_bounds in *. unfold face_indices in Hidx.
    injection Hidx as -> -> -> ->. exact Hbq.
  - intros j qf Hj.
    destruct (Hkeep j qf Hj) as (q' & Hq' & Hc' & Heq).
    destruct (Forall2_lookup_l _ _ _ _ _ HF2 Hq') as (q2 & Hq2 & (Hidx & _)).
    exists q2. split; [exact Hq2|].
    split; [by rewrite (corners_indices _ _ Hidx)|].
    intros Hsel. rewrite Hidx, Heq; [reflexivity|].
    intros [_ Hin]%Hfs. congruence.
  - apply Forall_lookup. intros k q2 Hk. rewrite lookup_drop in Hk.
    destruct (Forall2_lookup_r _ _ _ _ _ HF2 Hk) as (q & Hq & (Hidx & _)).
    unfold face_indices in Hidx. injection Hidx as _ _ _ ->.
    refine (Hnew _ q _ Hq). lia.
Qed.

Lemma extrude_any_selection_witness :
  let shape :=
    mkShape [P3 0 0 0; P3 1 0 0; P3 1 1 0; P3 0 1 0]
      [mkQuadFace 0 1 2 (Some 3%nat)
         (Some (P3 0.5 0.5 0)) (Some (P3 0 0 1)) (Some (P3 0 0 1));
       mkQuadFace 0 2 1 None
         (Some (P3 (2 / 3) (1 / 3) 0)) (Some (P3 0 0 (-1)))
         (Some (P3 0 0 (-1)))] in
  let ex := Extruder.set_count 2 Extruder.new in
  ∃ shape',
    Extruder.extrude ex shape = Some shape' ∧
    take (length (vertices shape)) (vertices shape') = vertices shape ∧
    length (vertices shape')
    = (length (vertices shape)
       + Extruder.count ex * selected_corners ex shape)%nat ∧
    length (quads shape')
    = (length (quads shape)
       + Extruder.count ex * selected_corners ex shape)%nat ∧
    shape_in_bounds shape' ∧
    (∀ j qf, quads shape !! j = Some qf →
             ∃ qf', quads shape' !! j = Some qf' ∧
                    length (corners qf') = length (corners qf) ∧
                    (Extruder.selector_ ex shape j = false →
                     face_indices qf' = face_indices qf)) ∧
    Forall (λ qf, is_Some (i3 qf))
      (drop (length (quads shape)) (quads shape')).
Proof.
  intros shape ex. apply (extrude_any_selection ex shape).
  - unfold shape_in_bounds, face_in_bounds, shape. simpl.
    solve_in_bounds; discriminate.
  - repeat constructor; eexists; reflexivity.
Defined.

(** ** Renderer.bufferShape on a face without metadata *)

Section BufferShapeThrows.
Import PrimFloat.
Local Open Scope float_scope.

(** X21: [bufferShape] throws on a shape that has a face whose centroid is
    [null] (a face made by [new QuadFace] and never given to
    [rebuildMeta]), unless the quad callback skips that face; the other
    faces of the shape do not matter. *)
Theorem bufferShape_throws_without_centroid (rd : Double.Renderer.t)
  (shape : Double.Shape) (k : nat) (face : Double.QuadFace) :
  Double.quads shape !! k = Some face →
  Double.centroid face = None →
  (∀ cb st, Double.Renderer.quad_callback rd = Some cb →
            (cb face k shape st).2 = false) →
  Double.Renderer.bufferShape rd shape = None.
Proof.
  intros Hk Hc Hcb. unfold Double.Renderer.bufferShape.
  apply (for_loop_throws _ _ k).
  - apply elem_of_seq. apply lookup_lt_Some in Hk. lia.
  - intros rd'. unfold Double.Renderer.bufferShapeStep.
    rewrite Hk. cbn [mbind option_bind].
    destruct (Double.Renderer.quad_callback rd) as [cb|] eqn:Ecb.
    + specialize (Hcb cb (Double.Renderer.state rd') eq_refl).
      destruct (cb face k shape (Double.Renderer.state rd')) as [st skip].
      cbn [snd] in Hcb. subst skip. rewrite Hc. reflexivity.
    + rewrite Hc. reflexivity.
Qed.

Lemma bufferShape_throws_without_centroid_witness :
  let shape :=
    Double.mkShape [Double.P3 0 0 0; Double.P3 1 0 0; Double.P3 1 1 0]
      [Double.newQuadFace 0 1 2 None] in
  Double.Renderer.bufferShape (Double.Renderer.new 640 480) shape = None.
Proof.
  intros shape.
  apply (bufferShape_throws_without_centroid (Double.Renderer.new 640 480)
           shape 0 (Double.newQuadFace 0 1 2 None)).
  - reflexivity.
  - reflexivity.
  - intros cb st. simpl. discriminate.
Defined.

End BufferShapeThrows.

(** ** The keys of the table of shared points *)

Lemma pretty_N_go_no_dash (n : N) (s : string) :
  no_dash s → no_dash (pretty_N_go n s).
Proof.
  revert s. induction (N.lt_wf_0 n) as [n _ IH]; intros s Hs.
  assert (n = 0 ∨ 0 < n)%N as [->|Hn] by lia.
  - by rewrite pretty_N_go_0.
  - rewrite pretty_N_go_step by done. apply IH.
    + by apply N.div_lt.
    + split; [|exact Hs]. unfold pretty_N_char. by repeat case_match.
Qed.

Lemma pretty_nat_no_dash (n : nat) : no_dash (pretty n).
Proof.
  unfold pretty, pretty_nat, pretty, pretty_N. case_decide.
  - simpl. split; [discriminate | exact I].
  - by apply pretty_N_go_no_dash.
Qed.

Lemma no_dash_app_dash (s t : string) : ¬ no_dash (s +:+ String "-" t).
Proof.
  induction s as [|c s IH]; simpl.
  - intros [H _]. by apply H.
  - intros [_ H]. by apply IH.
Qed.

Lemma dash_split (s1 s2 t1 t2 : string) :
  no_dash s1 → no_dash s2 →
  s1 +:+ String "-" t1 = s2 +:+ String "-" t2 → s1 = s2 ∧ t1 = t2.
Proof.
  revert s2. induction s1 as [|c s1 IH]; intros [|c2 s2]; simpl.
  - intros _ _ [= ->]. done.
  - intros _ [Hc _] [= <- _]. by destruct Hc.
  - intros [Hc _] _ [= -> _]. by destruct Hc.
  - intros [_ H1] [_ H2] [= -> E]. destruct (IH s2 H1 H2 E) as [-> ->]. done.
Qed.

Lemma js_join_cons2 (a b : nat) (l : list nat) :
  js_join "-" (Some <$> a :: b :: l)
  = pretty a +:+ String "-" (js_join "-" (Some <$> b :: l)).
Proof. reflexivity. Qed.

(** Two arrays of numbers that are joined to the same key are equal. *)
Lemma js_join_inj (l l' : list nat) :
  l ≠ [] → l' ≠ [] →
  js_join "-" (Some <$> l) = js_join "-" (Some <$> l') → l = l'.
Proof.
  revert l'. induction l as [|a l IH]; [done|].
  intros [|a' l'] _ Hl' E; [done|].
  destruct l as [|b l], l' as [|b' l'].
  - change (pretty a = pretty a') in E.
    apply pretty_nat_inj in E. by subst.
  - rewrite js_join_cons2 in E. exfalso.
    apply (no_dash_app_dash (pretty a') (js_join "-" (Some <$> b' :: l'))).
    change (js_join "-" (Some <$> [a])) with (pretty a) in E.
    rewrite <- E. apply pretty_nat_no_dash.
  - rewrite js_join_cons2 in E. exfalso.
    apply (no_dash_app_dash (pretty a) (js_join "-" (Some <$> b :: l))).
    change (js_join "-" (Some <$> [a'])) with (pretty a') in E.
    rewrite E. apply pretty_nat_no_dash.
  - rewrite !js_join_cons2 in E.
    apply dash_split in E as [Ea E]; try apply pretty_nat_no_dash.
    apply pretty_nat_inj in Ea. subst a'.
    f_equal. by apply IH.
Qed.

(** Sorting an array of numbers permutes it. *)
Lemma js_sort_insert_Some (v : nat) (l : list nat) :
  ∃ l', js_sort_insert (Some v) (Some <$> l) = Some <$> l' ∧ l' ≡ₚ v :: l.
Proof.
  induction l as [|w l (l' & E & Hp)].
  - by exists [v].
  - rewrite fmap_cons. cbn [js_sort_insert].
    destruct (String.leb _ _).
    + by exists (v :: w :: l).
    + exists (w :: l'). rewrite E. split; [reflexivity|].
      rewrite Hp. apply Permutation_swap.
Qed.

Lemma js_sort_Some (l : list nat) :
  ∃ l', js_sort (Some <$> l) = Some <$> l' ∧ l' ≡ₚ l.
Proof.
  induction l as [|v l (l' & E & Hp)].
  - by exists [].
  - rewrite fmap_cons. unfold js_sort in *. cbn [foldr].
    rewrite E. destruct (js_sort_insert_Some v l') as (l'' & E' & Hp').
    exists l''. split; [exact E'|]. by rewrite Hp', Hp.
Qed.

(** The key of two indices does not depend on their order. *)
Lemma share_key_comm (a b : nat) : share_key [a; b] = share_key [b; a].
Proof.
  unfold share_key, js_sort. simpl.
  destruct (String.leb (pretty a) (pretty b)) eqn:Eab,
           (String.leb (pretty b) (pretty a)) eqn:Eba; try reflexivity.
  - pose proof (String.leb_antisym _ _ Eab Eba) as E.
    apply pretty_nat_inj in E. by subst.
  - destruct (String.leb_total (pretty a) (pretty b)); congruence.
Qed.

(** Two index arrays with the same key hold the same indices. *)
Lemma share_key_inj (l l' : list nat) :
  l ≠ [] → l' ≠ [] → share_key l = share_key l' → l ≡ₚ l'.
Proof.
  intros Hl Hl' E. unfold share_key in E.
  destruct (js_sort_Some l) as (s & Es & Hs).
  destruct (js_sort_Some l') as (s' & Es' & Hs').
  rewrite Es, Es' in E. apply js_join_inj in E.
  - by rewrite <- Hs, <- Hs', E.
  - intros ->. apply Permutation_nil_l in Hs. by symmetry in Hs.
  - intros ->. apply Permutation_nil_l in Hs'. by symmetry in Hs'.
Qed.

Lemma foldl_addPoints3d_perm (ps ps' : list Point3d) :
  ps ≡ₚ ps' →
  ∀ acc, foldl addPoints3d acc ps = foldl addPoints3d acc ps'.
Proof.
  induction 1 as [|p ps ps' _ IH|p q ps|ps1 ps2 ps3 _ IH1 _ IH2];
    intros acc; simpl.
  - reflexivity.
  - apply IH.
  - f_equal. apply Point3d_eq; simpl; ring.
  - by rewrite IH1.
Qed.

(** [averagePoints] does not depend on the order of the points. *)
Lemma averagePoints_perm (ps ps' : list Point3d) :
  ps ≡ₚ ps' → averagePoints ps = averagePoints ps'.
Proof.
  intros H. unfold averagePoints.
  by rewrite (foldl_addPoints3d_perm _ _ H), (Permutation_length H).
Qed.

(** ** linearSubdivide: the shared points *)

Lemma vertex_at_lookup (vs0 vs : list Point3d) (i : nat) :
  take (length vs0) vs = vs0 → (i < length vs0)%nat →
  vs !! i = Some (vertex_at vs0 i).
Proof.
  intros Htk Hi. destruct (lookup_lt_is_Some_2 vs0 i Hi) as [p Hp].
  unfold vertex_at. rewrite Hp. simpl.
  rewrite <- Htk in Hp. by apply lookup_take_Some in Hp as [Hp _].
Qed.

Lemma mapM_vertex_at (vs0 vs : list Point3d) (s : list nat) :
  take (length vs0) vs = vs0 →
  Forall (λ i, (i < length vs0)%nat) s →
  mapM (λ xo : option nat, xi ← xo; vs !! xi) (Some <$> s)
  = Some (vertex_at vs0 <$> s).
Proof.
  intros Htk. induction 1 as [|i s Hi _ IH].
  - reflexivity.
  - rewrite !fmap_cons. cbn [mapM mbind option_bind].
    rewrite (vertex_at_lookup vs0 vs i Htk Hi). cbn [mbind option_bind].
    rewrite IH. reflexivity.
Qed.

(** [sharePoint] on original indices: the table maps their key to the
    index returned, it only grows, and it stays sound. *)
Lemma sharePoint_spec (vs0 vs : list Point3d)
  (share_points : gmap string nat) (l : list nat) :
  l ≠ [] →
  Forall (λ i, (i < length vs0)%nat) l →
  take (length vs0) vs = vs0 →
  table_ok vs0 vs share_points →
  ∃ vs' share_points' idx,
    sharePoint vs share_points (js_sort (Some <$> l))
    = Some (vs', share_points', idx) ∧
    share_points' !! share_key l = Some idx ∧
    share_points ⊆ share_points' ∧
    table_ok vs0 vs' share_points' ∧
    take (length vs0) vs' = vs0 ∧
    (length vs ≤ length vs')%nat.
Proof.
  intros Hl Hb Htk Hok.
  assert (length vs0 ≤ length vs)%nat as Hlen.
  { rewrite <- Htk at 1. rewrite length_take. lia. }
  unfold sharePoint.
  change (js_join "-" (js_sort (Some <$> l))) with (share_key l).
  destruct (share_points !! share_key l) as [idx|] eqn:Ek.
  - exists vs, share_points, idx. split; [reflexivity|].
    split; [exact Ek|]. split; [reflexivity|]. split; [exact Hok|].
    split; [exact Htk | lia].
  - destruct (js_sort_Some l) as (s & Es & Hs). rewrite Es.
    rewrite (mapM_vertex_at vs0 vs s Htk) by (by rewrite Hs).
    cbn [mbind option_bind].
    eexists _, _, _. split; [reflexivity|].
    split; [apply lookup_insert_eq|].
    split; [by apply insert_subseteq|].
    split; [|split; [by rewrite take_app_le | rewrite length_app; lia]].
    intros key v Hkv. destruct (decide (key = share_key l)) as [->|Hne].
    + rewrite lookup_insert_eq in Hkv. injection Hkv as <-.
      split; [rewrite length_app; simpl; lia|].
      intros l2 Hl2 Hb2 Hkey.
      rewrite list_lookup_middle by reflexivity. f_equal.
      apply averagePoints_perm, fmap_Permutation.
      rewrite Hs. by apply share_key_inj.
    + rewrite lookup_insert_ne in Hkv by done.
      destruct (Hok key v Hkv) as [Hv Hat].
      split; [rewrite length_app; lia|].
      intros l2 Hl2 Hb2 Hkey. rewrite lookup_app_l by exact Hv.
      by apply Hat.
Qed.

Lemma subdivided_step (n : nat) (qs news : list QuadFace)
  (share_points share_points' : gmap string nat) (i k : nat)
  (quad q0 : QuadFace) :
  subdivided n qs share_points i quad →
  share_points ⊆ share_points' →
  (i < k)%nat → (k < n)%nat →
  subdivided n (<[k := q0]> qs ++ news) share_points' i quad.
Proof.
  intros (j3 & m0 & m1 & m2 & m3 & m4 & E3 & K0 & K1 & K2 & K3 & K4
          & Q0 & Q1 & Q2 & Q3) Hsub Hi Hk.
  assert (∀ j q, qs !! j = Some q → j ≠ k →
                 (<[k := q0]> qs ++ news) !! j = Some q) as Hkeep.
  { intros j q Hj Hjk.
    rewrite lookup_app_l by (rewrite length_insert; by eapply lookup_lt_Some).
    by rewrite list_lookup_insert_ne. }
  exists j3, m0, m1, m2, m3, m4. split; [exact E3|].
  repeat (split; [by eapply lookup_weaken|]).
  split; [apply Hkeep; [exact Q0 | lia]|].
  split; [apply Hkeep; [exact Q1 | lia]|].
  split; [apply Hkeep; [exact Q2 | lia] | apply Hkeep; [exact Q3 | lia]].
Qed.

(** The loop of [linearSubdivide] over a shape in bounds, all quads. *)
Lemma linearSubdivide_loop (shape : Shape) :
  shape_in_bounds shape →
  Forall (λ qf, is_Some (i3 qf)) (quads shape) →
  ∃ sh share_points,
    for_loop subdivideStep (seq 0 (length (quads shape))) (shape, ∅)
    = Some (sh, share_points) ∧
    take (length (vertices shape)) (vertices sh) = vertices shape ∧
    table_ok (vertices shape) (vertices sh) share_points ∧
    shape_in_bounds sh ∧
    ∀ i quad, quads shape !! i = Some quad →
              subdivided (length (quads shape)) (quads sh) share_points i quad.
Proof.
  intros Hb Hq.
  set (n := length (quads shape)). set (vs0 := vertices shape).
  destruct (for_loop_seq_inv subdivideStep
              (λ k (st : Shape * gmap string nat),
                 take (length vs0) (vertices st.1) = vs0 ∧
                 table_ok vs0 (vertices st.1) st.2 ∧
                 shape_in_bounds st.1 ∧
                 length (quads st.1) = (n + 3 * k)%nat ∧
                 (∀ j q, (k ≤ j)%nat → quads shape !! j = Some q →
                         quads st.1 !! j = Some q) ∧
                 (∀ i quad, (i < k)%nat → quads shape !! i = Some quad →
                            subdivided n (quads st.1) st.2 i quad))
              n) with (s := (shape, (∅ : gmap string nat)))
    as ([sh sp] & E & Htk & Hok & Hib & _ & _ & Hsub).
  - intros k [sh sp] Hk (Htk & Hok & Hib & Hlen & Hlater & Hdone).
    cbn [fst snd] in *.
    destruct (lookup_lt_is_Some_2 (quads shape) k Hk) as [quad Equad].
    pose proof (Forall_lookup_1 _ _ _ _ Hb Equad) as (B0 & B1 & B2 & B3).
    pose proof (Forall_lookup_1 _ _ _ _ Hq Equad) as [j3 E3].
    specialize (B3 j3 E3). fold vs0 in B0, B1, B2, B3.
    pose proof (Hlater k quad (Nat.le_refl k) Equad) as Ek.
    unfold subdivideStep. rewrite Ek. cbn [mbind option_bind]. rewrite E3.
    destruct (sharePoint_spec vs0 (vertices sh) sp [i0 quad; i1 quad])
      as (vs1 & sp1 & n0 & E1 & K0 & S1 & Hok1 & Htk1 & L1);
      [done | by repeat constructor | exact Htk | exact Hok |].
    cbn [fmap list_fmap] in E1. rewrite E1. cbn [mbind option_bind].
    destruct (sharePoint_spec vs0 vs1 sp1 [i1 quad; i2 quad])
      as (vs2 & sp2 & n1 & E2 & K1 & S2 & Hok2 & Htk2 & L2);
      [done | by repeat constructor | exact Htk1 | exact Hok1 |].
    cbn [fmap list_fmap] in E2. rewrite E2. cbn [mbind option_bind].
    destruct (sharePoint_spec vs0 vs2 sp2 [i2 quad; j3])
      as (vs3 & sp3 & n2 & E3' & K2 & S3 & Hok3 & Htk3 & L3);
      [done | by repeat constructor | exact Htk2 | exact Hok2 |].
    cbn [fmap list_fmap] in E3'. rewrite E3'. cbn [mbind option_bind].
    destruct (sharePoint_spec vs0 vs3 sp3 [j3; i0 quad])
      as (vs4 & sp4 & n3 & E4 & K3 & S4 & Hok4 & Htk4 & L4);
      [done | by repeat constructor | exact Htk3 | exact Hok3 |].
    cbn [fmap list_fmap] in E4. rewrite E4. cbn [mbind option_bind].
    destruct (sharePoint_spec vs0 vs4 sp4 [i0 quad; i1 quad; i2 quad; j3])
      as (vs5 & sp5 & n4 & E5 & K4 & S5 & Hok5 & Htk5 & L5);
      [done | by repeat constructor | exact Htk4 | exact Hok4 |].
    cbn [fmap list_fmap] in E5. rewrite E5. cbn [mbind option_bind].
    eexists. split; [reflexivity|]. cbn [fst snd vertices quads].
    assert (sp4 ⊆ sp5) as S45 by exact S5.
    assert (sp3 ⊆ sp5) as S35 by (etrans; eassumption).
    assert (sp2 ⊆ sp5) as S25 by (etrans; eassumption).
    assert (sp1 ⊆ sp5) as S15 by (etrans; eassumption).
    assert (sp ⊆ sp5) as S05 by (etrans; eassumption).
    pose proof (lookup_weaken _ _ _ _ K0 S15) as K0'.
    pose proof (lookup_weaken _ _ _ _ K1 S25) as K1'.
    pose proof (lookup_weaken _ _ _ _ K2 S35) as K2'.
    pose proof (lookup_weaken _ _ _ _ K3 S45) as K3'.
    destruct (Hok5 _ _ K0') as [Hn0 _]. destruct (Hok5 _ _ K1') as [Hn1 _].
    destruct (Hok5 _ _ K2') as [Hn2 _]. destruct (Hok5 _ _ K3') as [Hn3 _].
    destruct (Hok5 _ _ K4) as [Hn4 _].
    assert (length vs0 ≤ length (vertices sh))%nat as Hlv.
    { rewrite <- Htk at 1. rewrite length_take. lia. }
    split; [exact Htk5|]. split; [exact Hok5|]. split; [|split; [|split]].
    + unfold shape_in_bounds. cbn [vertices quads].
      apply Forall_app. split.
      * apply Forall_insert.
        -- eapply Forall_impl; [exact Hib|]. intros qf Hqf.
           eapply face_in_bounds_mono; [|exact Hqf]. lia.
        -- unfold face_in_bounds. simpl.
           repeat split; try lia. intros ? [= <-]. lia.
      * repeat apply Forall_cons_2; try apply Forall_nil_2;
          unfold face_in_bounds; simpl;
          repeat split; try lia; intros ? [= <-]; lia.
    + rewrite length_app, length_insert, Hlen. simpl. lia.
    + intros j q Hj Hjq.
      rewrite lookup_app_l
        by (rewrite length_insert, Hlen; apply lookup_lt_Some in Hjq; lia).
      rewrite list_lookup_insert_ne by lia. apply Hlater; [lia | exact Hjq].
    + intros i quad' Hi Hquad'.
      destruct (decide (i = k)) as [->|Hik].
      * assert (quad' = quad) as -> by congruence.
        exists j3, n0, n1, n2, n3, n4.
        split; [exact E3|]. split; [exact K0'|]. split; [exact K1'|].
        split; [exact K2'|]. split; [exact K3'|]. split; [exact K4|].
        split.
        { rewrite lookup_app_l by (rewrite length_insert, Hlen; lia).
          apply list_lookup_insert_eq. lia. }
        split; [|split];
          (rewrite lookup_app_r by (rewrite length_insert, Hlen; lia));
          rewrite length_insert, Hlen.
        -- replace (n + 3 * k - (n + 3 * k))%nat with 0%nat by lia.
           reflexivity.
        -- replace (n + 3 * k + 1 - (n + 3 * k))%nat with 1%nat by lia.
           reflexivity.
        -- replace (n + 3 * k + 2 - (n + 3 * k))%nat with 2%nat by lia.
           reflexivity.
      * apply (subdivided_step n (quads sh) _ sp sp5);
          [|exact S05|lia|exact Hk].
        apply Hdone; [lia | exact Hquad'].
  - cbn [fst snd]. split; [apply firstn_all|].
    split; [intros key v Hkv; by rewrite lookup_empty in Hkv|].
    split; [exact Hb|]. split; [lia|]. split; [done|]. intros; lia.
  - cbn [fst snd] in *. exists sh, sp. split; [exact E|].
    split; [exact Htk|]. split; [exact Hok|]. split; [exact Hib|].
    intros i quad Hi. apply Hsub; [|exact Hi].
    by eapply lookup_lt_Some.
Qed.

Lemma averagePoints_2 (p q : Point3d) : averagePoints [p; q] = midpoint p q.
Proof.
  unfold averagePoints, midpoint; simpl.
  apply Point3d_eq; simpl; field.
Qed.

Lemma vertex_at_self (vs0 : list Point3d) (i : nat) :
  (i < length vs0)%nat → vs0 !! i = Some (vertex_at vs0 i).
Proof. intros Hi. apply vertex_at_lookup; [apply firstn_all | exact Hi]. Qed.

Lemma table_ok_midpoint (vs0 vs : list Point3d)
  (share_points : gmap string nat) (a b v : nat) :
  table_ok vs0 vs share_points →
  (a < length vs0)%nat → (b < length vs0)%nat →
  share_points !! share_key [a; b] = Some v →
  ∃ p, vs !! v = Some p ∧ is_edge_midpoint vs0 p (a, b).
Proof.
  intros Hok Ha Hb Hk. destruct (Hok _ _ Hk) as [_ Hat].
  eexists. split.
  - apply (Hat [a; b]); [done | by repeat constructor | reflexivity].
  - exists (vertex_at vs0 a), (vertex_at vs0 b). cbn [fst snd].
    split; [by apply vertex_at_self|]. split; [by apply vertex_at_self|].
    apply averagePoints_2.
Qed.

(** X22: on a shape in bounds all of whose faces are quads,
    [linearSubdivide] cuts the face [i] with corners [a b c d] into the
    faces [a, mid a b, cen i, mid d a] (left at [i]) and
    [mid a b, b, mid b c, cen i], [cen i, mid b c, c, mid c d],
    [mid d a, cen i, mid c d, d] (appended at [n + 3 i]), where [mid] does
    not depend on the order of its arguments: two faces that share an edge,
    in whichever direction, get the same vertex on it.  The vertex
    [mid a b] is the midpoint of the old vertices [a] and [b], and the
    vertex [cen i] is the average of the four corners. *)
Theorem linearSubdivide_shares_midpoints (shape : Shape) :
  shape_in_bounds shape →
  Forall (λ qf, is_Some (i3 qf)) (quads shape) →
  ∃ shape' (mid : nat → nat → nat) (cen : nat → nat),
    linearSubdivide shape = Some shape' ∧
    (∀ a b, mid a b = mid b a) ∧
    ∀ i quad j3,
      quads shape !! i = Some quad → i3 quad = Some j3 →
      let n := length (quads shape) in
      face_indices <$> quads shape' !! i
      = Some (i0 quad, mid (i0 quad) (i1 quad), cen i,
              Some (mid j3 (i0 quad))) ∧
      face_indices <$> quads shape' !! (n + 3 * i)%nat
      = Some (mid (i0 quad) (i1 quad), i1 quad, mid (i1 quad) (i2 quad),
              Some (cen i)) ∧
      face_indices <$> quads shape' !! (n + 3 * i + 1)%nat
      = Some (cen i, mid (i1 quad) (i2 quad), i2 quad,
              Some (mid (i2 quad) j3)) ∧
      face_indices <$> quads shape' !! (n + 3 * i + 2)%nat
      = Some (mid j3 (i0 quad), cen i, mid (i2 quad) j3, Some j3) ∧
      Forall (λ e, ∃ p, vertices shape' !! mid e.1 e.2 = Some p ∧
                        is_edge_midpoint (vertices shape) p e)
        (face_edges quad) ∧
      ∃ p, vertices shape' !! cen i = Some p ∧
           is_face_centroid (vertices shape) p quad.
Proof.
  intros Hb Hq.
  destruct (linearSubdivide_loop shape Hb Hq)
    as (sh & M & E & Htk & Hok & Hib & Hsub).
  destruct (mapM_rebuildMetaFace _ _ Hib) as (qs' & E' & _).
  pose proof (mapM_rebuildMetaFace_indices _ _ _ E') as Hidx.
  exists (mkShape (vertices sh) qs'),
    (λ a b, default 0%nat (M !! share_key [a; b])),
    (λ i, default 0%nat
            (quad ← quads shape !! i;
             j3 ← i3 quad;
             M !! share_key [i0 quad; i1 quad; i2 quad; j3])).
  split.
  { unfold linearSubdivide. rewrite E. cbn [mbind option_bind].
    unfold rebuildMeta. rewrite E'. reflexivity. }
  split.
  { intros a b. cbn beta. by rewrite share_key_comm. }
  intros i quad j3 Hi E3 n. cbn [vertices quads]. cbn beta.
  destruct (Hsub i quad Hi)
    as (j3' & m0 & m1 & m2 & m3 & m4 & E3' & K0 & K1 & K2 & K3 & K4
        & Q0 & Q1 & Q2 & Q3).
  assert (j3' = j3) as -> by congruence.
  pose proof (Forall_lookup_1 _ _ _ _ Hb Hi) as (B0 & B1 & B2 & B3).
  specialize (B3 j3 E3).
  rewrite Hi. cbn [mbind option_bind]. rewrite E3. cbn [mbind option_bind].
  rewrite K0, K1, K2, K3, K4. cbn [default from_option id].
  rewrite <- !list_lookup_fmap, Hidx, !list_lookup_fmap.
  fold n in Q1, Q2, Q3. rewrite Q0, Q1, Q2, Q3.
  split; [reflexivity|]. split; [reflexivity|]. split; [reflexivity|].
  split; [reflexivity|]. split.
  - unfold face_edges. rewrite E3.
    repeat apply Forall_cons_2; try apply Forall_nil_2; cbn [fst snd].
    + rewrite K0. by apply (table_ok_midpoint _ _ M).
    + rewrite K1. by apply (table_ok_midpoint _ _ M).
    + rewrite K2. by apply (table_ok_midpoint _ _ M).
    + rewrite K3. by apply (table_ok_midpoint _ _ M).
  - destruct (Hok _ _ K4) as [_ Hat]. eexists. split.
    + apply (Hat [i0 quad; i1 quad; i2 quad; j3]);
        [done | by repeat constructor | reflexivity].
    + exists j3, (vertex_at (vertices shape) (i0 quad)),
        (vertex_at (vertices shape) (i1 quad)),
        (vertex_at (vertices shape) (i2 quad)),
        (vertex_at (vertices shape) j3).
      split; [exact E3|].
      repeat (split; [by apply vertex_at_self|]).
      apply averagePoints_4.
Qed.

Lemma linearSubdivide_shares_midpoints_witness :
  let shape :=
    mkShape [P3 0 0 0; P3 1 0 0; P3 1 1 0; P3 0 1 0; P3 2 0 0; P3 2 1 0]
      [newQuadFace 0 1 2 (Some 3%nat); newQuadFace 1 4 5 (Some 2%nat)] in
  ∃ shape' (mid : nat → nat → nat) (cen : nat → nat),
    linearSubdivide shape = Some shape' ∧
    (∀ a b, mid a b = mid b a) ∧
    ∀ i quad j3,
      quads shape !! i = Some quad → i3 quad = Some j3 →
      let n := length (quads shape) in
      face_indices <$> quads shape' !! i
      = Some (i0 quad, mid (i0 quad) (i1 quad), cen i,
              Some (mid j3 (i0 quad))) ∧
      face_indices <$> quads shape' !! (n + 3 * i)%nat
      = Some (mid (i0 quad) (i1 quad), i1 quad, mid (i1 quad) (i2 quad),
              Some (cen i)) ∧
      face_indices <$> quads shape' !! (n + 3 * i + 1)%nat
      = Some (cen i, mid (i1 quad) (i2 quad), i2 quad,
              Some (mid (i2 quad) j3)) ∧
      face_indices <$> quads shape' !! (n + 3 * i + 2)%nat
      = Some (mid j3 (i0 quad), cen i, mid (i2 quad) j3, Some j3) ∧
      Forall (λ e, ∃ p, vertices shape' !! mid e.1 e.2 = Some p ∧
                        is_edge_midpoint (vertices shape) p e)
        (face_edges quad) ∧
      ∃ p, vertices shape' !! cen i = Some p ∧
           is_face_centroid (vertices shape) p quad.
Proof.
  intros shape. apply (linearSubdivide_shares_midpoints shape).
  - unfold shape_in_bounds, face_in_bounds, shape. simpl.
    solve_in_bounds; discriminate.
  - repeat constructor; eexists; reflexivity.
Defined.

(** ** linearSubdivideTri: the shared points *)

Lemma subdivided_tri_step (n : nat) (qs news : list QuadFace)
  (share_points share_points' : gmap string nat) (i k : nat)
  (tri q0 : QuadFace) :
  subdivided_tri n qs share_points i tri →
  share_points ⊆ share_points' →
  (i < k)%nat → (k < n)%nat →
  subdivided_tri n (<[k := q0]> qs ++ news) share_points' i tri.
Proof.
  intros (m0 & m1 & m2 & K0 & K1 & K2 & Q0 & Q1 & Q2 & Q3) Hsub Hi Hk.
  assert (∀ j q, qs !! j = Some q → j ≠ k →
                 (<[k := q0]> qs ++ news) !! j = Some q) as Hkeep.
  { intros j q Hj Hjk.
    rewrite lookup_app_l by (rewrite length_insert; by eapply lookup_lt_Some).
    by rewrite list_lookup_insert_ne. }
  exists m0, m1, m2.
  repeat (split; [by eapply lookup_weaken|]).
  split; [apply Hkeep; [exact Q0 | lia]|].
  split; [apply Hkeep; [exact Q1 | lia]|].
  split; [apply Hkeep; [exact Q2 | lia] | apply Hkeep; [exact Q3 | lia]].
Qed.

(** The loop of [linearSubdivideTri] over a shape in bounds. *)
Lemma linearSubdivideTri_loop (shape : Shape) :
  shape_in_bounds shape →
  ∃ sh share_points,
    for_loop subdivideTriStep (seq 0 (length (quads shape))) (shape, ∅)
    = Some (sh, share_points) ∧
    take (length (vertices shape)) (vertices sh) = vertices shape ∧
    table_ok (vertices shape) (vertices sh) share_points ∧
    shape_in_bounds sh ∧
    ∀ i tri, quads shape !! i = Some tri →
             subdivided_tri (length (quads shape)) (quads sh) share_points
               i tri.
Proof.
  intros Hb.
  set (n := length (quads shape)). set (vs0 := vertices shape).
  destruct (for_loop_seq_inv subdivideTriStep
              (λ k (st : Shape * gmap string nat),
                 take (length vs0) (vertices st.1) = vs0 ∧
                 table_ok vs0 (vertices st.1) st.2 ∧
                 shape_in_bounds st.1 ∧
                 length (quads st.1) = (n + 3 * k)%nat ∧
                 (∀ j q, (k ≤ j)%nat → quads shape !! j = Some q →
                         quads st.1 !! j = Some q) ∧
                 (∀ i tri, (i < k)%nat → quads shape !! i = Some tri →
                           subdivided_tri n (quads st.1) st.2 i tri))
              n) with (s := (shape, (∅ : gmap string nat)))
    as ([sh sp] & E & Htk & Hok & Hib & _ & _ & Hsub).
  - intros k [sh sp] Hk (Htk & Hok & Hib & Hlen & Hlater & Hdone).
    cbn [fst snd] in *.
    destruct (lookup_lt_is_Some_2 (quads shape) k Hk) as [tri Etri].
    pose proof (Forall_lookup_1 _ _ _ _ Hb Etri) as (B0 & B1 & B2 & _).
    fold vs0 in B0, B1, B2.
    pose proof (Hlater k tri (Nat.le_refl k) Etri) as Ek.
    unfold subdivideTriStep. rewrite Ek. cbn [mbind option_bind].
    destruct (sharePoint_spec vs0 (vertices sh) sp [i0 tri; i1 tri])
      as (vs1 & sp1 & n0 & E1 & K0 & S1 & Hok1 & Htk1 & L1);
      [done | by repeat constructor | exact Htk | exact Hok |].
    cbn [fmap list_fmap] in E1. rewrite E1. cbn [mbind option_bind].
    destruct (sharePoint_spec vs0 vs1 sp1 [i1 tri; i2 tri])
      as (vs2 & sp2 & n1 & E2 & K1 & S2 & Hok2 & Htk2 & L2);
      [done | by repeat constructor | exact Htk1 | exact Hok1 |].
    cbn [fmap list_fmap] in E2. rewrite E2. cbn [mbind option_bind].
    destruct (sharePoint_spec vs0 vs2 sp2 [i2 tri; i0 tri])
      as (vs3 & sp3 & n2 & E3 & K2 & S3 & Hok3 & Htk3 & L3);
      [done | by repeat constructor | exact Htk2 | exact Hok2 |].
    cbn [fmap list_fmap] in E3. rewrite E3. cbn [mbind option_bind].
    eexists. split; [reflexivity|]. cbn [fst snd vertices quads].
    assert (sp2 ⊆ sp3) as S23 by exact S3.
    assert (sp1 ⊆ sp3) as S13 by (etrans; eassumption).
    assert (sp ⊆ sp3) as S03 by (etrans; eassumption).
    pose proof (lookup_weaken _ _ _ _ K0 S13) as K0'.
    pose proof (lookup_weaken _ _ _ _ K1 S23) as K1'.
    destruct (Hok3 _ _ K0') as [Hn0 _]. destruct (Hok3 _ _ K1') as [Hn1 _].
    destruct (Hok3 _ _ K2) as [Hn2 _].
    assert (length vs0 ≤ length (vertices sh))%nat as Hlv.
    { rewrite <- Htk at 1. rewrite length_take. lia. }
    split; [exact Htk3|]. split; [exact Hok3|]. split; [|split; [|split]].
    + unfold shape_in_bounds. cbn [vertices quads].
      apply Forall_app. split.
      * apply Forall_insert.
        -- eapply Forall_impl; [exact Hib|]. intros qf Hqf.
           eapply face_in_bounds_mono; [|exact Hqf]. lia.
        -- unfold face_in_bounds. simpl.
           repeat split; try lia. intros ? [=].
      * repeat apply Forall_cons_2; try apply Forall_nil_2;
          unfold face_in_bounds; simpl;
          repeat split; try lia; intros ? [=].
    + rewrite length_app, length_insert, Hlen. simpl. lia.
    + intros j q Hj Hjq.
      rewrite lookup_app_l
        by (rewrite length_insert, Hlen; apply lookup_lt_Some in Hjq; lia).
      rewrite list_lookup_insert_ne by lia. apply Hlater; [lia | exact Hjq].
    + intros i tri' Hi Htri'.
      destruct (decide (i = k)) as [->|Hik].
      * assert (tri' = tri) as -> by congruence.
        exists n0, n1, n2.
        split; [exact K0'|]. split; [exact K1'|]. split; [exact K2|].
        split.
        { rewrite lookup_app_l by (rewrite length_insert, Hlen; lia).
          apply list_lookup_insert_eq. lia. }
        split; [|split];
          (rewrite lookup_app_r by (rewrite length_insert, Hlen; lia));
          rewrite length_insert, Hlen.
        -- replace (n + 3 * k - (n + 3 * k))%nat with 0%nat by lia.
           reflexivity.
        -- replace (n + 3 * k + 1 - (n + 3 * k))%nat with 1%nat by lia.
           reflexivity.
        -- replace (n + 3 * k + 2 - (n + 3 * k))%nat with 2%nat by lia.
           reflexivity.
      * apply (subdivided_tri_step n (quads sh) _ sp sp3);
          [|exact S03|lia|exact Hk].
        apply Hdone; [lia | exact Htri'].
  - cbn [fst snd]. split; [apply firstn_all|].
    split; [intros key v Hkv; by rewrite lookup_empty in Hkv|].
    split; [exact Hb|]. split; [lia|]. split; [done|]. intros; lia.
  - cbn [fst snd] in *. exists sh, sp. split; [exact E|].
    split; [exact Htk|]. split; [exact Hok|]. split; [exact Hib|].
    intros i tri Hi. apply Hsub; [|exact Hi].
    by eapply lookup_lt_Some.
Qed.

(** X23: on a shape in bounds, [linearSubdivideTri] cuts the face [i]
    with corners [a b c] into the triangles [a, mid a b, mid c a] (left at
    [i]) and [mid a b, b, mid b c], [mid c a, mid b c, c],
    [mid a b, mid b c, mid c a] (appended at [n + 3 i]), where [mid] does
    not depend on the order of its arguments, so that two faces with a
    common edge get the same vertex on it; the vertex [mid a b] is the
    midpoint of the old vertices [a] and [b]. *)
Theorem linearSubdivideTri_shares_midpoints (shape : Shape) :
  shape_in_bounds shape →
  ∃ shape' (mid : nat → nat → nat),
    linearSubdivideTri shape = Some shape' ∧
    (∀ a b, mid a b = mid b a) ∧
    ∀ i tri,
      quads shape !! i = Some tri →
      let n := length (quads shape) in
      face_indices <$> quads shape' !! i
      = Some (i0 tri, mid (i0 tri) (i1 tri), mid (i2 tri) (i0 tri), None) ∧
      face_indices <$> quads shape' !! (n + 3 * i)%nat
      = Some (mid (i0 tri) (i1 tri), i1 tri, mid (i1 tri) (i2 tri), None) ∧
      face_indices <$> quads shape' !! (n + 3 * i + 1)%nat
      = Some (mid (i2 tri) (i0 tri), mid (i1 tri) (i2 tri), i2 tri, None) ∧
      face_indices <$> quads shape' !! (n + 3 * i + 2)%nat
      = Some (mid (i0 tri) (i1 tri), mid (i1 tri) (i2 tri),
              mid (i2 tri) (i0 tri), None) ∧
      Forall (λ e, ∃ p, vertices shape' !! mid e.1 e.2 = Some p ∧
                        is_edge_midpoint (vertices shape) p e)
        [(i0 tri, i1 tri); (i1 tri, i2 tri); (i2 tri, i0 tri)].
Proof.
  intros Hb.
  destruct (linearSubdivideTri_loop shape Hb)
    as (sh & M & E & Htk & Hok & Hib & Hsub).
  destruct (mapM_rebuildMetaFace _ _ Hib) as (qs' & E' & _).
  pose proof (mapM_rebuildMetaFace_indices _ _ _ E') as Hidx.
  exists (mkShape (vertices sh) qs'),
    (λ a b, default 0%nat (M !! share_key [a; b])).
  split.
  { unfold linearSubdivideTri. rewrite E. cbn [mbind option_bind].
    unfold rebuildMeta. rewrite E'. reflexivity. }
  split.
  { intros a b. cbn beta. by rewrite share_key_comm. }
  intros i tri Hi n. cbn [vertices quads]. cbn beta.
  destruct (Hsub i tri Hi)
    as (m0 & m1 & m2 & K0 & K1 & K2 & Q0 & Q1 & Q2 & Q3).
  pose proof (Forall_lookup_1 _ _ _ _ Hb Hi) as (B0 & B1 & B2 & _).
  rewrite K0, K1, K2. cbn [default from_option id].
  rewrite <- !list_lookup_fmap, Hidx, !list_lookup_fmap.
  fold n in Q1, Q2, Q3. rewrite Q0, Q1, Q2, Q3.
  split; [reflexivity|]. split; [reflexivity|]. split; [reflexivity|].
  split; [reflexivity|].
  repeat apply Forall_cons_2; try apply Forall_nil_2; cbn [fst snd].
  - rewrite K0. by apply (table_ok_midpoint _ _ M).
  - rewrite K1. by apply (table_ok_midpoint _ _ M).
  - rewrite K2. by apply (table_ok_midpoint _ _ M).
Qed.

Lemma linearSubdivideTri_shares_midpoints_witness :
  let shape :=
    mkShape [P3 0 0 0; P3 1 0 0; P3 1 1 0; P3 0 1 0]
      [newQuadFace 0 1 2 None; newQuadFace 0 2 3 None] in
  ∃ shape' (mid : nat → nat → nat),
    linearSubdivideTri shape = Some shape' ∧
    (∀ a b, mid a b = mid b a) ∧
    ∀ i tri,
      quads shape !! i = Some tri →
      let n := length (quads shape) in
      face_indices <$> quads shape' !! i
      = Some (i0 tri, mid (i0 tri) (i1 tri), mid (i2 tri) (i0 tri), None) ∧
      face_indices <$> quads shape' !! (n + 3 * i)%nat
      = Some (mid (i0 tri) (i1 tri), i1 tri, mid (i1 tri) (i2 tri), None) ∧
      face_indices <$> quads shape' !! (n + 3 * i + 1)%nat
      = Some (mid (i2 tri) (i0 tri), mid (i1 tri) (i2 tri), i2 tri, None) ∧
      face_indices <$> quads shape' !! (n + 3 * i + 2)%nat
      = Some (mid (i0 tri) (i1 tri), mid (i1 tri) (i2 tri),
              mid (i2 tri) (i0 tri), None) ∧
      Forall (λ e, ∃ p, vertices shape' !! mid e.1 e.2 = Some p ∧
                        is_edge_midpoint (vertices shape) p e)
        [(i0 tri, i1 tri); (i1 tri, i2 tri); (i2 tri, i0 tri)].
Proof.
  intros shape. apply (linearSubdivideTri_shares_midpoints shape).
  unfold shape_in_bounds, face_in_bounds, shape. simpl.
  solve_in_bounds; discriminate.
Defined.

(** ** Renderer.projectPointToCanvas, Transform.setDCM, translate, scale *)

(** X24: the projection depends only on the ray from the camera through
    the point: scaling a point with [z ≠ 0] by any [k ≠ 0] leaves its place
    on the canvas unchanged (for a negative [k] too: a point behind the
    camera lands where its mirror image in front does). *)
Theorem projection_same_ray (rd : Renderer.t) (p : Point3d) (k : R) :
  k ≠ 0 → z p ≠ 0 →
  Renderer.projectPointToCanvas rd (mulPoint3d p k)
  = Renderer.projectPointToCanvas rd p.
Proof.
  intros Hk Hz. unfold Renderer.projectPointToCanvas, mulPoint3d.
  cbn [x y z]. f_equal; field; split; assumption.
Qed.

Lemma projection_same_ray_witness :
  Renderer.projectPointToCanvas (Renderer.new 640 480)
    (mulPoint3d (P3 1 2 (-3)) 5)
  = Renderer.projectPointToCanvas (Renderer.new 640 480) (P3 1 2 (-3)).
Proof.
  apply (projection_same_ray (Renderer.new 640 480) (P3 1 2 (-3)) 5).
  - lra.
  - simpl. lra.
Defined.

(** X25: for a positive focal length and a positive scale, a point in
    front of the camera ([z < 0]) lands right of the centre column exactly
    when its [x] is positive, and above the centre row (a smaller canvas
    [y]) exactly when its [y] is positive. *)
Theorem projection_orientation (rd : Renderer.t) (p : Point3d) :
  0 < Camera.focal_length (Renderer.camera rd) →
  0 < Renderer.scale_ rd →
  z p < 0 →
  (0 < x p ↔
   Renderer.xoff_ rd < Canvas.x (Renderer.projectPointToCanvas rd p)) ∧
  (0 < y p ↔
   Canvas.y (Renderer.projectPointToCanvas rd p) < Renderer.scale_ rd).
Proof.
  intros Hf Hs Hz. unfold Renderer.projectPointToCanvas. cbn [Canvas.x Canvas.y].
  set (v := Camera.focal_length (Renderer.camera rd) / - z p).
  assert (0 < v) as Hv by (apply Rdiv_lt_0_compat; lra).
  assert (0 < v * Renderer.scale_ rd) as Hw by (by apply Rmult_lt_0_compat).
  set (w := v * Renderer.scale_ rd) in *.
  replace (x p * v * Renderer.scale_ rd) with (x p * w) by (unfold w; ring).
  replace (y p * v * - Renderer.scale_ rd) with (- (y p * w))
    by (unfold w; ring).
  split; split; intros H; nra.
Qed.

Lemma projection_orientation_witness :
  let rd := Renderer.new 640 480 in
  let p := P3 1 2 (-3) in
  (0 < x p ↔
   Renderer.xoff_ rd < Canvas.x (Renderer.projectPointToCanvas rd p)) ∧
  (0 < y p ↔
   Canvas.y (Renderer.projectPointToCanvas rd p) < Renderer.scale_ rd).
Proof.
  intros rd p. apply (projection_orientation rd p); simpl; lra.
Defined.

(** X26: after [setDCM(u, v, w)] the transform maps a point [p] to
    [p.x * u + p.y * v + p.z * w] plus the translation the transform had
    before, whatever its rotation and scale were. *)
Theorem setDCM_columns (u v w : Point3d) (tm : Transform.t) (p : Point3d) :
  Transform.transformPoint (Transform.setDCM u v w tm) p
  = addPoints3d
      (addPoints3d
         (addPoints3d (mulPoint3d u (x p)) (mulPoint3d v (y p)))
         (mulPoint3d w (z p)))
      (Transform.transformPoint tm (P3 0 0 0)).
Proof.
  destruct tm as [a]. destruct a.
  unfold Transform.transformPoint, Transform.setDCM, Transform.setDCMAffine,
    transformPoint, addPoints3d, mulPoint3d.
  apply Point3d_eq; simpl; ring.
Qed.

Lemma translate_inverse (dx dy dz : R) :
  multiplyAffine (makeTranslateAffine (- dx) (- dy) (- dz))
    (makeTranslateAffine dx dy dz)
  = makeIdentityAffine.
Proof.
  unfold multiplyAffine, makeTranslateAffine, makeIdentityAffine; simpl.
  f_equal; ring.
Qed.

Lemma scale_inverse (sx sy sz : R) :
  sx ≠ 0 → sy ≠ 0 → sz ≠ 0 →
  multiplyAffine (makeScaleAffine (1 / sx) (1 / sy) (1 / sz))
    (makeScaleAffine sx sy sz)
  = makeIdentityAffine.
Proof.
  intros Hx Hy Hz.
  unfold multiplyAffine, makeScaleAffine, makeIdentityAffine; simpl.
  f_equal; field; assumption.
Qed.

(** X27: translating by a vector and then by its opposite gives the
    transform back, and so does scaling by non-zero factors and then by
    their inverses. *)
Theorem translate_scale_undo (tm : Transform.t) (dx dy dz sx sy sz : R) :
  sx ≠ 0 → sy ≠ 0 → sz ≠ 0 →
  Transform.translate (- dx) (- dy) (- dz) (Transform.translate dx dy dz tm)
  = tm ∧
  Transform.scale (1 / sx) (1 / sy) (1 / sz) (Transform.scale sx sy sz tm)
  = tm.
Proof.
  intros Hx Hy Hz. split; apply Transform_eq; simpl.
  - rewrite <- multiplyAffine_associative, translate_inverse.
    apply multiplyAffine_identity_l.
  - rewrite <- multiplyAffine_associative, scale_inverse by assumption.
    apply multiplyAffine_identity_l.
Qed.

Lemma translate_scale_undo_witness :
  let tm := Transform.rotateX 1 Transform.new in
  Transform.translate (- 1) (- 2) (- 3) (Transform.translate 1 2 3 tm) = tm ∧
  Transform.scale (1 / 2) (1 / 4) (1 / 5) (Transform.scale 2 4 5 tm) = tm.
Proof.
  intros tm. apply (translate_scale_undo tm 1 2 3 2 4 5); lra.
Defined.

(** ** ShapeUtils.averageSmooth on quads *)

(** X28: on a shape in bounds all of whose faces are quads,
    [averageSmooth] keeps the faces and the number of vertices, and moves
    every vertex that some face references to the interpolation, by the
    amount, between its old position and the average of the centroids of
    the faces that reference it, all computed from the old positions; with
    the amount 0 such a vertex stays where it was. *)
Theorem averageSmooth_moves_to_centroids (shape : Shape) (amount : R) :
  shape_in_bounds shape →
  Forall (λ qf, is_Some (i3 qf)) (quads shape) →
  ∃ shape',
    averageSmooth shape (Some amount) = Some shape' ∧
    length (vertices shape') = length (vertices shape) ∧
    face_indices <$> quads shape' = face_indices <$> quads shape ∧
    ∀ i v,
      vertices shape !! i = Some v →
      incident_faces (quads shape) i ≠ [] →
      (∃ cents,
         Forall2 (centroid_of_face (vertices shape) (quads shape))
           (incident_faces (quads shape) i) cents ∧
         vertices shape' !! i
         = Some (linearInterpolatePoints3d v (averagePoints cents) amount)) ∧
      (amount = 0 → vertices shape' !! i = Some v).
Proof.
  intros Hb Hq.
  destruct (averageSmooth_quads shape amount Hb Hq)
    as (shape' & E & Hlen & Hidx & Hv).
  exists shape'. split; [exact E|]. split; [exact Hlen|].
  split; [exact Hidx|].
  intros i v Hi _. destruct (Hv i v Hi) as (cents & HF & Hnew).
  split; [by exists cents|].
  intros ->. rewrite Hnew. by rewrite linearInterpolatePoints3d_0.
Qed.

Lemma averageSmooth_moves_to_centroids_witness :
  let shape :=
    mkShape [P3 0 0 0; P3 1 0 0; P3 1 1 0; P3 0 1 0; P3 2 0 0; P3 2 1 0]
      [newQuadFace 0 1 2 (Some 3%nat); newQuadFace 1 4 5 (Some 2%nat)] in
  ∃ shape',
    averageSmooth shape (Some 0.5) = Some shape' ∧
    length (vertices shape') = length (vertices shape) ∧
    face_indices <$> quads shape' = face_indices <$> quads shape ∧
    ∀ i v,
      vertices shape !! i = Some v →
      incident_faces (quads shape) i ≠ [] →
      (∃ cents,
         Forall2 (centroid_of_face (vertices shape) (quads shape))
           (incident_faces (quads shape) i) cents ∧
         vertices shape' !! i
         = Some (linearInterpolatePoints3d v (averagePoints cents) 0.5)) ∧
      (0.5 = 0 → vertices shape' !! i = Some v).
Proof.
  intros shape. apply (averageSmooth_moves_to_centroids shape 0.5).
  - unfold shape_in_bounds, face_in_bounds, shape. simpl.
    solve_in_bounds; discriminate.
  - repeat constructor; eexists; reflexivity.
Defined.

(** ** ShapeUtils.rebuildMeta: old metadata *)

(** X29: [rebuildMeta] is idempotent: applied to its own result it
    changes nothing, and it fails the second time exactly when it fails the
    first time. *)
Theorem rebuildMeta_idempotent (shape : Shape) :
  rebuildMeta shape ≫= rebuildMeta = rebuildMeta shape.
Proof.
  unfold rebuildMeta.
  destruct (mapM (rebuildMetaFace (vertices shape)) (quads shape))
    as [qs|] eqn:E; [|reflexivity].
  cbn [mbind option_bind vertices quads].
  rewrite (mapM_rebuildMetaFace_idem _ _ _ E). reflexivity.
Qed.

(** ** ShapeUtils.makeSphericalShape: the grid *)

Lemma foldl_seq_inv {S : Type} (f : S → nat → S) (I : nat → S → Prop)
  (n : nat) :
  (∀ k s, (k < n)%nat → I k s → I (Datatypes.S k) (f s k)) →
  ∀ s, I 0%nat s → I n (foldl f s (seq 0 n)).
Proof.
  induction n as [|n IH]; intros Hstep s H0; [exact H0|].
  rewrite seq_S, foldl_app. simpl. apply Hstep; [lia|].
  apply IH; [|exact H0]. intros k s' Hk. apply Hstep. lia.
Qed.

Lemma sphereGridVertices_lookup (f : R → R → Point3d) (tess_x tess_y : nat)
  (theta_step phi_step : R) (i j : nat) :
  (i < tess_y)%nat → (j < tess_x)%nat →
  sphereGridVertices f tess_x tess_y theta_step phi_step
    !! (i * tess_x + j)%nat
  = Some (f (theta_step * INR (i + 1)) (phi_step * INR j)).
Proof.
  intros Hi Hj. unfold sphereGridVertices.
  apply (foldl_seq_inv
           (λ (st : list Point3d * R) (i : nat),
              (sphereRow f tess_x phi_step st.2 st.1, st.2 + theta_step))
           (λ k st,
              length st.1 = (tess_x * k)%nat ∧
              st.2 = theta_step * INR (k + 1) ∧
              ∀ i j, (i < k)%nat → (j < tess_x)%nat →
                     st.1 !! (i * tess_x + j)%nat
                     = Some (f (theta_step * INR (i + 1))
                               (phi_step * INR j)))
           tess_y); [| |exact Hi|exact Hj].
  - intros k [vs theta] _ (Hlen & Hth & Hold). cbn [fst snd] in *.
    rewrite sphereRow_app.
    split; [rewrite length_app, length_fmap, length_seq; lia|].
    split.
    { rewrite Hth. replace (Datatypes.S k + 1)%nat with (Datatypes.S (k + 1))
        by lia. rewrite (S_INR (k + 1)). ring. }
    intros i' j' Hi' Hj'. destruct (decide (i' < k)%nat) as [Hlt|Hge].
    + rewrite lookup_app_l by (rewrite Hlen; nia). by apply Hold.
    + assert (i' = k) as -> by lia.
      rewrite lookup_app_r by (rewrite Hlen; lia).
      replace (k * tess_x + j' - length vs)%nat with j'
        by (rewrite Hlen; lia).
      rewrite list_lookup_fmap, lookup_seq_lt by exact Hj'.
      simpl. by rewrite Hth.
  - cbn [fst snd]. split; [simpl; lia|]. split; [simpl; ring|].
    intros; lia.
Qed.

Lemma sphereGridQuads_lookup (tess_x tess_y i j : nat) :
  (i < tess_y - 1)%nat → (j < tess_x)%nat →
  sphereGridQuads tess_x tess_y !! (i * tess_x + j)%nat
  = Some (newQuadFace (i * tess_x + j) (i * tess_x + tess_x + j)
            (i * tess_x + tess_x + (j + 1) mod tess_x)
            (Some (i * tess_x + (j + 1) mod tess_x)%nat)).
Proof.
  intros Hi Hj. unfold sphereGridQuads.
  apply (foldl_seq_inv
           (λ qs (i : nat),
              let stride := (i * tess_x)%nat in
              foldl (λ qs (j : nat),
                       let n := ((j + 1) mod tess_x)%nat in
                       qs ++ [newQuadFace (stride + j) (stride + tess_x + j)
                                (stride + tess_x + n)
                                (Some (stride + n)%nat)])
                qs (seq 0 tess_x))
           (λ k qs,
              length qs = (tess_x * k)%nat ∧
              ∀ i j, (i < k)%nat → (j < tess_x)%nat →
                     qs !! (i * tess_x + j)%nat
                     = Some (newQuadFace (i * tess_x + j)
                               (i * tess_x + tess_x + j)
                               (i * tess_x + tess_x + (j + 1) mod tess_x)
                               (Some (i * tess_x + (j + 1) mod tess_x)%nat)))
           (tess_y - 1)); [| |exact Hi|exact Hj].
  - intros k qs _ (Hlen & Hold). cbn zeta.
    rewrite (foldl_snoc_fmap
               (λ j : nat,
                  newQuadFace (k * tess_x + j) (k * tess_x + tess_x + j)
                    (k * tess_x + tess_x + (j + 1) mod tess_x)
                    (Some (k * tess_x + (j + 1) mod tess_x)%nat))).
    split; [rewrite length_app, length_fmap, length_seq; lia|].
    intros i' j' Hi' Hj'. destruct (decide (i' < k)%nat) as [Hlt|Hge].
    + rewrite lookup_app_l by (rewrite Hlen; nia). by apply Hold.
    + assert (i' = k) as -> by lia.
      rewrite lookup_app_r by (rewrite Hlen; lia).
      replace (k * tess_x + j' - length qs)%nat with j'
        by (rewrite Hlen; lia).
      by rewrite list_lookup_fmap, lookup_seq_lt by exact Hj'.
  - split; [simpl; lia|]. intros; lia.
Qed.

Lemma spherePoleTriangles_lookup (tess_x top_p_i bot_p_i last_row : nat)
  (qs : list QuadFace) :
  (∀ m q, qs !! m = Some q →
          spherePoleTriangles tess_x top_p_i bot_p_i last_row qs !! m
          = Some q) ∧
  ∀ i, (i < tess_x)%nat →
       spherePoleTriangles tess_x top_p_i bot_p_i last_row qs
         !! (length qs + 2 * i)%nat
       = Some (newQuadFace top_p_i i ((i + 1) mod tess_x) None) ∧
       spherePoleTriangles tess_x top_p_i bot_p_i last_row qs
         !! (length qs + 2 * i + 1)%nat
       = Some (newQuadFace bot_p_i (last_row + (i + 2) mod tess_x)
                 (last_row + (i + 1) mod tess_x) None).
Proof.
  unfold spherePoleTriangles.
  cut (let r :=
         foldl (λ qs (i : nat),
                  let qs :=
                    qs ++ [newQuadFace top_p_i i ((i + 1) mod tess_x) None] in
                  qs ++ [newQuadFace bot_p_i
                           (last_row + (i + 2) mod tess_x)
                           (last_row + (i + 1) mod tess_x) None])
           qs (seq 0 tess_x) in
       length r = (length qs + 2 * tess_x)%nat ∧
       (∀ m q, qs !! m = Some q → r !! m = Some q) ∧
       ∀ i, (i < tess_x)%nat →
            r !! (length qs + 2 * i)%nat
            = Some (newQuadFace top_p_i i ((i + 1) mod tess_x) None) ∧
            r !! (length qs + 2 * i + 1)%nat
            = Some (newQuadFace bot_p_i (last_row + (i + 2) mod tess_x)
                      (last_row + (i + 1) mod tess_x) None)).
  { cbn zeta. intros (_ & H1 & H2). by split. }
  cbn zeta.
  apply (foldl_seq_inv _
           (λ k r,
              length r = (length qs + 2 * k)%nat ∧
              (∀ m q, qs !! m = Some q → r !! m = Some q) ∧
              ∀ i, (i < k)%nat →
                   r !! (length qs + 2 * i)%nat
                   = Some (newQuadFace top_p_i i ((i + 1) mod tess_x) None) ∧
                   r !! (length qs + 2 * i + 1)%nat
                   = Some (newQuadFace bot_p_i
                             (last_row + (i + 2) mod tess_x)
                             (last_row + (i + 1) mod tess_x) None))
           tess_x).
  - intros k r _ (Hlen & Hpre & Hold). cbn zeta.
    split; [rewrite !length_app; simpl; lia|]. split.
    + intros m q Hm. pose proof (lookup_lt_Some _ _ _ Hm).
      rewrite <- app_assoc, lookup_app_l by lia. by apply Hpre.
    + intros i Hi. rewrite <- app_assoc.
      destruct (decide (i < k)%nat) as [Hlt|Hge].
      * rewrite !lookup_app_l by lia. by apply Hold.
      * assert (i = k) as -> by lia.
        split; rewrite lookup_app_r by lia.
        -- replace (length qs + 2 * k - length r)%nat with 0%nat by lia.
           reflexivity.
        -- replace (length qs + 2 * k + 1 - length r)%nat with 1%nat by lia.
           reflexivity.
  - split; [lia|]. split; [done|]. intros; lia.
Qed.

(** X30: with at least one ring, [makeSphericalShape] stores the grid row
    by row: the vertex [j] of ring [i] sits at index [i * tess_x + j] and
    is [f] at [theta = (i + 1) * theta_step] (over the reals the repeated
    additions of the loop are this multiple) and [phi = j * phi_step]; the
    quad [i * tess_x + j] joins the vertices [j] and [j + 1], wrapping
    around at [tess_x], of the rings [i] and [i + 1]; after the grid come,
    in turn for each [i], a triangle from the top pole to ring 0 and one
    from the bottom pole to the last ring. *)
Theorem makeSphericalShape_grid (f : R → R → Point3d)
  (tess_x tess_y : nat) :
  (1 ≤ tess_y)%nat →
  ∃ s,
    makeSphericalShape f tess_x tess_y = Some s ∧
    (∀ i j, (i < tess_y)%nat → (j < tess_x)%nat →
       vertices s !! (i * tess_x + j)%nat
       = Some (f (PI / INR (tess_y + 1) * INR (i + 1))
                 (k2PI / INR tess_x * INR j))) ∧
    (∀ i j, (i < tess_y - 1)%nat → (j < tess_x)%nat →
       face_indices <$> quads s !! (i * tess_x + j)%nat
       = Some ((i * tess_x + j)%nat, (i * tess_x + tess_x + j)%nat,
               (i * tess_x + tess_x + (j + 1) mod tess_x)%nat,
               Some (i * tess_x + (j + 1) mod tess_x)%nat)) ∧
    (∀ i, (i < tess_x)%nat →
       face_indices <$> quads s !! (tess_x * (tess_y - 1) + 2 * i)%nat
       = Some ((tess_x * tess_y)%nat, i, ((i + 1) mod tess_x)%nat, None) ∧
       face_indices <$> quads s !! (tess_x * (tess_y - 1) + 2 * i + 1)%nat
       = Some ((tess_x * tess_y + 1)%nat,
               (tess_x * (tess_y - 1) + (i + 2) mod tess_x)%nat,
               (tess_x * (tess_y - 1) + (i + 1) mod tess_x)%nat, None)).
Proof.
  intros Hy. unfold makeSphericalShape.
  destruct (sphereGridVertices_ok f tess_x tess_y
              (PI / INR (tess_y + 1)) (k2PI / INR tess_x) (λ _, True))
    as [Hlv _]; [done|].
  destruct (sphereGridQuads_ok tess_x tess_y) as [Hlq HFq].
  pose proof (sphereGridVertices_lookup f tess_x tess_y
                (PI / INR (tess_y + 1)) (k2PI / INR tess_x)) as Hgrid.
  set (vs := sphereGridVertices f tess_x tess_y
               (PI / INR (tess_y + 1)) (k2PI / INR tess_x)) in *.
  assert (tess_x ≤ tess_x * tess_y)%nat as Hxy
    by (rewrite <- (Nat.mul_1_r tess_x) at 1; apply Nat.mul_le_mono_l; lia).
  assert (length vs - tess_x = tess_x * (tess_y - 1))%nat as Hlast
    by (rewrite Hlv, Nat.mul_sub_distr_l; lia).
  destruct (decide (length vs < tess_x)%nat) as [Hlt|_]; [lia|].
  destruct (spherePoleTriangles_ok tess_x (length vs) (length vs + 1)
              (length vs - tess_x) (tess_x * tess_y + 2)
              (sphereGridQuads tess_x tess_y)) as [_ HFp];
    [lia | lia | lia | lia | |].
  { eapply Forall_impl; [exact HFq|]. intros qf [Hqf _].
    eapply face_in_bounds_mono; [|exact Hqf]. lia. }
  destruct (spherePoleTriangles_lookup tess_x (length vs) (length vs + 1)
              (length vs - tess_x) (sphereGridQuads tess_x tess_y))
    as [Hpre Hpole].
  set (qs := spherePoleTriangles tess_x (length vs) (length vs + 1)
               (length vs - tess_x) (sphereGridQuads tess_x tess_y)) in *.
  assert (length ((vs ++ [f 0 0]) ++ [f PI 0]) = (tess_x * tess_y + 2)%nat)
    as Hlen by (rewrite !length_app; simpl; lia).
  destruct (rebuildMeta_ok (mkShape ((vs ++ [f 0 0]) ++ [f PI 0]) qs))
    as (qs' & E & HF2).
  { unfold shape_in_bounds. cbn [vertices quads]. rewrite Hlen. exact HFp. }
  cbn [vertices quads] in E, HF2.
  assert (∀ m q, qs !! m = Some q →
                 face_indices <$> qs' !! m = Some (face_indices q)) as Hidx.
  { intros m q Hm.
    destruct (Forall2_lookup_l _ _ _ _ _ HF2 Hm) as (q' & Hq' & (Hi & _)).
    by rewrite Hq', <- Hi. }
  eexists. split; [exact E|]. cbn [vertices quads].
  split; [|split].
  - intros i j Hi Hj.
    rewrite <- app_assoc, lookup_app_l by (rewrite Hlv; nia).
    by apply Hgrid.
  - intros i j Hi Hj.
    apply (Hidx _ _ (Hpre _ _ (sphereGridQuads_lookup tess_x tess_y i j Hi Hj))).
  - intros i Hi. destruct (Hpole i Hi) as [Ht Hb].
    rewrite Hlq, Hlv in Ht. rewrite Hlq, Hlast, Hlv in Hb.
    split; [exact (Hidx _ _ Ht) | exact (Hidx _ _ Hb)].
Qed.

Lemma makeSphericalShape_grid_witness :
  ∃ s,
    makeSphericalShape (λ theta phi, P3 theta phi 0) 4 3 = Some s ∧
    (∀ i j, (i < 3)%nat → (j < 4)%nat →
       vertices s !! (i * 4 + j)%nat
       = Some (P3 (PI / INR (3 + 1) * INR (i + 1)) (k2PI / INR 4 * INR j) 0))
    ∧
    (∀ i j, (i < 3 - 1)%nat → (j < 4)%nat →
       face_indices <$> quads s !! (i * 4 + j)%nat
       = Some ((i * 4 + j)%nat, (i * 4 + 4 + j)%nat,
               (i * 4 + 4 + (j + 1) mod 4)%nat,
               Some (i * 4 + (j + 1) mod 4)%nat)) ∧
    (∀ i, (i < 4)%nat →
       face_indices <$> quads s !! (4 * (3 - 1) + 2 * i)%nat
       = Some ((4 * 3)%nat, i, ((i + 1) mod 4)%nat, None) ∧
       face_indices <$> quads s !! (4 * (3 - 1) + 2 * i + 1)%nat
       = Some ((4 * 3 + 1)%nat,
               (4 * (3 - 1) + (i + 2) mod 4)%nat,
               (4 * (3 - 1) + (i + 1) mod 4)%nat, None)).
Proof.
  apply (makeSphericalShape_grid (λ theta phi, P3 theta phi 0) 4 3). lia.
Defined.
